(** * serverlessRepair: the detection-and-patch engine of [src/api/validate-html.js]

    A shallow embedding of the repair pipeline's text functions, and the
    properties of the specification that are about them.

    JavaScript strings are sequences of UTF-16 code units; every function
    embedded here reads a string one code unit at a time ([source[i]],
    [slice], [includes], [length]), so a string is a [list] of code units and
    a code unit is an [N].  Array indices and counters are [nat]. *)

From Stdlib Require Import List NArith ZArith String Ascii Lia Bool Arith.
From Stdlib Require Import Floats Uint63 Sorted.
From stdpp Require Import gmap.
Import ListNotations.

Set Default Proof Using "Type".

(* ===================================================================== *)
(** * JavaScript strings *)
(* ===================================================================== *)

Module JsString.

Definition char := N.
Definition str := list char.

(** The code unit of an ASCII character, and the string of an ASCII literal. *)
Definition ch (a : ascii) : char := N_of_ascii a.
Definition js (s : string) : str := map N_of_ascii (list_ascii_of_string s).

(** [s.startsWith(p)] *)
Fixpoint startsWith (s p : str) {struct p} : bool :=
  match p, s with
  | [], _ => true
  | _ :: _, [] => false
  | a :: p', b :: s' => (a =? b)%N && startsWith s' p'
  end.

(** [s.includes(needle)]: [needle] occurs in [s] at some position. *)
Fixpoint includes (s needle : str) : bool :=
  startsWith s needle ||
  match s with
  | [] => false
  | _ :: t => includes t needle
  end.

(** [s.slice(0, k)] and [s.slice(k)] for a non-negative [k]; both clamp at
    the length of [s], as [firstn] and [skipn] do. *)
Definition slice_to (k : nat) (s : str) : str := firstn k s.
Definition slice_from (k : nat) (s : str) : str := skipn k s.

(** Number of occurrences of the code unit [c] in [s]. *)
Fixpoint countChar (c : char) (s : str) : nat :=
  match s with
  | [] => 0
  | x :: t => (if (x =? c)%N then 1 else 0) + countChar c t
  end.

(** [s.endsWith(p)] *)
Definition endsWith (s p : str) : bool := startsWith (rev s) (rev p).

(** [s.indexOf(p)]: the first position at which [p] occurs, [None] for -1. *)
Fixpoint indexOf_from (s p : str) (i : nat) : option nat :=
  if startsWith s p then Some i
  else match s with
       | [] => None
       | _ :: t => indexOf_from t p (S i)
       end.

Definition indexOf (s p : str) : option nat := indexOf_from s p 0.

Definition LF : char := 10%N.

(** [s.split('\n')]; the result is never empty. *)
Fixpoint split_lines (s : str) : list str :=
  match s with
  | [] => [[]]
  | c :: t =>
      if (c =? LF)%N then [] :: split_lines t
      else match split_lines t with
           | [] => [[c]]
           | l :: ls => (c :: l) :: ls
           end
  end.

(** [parts.join(sep)] *)
Fixpoint join (sep : str) (parts : list str) : str :=
  match parts with
  | [] => []
  | [p] => p
  | p :: rest => p ++ sep ++ join sep rest
  end.

Definition join_lines (parts : list str) : str := join [LF] parts.

(** White space and line terminators of ECMAScript: what [trim] strips and
    what the regular expression class [\s] matches. *)
Definition is_white_space (c : char) : bool :=
  ((9 <=? c) && (c <=? 13) || (c =? 32) || (c =? 160) || (c =? 5760) ||
   (8192 <=? c) && (c <=? 8202) || (c =? 8232) || (c =? 8233) ||
   (c =? 8239) || (c =? 8287) || (c =? 12288) || (c =? 65279))%N.

Fixpoint trimStart (s : str) : str :=
  match s with
  | [] => []
  | c :: t => if is_white_space c then trimStart t else s
  end.

Definition trimEnd (s : str) : str := rev (trimStart (rev s)).

Definition trim (s : str) : str := trimEnd (trimStart s).

Definition is_digit (c : char) : bool := ((48 <=? c) && (c <=? 57))%N.
Definition digit_value (c : char) : nat := N.to_nat (c - 48).

(** The abstract operation GetSubstitution of ECMAScript, without named
    captures: the expansion of [$$], [$&], [$`], [$'] and [$n], [$nn] in the
    replacement text of [String.prototype.replace].  [matched] was found at
    [position] in [s]; [captures] are the capture groups ([None] for a group
    that did not take part in the match). *)
Fixpoint GetSubstitution (matched s : str) (position : nat)
    (captures : list (option str)) (template : str) : str :=
  let capture_text (n : nat) : str :=
    match nth_error captures (n - 1) with
    | Some (Some c) => c
    | _ => []
    end in
  match template with
  | [] => []
  | c :: t =>
      if negb (c =? ch "$")%N then c :: GetSubstitution matched s position captures t
      else
        match t with
        | [] => [c]
        | d :: t' =>
            if (d =? ch "$")%N then
              ch "$" :: GetSubstitution matched s position captures t'
            else if (d =? ch "`")%N then
              firstn position s ++ GetSubstitution matched s position captures t'
            else if (d =? ch "&")%N then
              matched ++ GetSubstitution matched s position captures t'
            else if (d =? ch "'")%N then
              skipn (position + length matched) s ++
              GetSubstitution matched s position captures t'
            else if is_digit d then
              let one := digit_value d in
              match t' with
              | e :: t'' =>
                  let two := 10 * one + digit_value e in
                  if is_digit e && (1 <=? two) && (two <=? length captures) then
                    capture_text two ++ GetSubstitution matched s position captures t''
                  else if (1 <=? one) && (one <=? length captures) then
                    capture_text one ++ GetSubstitution matched s position captures t'
                  else c :: d :: GetSubstitution matched s position captures t'
              | [] =>
                  if (1 <=? one) && (one <=? length captures) then capture_text one
                  else [c; d]
              end
            else c :: GetSubstitution matched s position captures t
        end
  end.

(** [s.replace(pattern, replacement)] with a string [pattern]: the first
    occurrence is replaced, and [replacement] is expanded by
    [GetSubstitution]. *)
Definition replace_string (s pattern replacement : str) : str :=
  match indexOf s pattern with
  | None => s
  | Some position =>
      firstn position s ++
      GetSubstitution pattern s position [] replacement ++
      skipn (position + length pattern) s
  end.

End JsString.
Import JsString.

(* ===================================================================== *)
(** * Regular expressions *)
(* ===================================================================== *)

(** The backtracking matcher of ECMAScript (without the [u] and [m] flags),
    for the constructs that the regular expression literals of
    [validate-html.js] embedded below are written with. *)

Module Regex.

(** Members of a character class. *)
Inductive class_item :=
| One (c : char)           (* a single character *)
| Range (lo hi : char)     (* lo-hi *)
| Space                    (* \s *)
| NotSpace                 (* \S *)
| Word.                    (* \w *)

Inductive regex :=
| Empty
| Chr (c : char)                               (* a literal character *)
| Class (negated : bool) (items : list class_item)   (* [...] and [^...] *)
| Dot                                          (* . *)
| Seq (r1 r2 : regex)
| Alt (r1 r2 : regex)                          (* r1|r2 *)
| Star (greedy : bool) (r : regex)             (* r* and r*? *)
| Plus (greedy : bool) (r : regex)             (* r+ and r+? *)
| Opt (greedy : bool) (r : regex)              (* r? and r?? *)
| Group (n : nat) (r : regex)                  (* the n-th capturing group *)
| Lookahead (r : regex)                        (* (?=r) *)
| Bol                                          (* ^ *)
| Eol.                                         (* $ *)

(** The flags [i] and [s]; [g] is handled where the expression is used. *)
Record flags := mkFlags { ignoreCase : bool; dotAll : bool }.

Definition no_flags : flags := mkFlags false false.

Definition seqs (rs : list regex) : regex := fold_right Seq Empty rs.
Definition alts (r : regex) (rs : list regex) : regex := fold_left Alt rs r.
Definition lit (s : string) : regex := seqs (map Chr (js s)).

(** Canonicalize, for the [i] flag without [u]: the upper-case mapping,
    here on ASCII letters.  ECMAScript never maps a code unit above 127 to
    one below 128, so on the ASCII-only patterns of this file comparing
    canonical forms gives the same answer with this mapping as with the
    full one. *)
Definition canonicalize (fl : flags) (c : char) : char :=
  if ignoreCase fl && (97 <=? c)%N && (c <=? 122)%N then (c - 32)%N else c.

Definition is_word_char (c : char) : bool :=
  ((48 <=? c) && (c <=? 57) || (65 <=? c) && (c <=? 90) ||
   (97 <=? c) && (c <=? 122) || (c =? 95))%N.

Definition is_line_terminator (c : char) : bool :=
  ((c =? 10) || (c =? 13) || (c =? 8232) || (c =? 8233))%N.

Definition item_mem (it : class_item) (c : char) : bool :=
  match it with
  | One a => (a =? c)%N
  | Range lo hi => ((lo <=? c) && (c <=? hi))%N
  | Space => is_white_space c
  | NotSpace => negb (is_white_space c)
  | Word => is_word_char c
  end.

(** Under [i] a class holds [c] when it holds a character with the same
    canonical form; for an ASCII letter these are its two cases. *)
Definition class_mem (fl : flags) (items : list class_item) (c : char) : bool :=
  existsb (fun it => item_mem it c) items ||
  (ignoreCase fl &&
   (((97 <=? c)%N && (c <=? 122)%N &&
     existsb (fun it => item_mem it (c - 32)%N) items) ||
    ((65 <=? c)%N && (c <=? 90)%N &&
     existsb (fun it => item_mem it (c + 32)%N) items))).

(** The matcher state: the number of characters matched so far, the input
    from there on, and the captures ([captures !! n] is the [n+1]-th
    group). *)
Record mstate := mkState {
  endIndex : nat;
  remaining : str;
  captures : list (option str)
}.

Definition step_char (st : mstate) (p : char -> bool)
    (k : mstate -> option mstate) : option mstate :=
  match remaining st with
  | [] => None
  | x :: t => if p x then k (mkState (S (endIndex st)) t (captures st)) else None
  end.

(** The capturing groups of an expression, cleared at each iteration of a
    quantifier over it. *)
Fixpoint groups (r : regex) : list nat :=
  match r with
  | Seq r1 r2 | Alt r1 r2 => groups r1 ++ groups r2
  | Star _ r1 | Plus _ r1 | Opt _ r1 | Lookahead r1 => groups r1
  | Group n r1 => n :: groups r1
  | _ => []
  end.

Definition clear_groups (gs : list nat) (st : mstate) : mstate :=
  mkState (endIndex st) (remaining st)
          (fold_left (fun cs n => <[n - 1 := None]> cs) gs (captures st)).

Definition set_group (n : nat) (text : str) (st : mstate) : mstate :=
  mkState (endIndex st) (remaining st) (<[n - 1 := Some text]> (captures st)).

Definition or_else {A} (x : option A) (y : unit -> option A) : option A :=
  match x with
  | Some v => Some v
  | None => y tt
  end.

(** The iterations of a quantifier without upper bound, after its
    mandatory ones: [m1] matches the quantified expression once.  An
    iteration that consumes nothing is rejected, so there are at most as
    many iterations as characters remain, which is what [fuel] starts at. *)
Fixpoint repeat_matcher
    (m1 : mstate -> (mstate -> option mstate) -> option mstate)
    (greedy : bool) (k : mstate -> option mstate)
    (fuel : nat) (st : mstate) {struct fuel} : option mstate :=
  match fuel with
  | 0 => k st
  | S fuel' =>
      let iterate (_ : unit) :=
        m1 st (fun st1 =>
                 if endIndex st1 =? endIndex st then None
                 else repeat_matcher m1 greedy k fuel' st1) in
      if greedy then or_else (iterate tt) (fun _ => k st)
      else or_else (k st) iterate
  end.

(** [matcher fl start r st k]: match [r] at [st] and hand the resulting
    state to the continuation [k]; [None] is failure, which makes the caller
    try its next alternative.  [start] is the index in the input at which
    this attempt began; the [endIndex] of a state counts from there. *)
Fixpoint matcher (fl : flags) (start : nat) (r : regex) (st : mstate)
    (k : mstate -> option mstate) {struct r} : option mstate :=
  match r with
  | Empty => k st
  | Chr c => step_char st (fun x => (canonicalize fl c =? canonicalize fl x)%N) k
  | Class negated items => step_char st (fun x => xorb negated (class_mem fl items x)) k
  | Dot => step_char st (fun x => dotAll fl || negb (is_line_terminator x)) k
  | Seq r1 r2 => matcher fl start r1 st (fun st1 => matcher fl start r2 st1 k)
  | Alt r1 r2 => or_else (matcher fl start r1 st k) (fun _ => matcher fl start r2 st k)
  | Star greedy r1 =>
      repeat_matcher (fun st0 => matcher fl start r1 (clear_groups (groups r1) st0))
                     greedy k (length (remaining st)) st
  | Plus greedy r1 =>
      matcher fl start r1 (clear_groups (groups r1) st)
        (fun st1 =>
           repeat_matcher (fun st0 => matcher fl start r1 (clear_groups (groups r1) st0))
                          greedy k (length (remaining st1)) st1)
  | Opt greedy r1 =>
      let once (_ : unit) :=
        matcher fl start r1 (clear_groups (groups r1) st)
          (fun st1 => if endIndex st1 =? endIndex st then None else k st1) in
      if greedy then or_else (once tt) (fun _ => k st)
      else or_else (k st) once
  | Group n r1 =>
      matcher fl start r1 st
        (fun st1 =>
           k (set_group n (firstn (endIndex st1 - endIndex st) (remaining st)) st1))
  | Lookahead r1 =>
      match matcher fl start r1 st Some with
      | None => None
      | Some st1 => k (mkState (endIndex st) (remaining st) (captures st1))
      end
  | Bol => if start + endIndex st =? 0 then k st else None
  | Eol => match remaining st with [] => k st | _ :: _ => None end
  end.

(** The result of a successful [exec]: [index], the end of the match, the
    matched text ([match[0]]) and the groups ([match[1]], ...). *)
Record match_result := mkMatch {
  m_index : nat;
  m_end : nat;
  m_text : str;
  m_groups : list (option str)
}.

(** The search loop of [exec]: try at [i], the index of the head of [s],
    then at each later index, the end of the input included. *)
Fixpoint exec_from (fl : flags) (r : regex) (ngroups : nat) (s : str) (i : nat)
  : option match_result :=
  match matcher fl i r (mkState 0 s (repeat None ngroups)) Some with
  | Some st =>
      Some (mkMatch i (i + endIndex st) (firstn (endIndex st) s) (captures st))
  | None =>
      match s with
      | [] => None
      | _ :: t => exec_from fl r ngroups t (S i)
      end
  end.

(** [r.exec(s)] for an expression without the [g] flag, [s.match(r)]. *)
Definition exec (fl : flags) (r : regex) (ngroups : nat) (s : str)
  : option match_result :=
  exec_from fl r ngroups s 0.

(** [r.test(s)] *)
Definition test (fl : flags) (r : regex) (s : str) : bool :=
  match exec fl r 0 s with Some _ => true | None => false end.

(** [match[n]] as a string; a group that took no part reads as empty. *)
Definition group (n : nat) (m : match_result) : str :=
  match nth_error (m_groups m) (n - 1) with
  | Some (Some text) => text
  | _ => []
  end.

(** The loop [while ((match = r.exec(s)) !== null)] for an expression with
    the [g] flag: all matches from left to right, each search starting at
    [lastIndex], the end of the match before.  After an empty match [exec]
    leaves [lastIndex] where it is and the loop never ends: the result is
    [None].  Every other match advances [lastIndex], so the loop runs at
    most [length s] times and [fuel] above that is never used up. *)
Fixpoint exec_all_from (fl : flags) (r : regex) (ngroups : nat) (s : str)
    (lastIndex fuel : nat) : option (list match_result) :=
  match fuel with
  | 0 => None
  | S fuel' =>
      match exec_from fl r ngroups (skipn lastIndex s) lastIndex with
      | None => Some []
      | Some m =>
          if m_end m =? m_index m then None
          else
            match exec_all_from fl r ngroups s (m_end m) fuel' with
            | None => None
            | Some ms => Some (m :: ms)
            end
      end
  end.

Definition exec_all (fl : flags) (r : regex) (ngroups : nat) (s : str)
  : option (list match_result) :=
  exec_all_from fl r ngroups s 0 (S (length s)).

(** [st1] is [n] characters further in the input than the state at index [e]
    with [rest] still to read. *)
Definition advances (e : nat) (rest : str) (n : nat) (st1 : mstate) : Prop :=
  n <= length rest /\ endIndex st1 = e + n /\ remaining st1 = skipn n rest.

(** A matcher only moves forward: whatever state reaches the continuation is
    some number of characters further, within the input. *)
Definition moves_forward
    (m : mstate -> (mstate -> option mstate) -> option mstate) : Prop :=
  forall st k res,
    m st k = Some res ->
    exists n st1, advances (endIndex st) (remaining st) n st1 /\ k st1 = Some res.

(** [s.replace(r, replacement)] for an expression without the [g] flag. *)
Definition replace_regex (fl : flags) (r : regex) (ngroups : nat)
    (s replacement : str) : str :=
  match exec fl r ngroups s with
  | None => s
  | Some m =>
      firstn (m_index m) s ++
      GetSubstitution (m_text m) s (m_index m) (m_groups m) replacement ++
      skipn (m_end m) s
  end.

End Regex.

(* ===================================================================== *)
(** * 4.1 Balanced-delimiter detector and patcher *)
(* ===================================================================== *)

Module Delimiter.

Inductive IssueType := missing_close | extra_close.

(** [{ type, index }] *)
Record Issue := mkIssue { type : IssueType; index : nat }.

Definition lparen : char := ch "(".
Definition rparen : char := ch ")".

(** The six [source.includes(...)] tests that open
    [detectUnbalancedParentheses]. *)
Definition shader_markers : list str :=
  [ js "ShaderMaterial"; js "vertexShader"; js "fragmentShader";
    js "gl_FragColor"; js "uniform "; js "varying " ].

Definition is_shader_content (source : str) : bool :=
  includes source (js "ShaderMaterial") ||
  includes source (js "vertexShader") ||
  includes source (js "fragmentShader") ||
  includes source (js "gl_FragColor") ||
  includes source (js "uniform ") ||
  includes source (js "varying ").

(** The [for] loop of [detectUnbalancedParentheses]: [i] is the index of the
    head of [rest]; [stack] is the JS array ([push] appends, [pop] removes
    the last element); [positions] collects the extra-close issues. *)
Fixpoint scan (rest : str) (i : nat) (stack : list nat) (positions : list Issue)
  : list nat * list Issue :=
  match rest with
  | [] => (stack, positions)
  | c :: rest' =>
      if (c =? lparen)%N then scan rest' (S i) (stack ++ [i]) positions
      else if (c =? rparen)%N then
        match stack with
        | [] => scan rest' (S i) stack (positions ++ [mkIssue extra_close i])
        | _ :: _ => scan rest' (S i) (removelast stack) positions
        end
      else scan rest' (S i) stack positions
  end.

Definition detectUnbalancedParentheses (source : str) : list Issue :=
  if is_shader_content source then []
  else
    let '(stack, positions) := scan source 0 [] [] in
    positions ++ map (mkIssue missing_close) stack.

(** [{ fixed, fixCount }] *)
Record FixResult := mkFixResult { fixed : str; fixCount : nat }.

Definition removed_marker : str := js "/* removed extra ) */".

(** One iteration of the [for (const fix of parenFixes)] loop of
    [fixUnbalanced] on the pair [(fixedScript, offset)]. *)
Definition fix_step (st : str * nat) (fx : Issue) : str * nat :=
  let '(fixedScript, offset) := st in
  match type fx with
  | missing_close =>
      (slice_to (index fx + 1 + offset) fixedScript ++ js ")" ++
       slice_from (index fx + 1 + offset) fixedScript,
       offset + 1)
  | extra_close =>
      (slice_to (index fx + offset) fixedScript ++ removed_marker ++
       slice_from (index fx + 1 + offset) fixedScript,
       offset + (length removed_marker - 1))
  end.

Section FixUnbalanced.

(** [acornLoose.parse] comes from the [acorn-loose] package.  Its result is
    never read; all that [fixUnbalanced] observes is whether the call
    throws ([None]). *)
Context {AST : Type}.
Variable acornLoose_parse : str -> option AST.

(** [fixUnbalanced(script, verbose)]; [verbose] only selects console
    output, which is not modelled. *)
Definition fixUnbalanced (script : str) : FixResult :=
  match acornLoose_parse script with
  | None => mkFixResult script 0
  | Some _ =>
      let parenFixes := detectUnbalancedParentheses script in
      let '(fixedScript, _) := fold_left fix_step parenFixes (script, 0) in
      mkFixResult fixedScript (length parenFixes)
  end.

End FixUnbalanced.

(** A parser that never throws, which is what the comment in [fixUnbalanced]
    says of [acorn-loose]. *)
Definition parse_never_throws : str -> option unit := fun _ => Some tt.


End Delimiter.

(* ===================================================================== *)
(** * 4.2 Suggestion-assisted patch applier *)
(* ===================================================================== *)

Module Similarity.

(** JavaScript numbers are IEEE 754 binary64 values, as Rocq's primitive
    floats are.  A length or a counter is an integer below [2^53] and so is
    represented exactly. *)
Definition number_of_nat (n : nat) : float :=
  PrimFloat.of_uint63 (Uint63.of_Z (Z.of_nat n)).

(** The loop [for (i = 0; i < shorter.length; i++)
    if (longer.includes(shorter[i])) matches++]. *)
Fixpoint count_matches (longer shorter : str) (matches : nat) : nat :=
  match shorter with
  | [] => matches
  | c :: t =>
      count_matches longer t (if includes longer [c] then S matches else matches)
  end.

Definition longer_of (str1 str2 : str) : str :=
  if length str2 <? length str1 then str1 else str2.

Definition shorter_of (str1 str2 : str) : str :=
  if length str2 <? length str1 then str2 else str1.

Definition calculateStringSimilarity (str1 str2 : str) : float :=
  let longer := longer_of str1 str2 in
  let shorter := shorter_of str1 str2 in
  if length longer =? 0 then 1%float
  else (number_of_nat (count_matches longer shorter 0) /
        number_of_nat (length longer))%float.

(** What section 3 of the specification says the function computes: the
    fraction of the shorter string's characters found in the longer one,
    that is, their number divided by the length of the shorter string. *)
Definition fraction_of_shorter (a b : str) : float :=
  let longer := longer_of a b in
  let shorter := shorter_of a b in
  (number_of_nat (length (List.filter (fun c => existsb (N.eqb c) longer) shorter)) /
   number_of_nat (length shorter))%float.

End Similarity.

Module SmartFix.

Import Delimiter Similarity.

(** An element of the JSON array asked of the suggestion service:
    [{ lineNumber, original, fixed }] ([explanation] is only logged).  The
    elements are taken to have this shape. *)
Record Patch := mkPatch {
  fix_lineNumber : Z;
  fix_original : str;
  fix_fixed : str
}.

(** An element of [issueDescriptions]; the fields [column], [line] and
    [description] only go into the prompt. *)
Record IssueDescription := mkDescription {
  d_type : IssueType;
  d_lineNumber : nat
}.

(** [lineIndices.get(key)], where [lineIndices] maps every character index
    of the script, line feeds included, to the index of its line;
    [charCounter] is the index of the first character of the head of
    [scriptLines]. *)
Fixpoint lineIndices_get (scriptLines : list str) (lineIdx charCounter key : nat)
  : option nat :=
  match scriptLines with
  | [] => None
  | line :: rest =>
      if key <? charCounter + (length line + 1) then Some lineIdx
      else lineIndices_get rest (S lineIdx) (charCounter + (length line + 1)) key
  end.

Definition describe_issues (scriptLines : list str) (issues : list Issue)
  : list IssueDescription :=
  map (fun issue =>
         let lineIdx := default 0 (lineIndices_get scriptLines 0 0 (index issue)) in
         mkDescription (type issue) (lineIdx + 1))
      issues.

(** The number [0.7] of the source is the binary64 value nearest to 7/10. *)
Definition threshold : float := 0x1.6666666666666p-1%float.

(** The lines that the loop over the suggested fixes writes to the
    console. *)
Inductive LogLine :=
| fixed_line                   (* "Fixed line N: ..." *)
| fixed_line_fuzzy             (* "Fixed line N: ... (fuzzy match)" *)
| could_not_apply              (* "Couldn't apply fix to line N" *)
| fixed_missing_fallback       (* "... Added missing closing parenthesis (fallback method)" *)
| fixed_extra_fallback         (* "... Removed extra closing parenthesis (fallback method)" *)
| invalid_line_number.         (* "Invalid line number in AI fix" *)

(** The regular expression [/\)([^)]*$)/]. *)
Definition last_close_paren : Regex.regex :=
  Regex.seqs [Regex.Chr (ch ")");
              Regex.Group 1 (Regex.seqs [Regex.Star true (Regex.Class true [Regex.One (ch ")")]);
                                         Regex.Eol])].

(** The body of [fixesJson.forEach(fix => ...)], on the mutable [lines] and
    [fixCount] and the console. *)
Definition apply_fix (issueDescriptions : list IssueDescription)
    (st : list str * nat * list LogLine) (fx : Patch)
  : list str * nat * list LogLine :=
  let '(lines, fixCount, log) := st in
  let lineIndex := (fix_lineNumber fx - 1)%Z in
  if (0 <=? lineIndex)%Z && (lineIndex <? Z.of_nat (length lines))%Z then
    let i := Z.to_nat lineIndex in
    let originalLine := nth i lines [] in
    if includes originalLine (fix_original fx) then
      (<[i := replace_string originalLine (fix_original fx) (fix_fixed fx)]> lines,
       fixCount + 1, log ++ [fixed_line])
    else
      let similarity := calculateStringSimilarity originalLine (fix_original fx) in
      if (threshold <? similarity)%float then
        (<[i := fix_fixed fx]> lines, fixCount + 1, log ++ [fixed_line_fuzzy])
      else
        let lineIssues :=
          List.filter (fun issue => (Z.of_nat (d_lineNumber issue) =? fix_lineNumber fx)%Z)
                 issueDescriptions in
        match lineIssues with
        | [] => (lines, fixCount, log ++ [could_not_apply])
        | issue :: _ =>
            match d_type issue with
            | missing_close =>
                (<[i := if negb (endsWith (trim originalLine) (js ";"))
                        then originalLine ++ js ")"
                        else replace_string originalLine (js ";") (js ");")]> lines,
                 fixCount + 1, log ++ [could_not_apply; fixed_missing_fallback])
            | extra_close =>
                (<[i := Regex.replace_regex Regex.no_flags last_close_paren 1
                          originalLine (js "$1")]> lines,
                 fixCount + 1, log ++ [could_not_apply; fixed_extra_fallback])
            end
        end
  else (lines, fixCount, log ++ [invalid_line_number]).

(** What [getSmartFixFromAI] gets out of the suggestion service: the
    request, the reply and [JSON.parse] are outside this file, and the
    function only tells these cases apart. *)
Inductive OracleReply :=
| request_throws
    (* the outer [try] throws: [axios.post] rejects, reading
       [response.data.choices[0].message.content] throws, or an element of
       the parsed array is not of the shape of [Patch] and applying it
       throws *)
| extraction_throws
    (* the inner [try]: no JSON found in the reply, or [JSON.parse] throws *)
| parsed_not_an_array
| parsed_array (fixes : list Patch).

(** The replies after which no suggested fix is applied. *)
Definition oracle_failed (reply : OracleReply) : bool :=
  match reply with
  | parsed_array (_ :: _) => false
  | _ => true
  end.

Section GetSmartFix.

Context {AST : Type}.
Variable acornLoose_parse : str -> option AST.

(** The reply of the suggestion service to the prompt built from [script]
    and [issues]. *)
Variable oracle : str -> list Issue -> OracleReply.

Definition apply_fixes (script : str) (issues : list Issue) (fixes : list Patch)
  : list str * nat * list LogLine :=
  let scriptLines := split_lines script in
  fold_left (apply_fix (describe_issues scriptLines issues)) fixes
            (split_lines script, 0, []).

Definition getSmartFixFromAI (script : str) (issues : list Issue) : FixResult :=
  match issues with
  | [] => mkFixResult script 0
  | _ :: _ =>
      match oracle script issues with
      | request_throws => fixUnbalanced acornLoose_parse script
      | extraction_throws => mkFixResult script 0
      | parsed_not_an_array => mkFixResult script 0
      | parsed_array [] => mkFixResult script 0
      | parsed_array fixes =>
          let '(lines, fixCount, _) := apply_fixes script issues fixes in
          mkFixResult (join_lines lines) fixCount
      end
  end.

(** The regular expression [/<script[^>]*>([\s\S]*?)<\/script>/gi]. *)
Definition scriptRegex : Regex.regex :=
  Regex.seqs [Regex.lit "<script";
              Regex.Star true (Regex.Class true [Regex.One (ch ">")]);
              Regex.Chr (ch ">");
              Regex.Group 1 (Regex.Star false (Regex.Class false [Regex.Space; Regex.NotSpace]));
              Regex.lit "</script>"].

Definition scriptRegex_flags : Regex.flags := Regex.mkFlags true false.

(** The body of the loop [for (const match of matches)] of
    [extractAndFixScripts], on [result] and [totalFixes]. *)
Definition fix_script (st : str * nat) (m : Regex.match_result) : str * nat :=
  let '(result, totalFixes) := st in
  let fullMatch := Regex.m_text m in
  let scriptContent := Regex.group 1 m in
  let issues := detectUnbalancedParentheses scriptContent in
  if 0 <? length issues then
    let smart := getSmartFixFromAI scriptContent issues in
    if 0 <? fixCount smart then
      let fixedScriptTag := replace_string fullMatch scriptContent (fixed smart) in
      (replace_string result fullMatch fixedScriptTag, totalFixes + fixCount smart)
    else
      let basicFix := fixUnbalanced acornLoose_parse scriptContent in
      if 0 <? fixCount basicFix then
        let fixedScriptTag := replace_string fullMatch scriptContent (fixed basicFix) in
        (replace_string result fullMatch fixedScriptTag, totalFixes + fixCount basicFix)
      else (result, totalFixes)
  else (result, totalFixes).

(** The loop body when only the deterministic patch is applied to the
    script of a match. *)
Definition basic_fix_script (st : str * nat) (m : Regex.match_result) : str * nat :=
  let '(result, totalFixes) := st in
  let fullMatch := Regex.m_text m in
  let scriptContent := Regex.group 1 m in
  let basicFix := fixUnbalanced acornLoose_parse scriptContent in
  if 0 <? fixCount basicFix then
    (replace_string result fullMatch
       (replace_string fullMatch scriptContent (fixed basicFix)),
     totalFixes + fixCount basicFix)
  else (result, totalFixes).

(** [extractAndFixScripts(html)]: [{ fixedHtml, totalFixes }], or [None]
    when the loop that collects the matches does not end. *)
Definition extractAndFixScripts (html : str) : option (str * nat) :=
  match Regex.exec_all scriptRegex_flags scriptRegex 1 html with
  | None => None
  | Some matches => Some (fold_left fix_script matches (html, 0))
  end.

End GetSmartFix.

End SmartFix.

(* ===================================================================== *)
(** * 4.5 Style-block inference, with the "is likely CSS" predicate of 4.6 *)
(* ===================================================================== *)

Module StyleTags.

Import Regex.

Definition ws : regex := Class false [Space].
Definition word : regex := Class false [Word].
Definition letters : list class_item := [Range (ch "a") (ch "z"); Range (ch "A") (ch "Z")].

(** [/[a-zA-Z-]+\s*:\s*[^;{}]+(;|\})/] *)
Definition hasCssProperties_re : regex :=
  seqs [Plus true (Class false (letters ++ [One (ch "-")]));
        Star true ws; Chr (ch ":"); Star true ws;
        Plus true (Class true [One (ch ";"); One (ch "{"); One (ch "}")]);
        Group 1 (Alt (Chr (ch ";")) (Chr (ch "}")))].

(** [/[a-zA-Z#.][^{]*\{[^}]*\}/] *)
Definition hasCssRules_re : regex :=
  seqs [Class false (letters ++ [One (ch "#"); One (ch ".")]);
        Star true (Class true [One (ch "{")]); Chr (ch "{");
        Star true (Class true [One (ch "}")]); Chr (ch "}")].

(** [/function |var |const |let |return |if \(|else |for \(|while \(/] *)
Definition looksLikeCode_re : regex :=
  alts (lit "function ")
       [lit "var "; lit "const "; lit "let "; lit "return "; lit "if (";
        lit "else "; lit "for ("; lit "while ("].

(** [/(margin|padding|background|color|font|width|height|position|display)/] *)
Definition hasCommonCssProps_re : regex :=
  Group 1 (alts (lit "margin")
                [lit "padding"; lit "background"; lit "color"; lit "font";
                 lit "width"; lit "height"; lit "position"; lit "display"]).

Definition isLikelyCss (text : str) : bool :=
  let hasCssProperties := test no_flags hasCssProperties_re text in
  let hasCssRules := test no_flags hasCssRules_re text in
  let looksLikeCode := test no_flags looksLikeCode_re text in
  let hasCommonCssProps := test no_flags hasCommonCssProps_re text in
  if length text <? 100 then
    hasCssProperties && hasCssRules && hasCommonCssProps && negb looksLikeCode
  else hasCssProperties && hasCssRules && negb looksLikeCode.

(** The part [\s*(\s*body\s*\{[^<]+?\}.*?(?=<\w+|$))] that the four
    expressions of [commonPatterns] share. *)
Definition body_rule : regex :=
  Seq (Star true ws)
      (Group 1
         (seqs [Star true ws; lit "body"; Star true ws; Chr (ch "{");
                Plus false (Class true [One (ch "<")]); Chr (ch "}");
                Star false Dot;
                Lookahead (Alt (Seq (Chr (ch "<")) (Plus true word)) Eol)])).

(** [commonPatterns]: the rule after [</script>], [</title>], a [<meta>] tag
    or [<head>]; all four have the flag [s]. *)
Definition after_script : regex := Seq (lit "</script>") body_rule.

Definition commonPatterns : list regex :=
  [ after_script;
    Seq (lit "</title>") body_rule;
    Seq (seqs [lit "<meta"; Star true (Class true [One (ch ">")]); Chr (ch ">")]) body_rule;
    Seq (lit "<head>") body_rule ].

Definition commonPatterns_flags : flags := mkFlags false true.

(** [/<style[^>]*>/] *)
Definition style_tag_re : regex :=
  seqs [lit "<style"; Star true (Class true [One (ch ">")]); Chr (ch ">")].

(** [/(?:^|\n|\r)(\s*(?:body|html|#[\w-]+|\.[\w-]+)[^{<>]*\{[^}]+\}(?:\s*[\w.#*:][^{<>]*\{[^}]+\})X)/],
    where [X] stands for the star that ends the last group. *)
Definition standalonePattern : regex :=
  let name := Plus true (Class false [Word; One (ch "-")]) in
  let not_brace_or_tag := Class true [One (ch "{"); One (ch "<"); One (ch ">")] in
  let block := seqs [Chr (ch "{"); Plus true (Class true [One (ch "}")]); Chr (ch "}")] in
  Seq (alts Bol [Chr 10%N; Chr 13%N])
      (Group 1
         (seqs [Star true ws;
                alts (lit "body") [lit "html"; Seq (Chr (ch "#")) name; Seq (Chr (ch ".")) name];
                Star true not_brace_or_tag; block;
                Star true
                  (seqs [Star true ws;
                         Class false [Word; One (ch "."); One (ch "#"); One (ch "*"); One (ch ":")];
                         Star true not_brace_or_tag; block])])).

(** [`<style>\n${potentialCss}\n</style>`] *)
Definition styled (potentialCss : str) : str :=
  js "<style>" ++ [LF] ++ potentialCss ++ [LF] ++ js "</style>".

(** The loop [for (const pattern of commonPatterns)] up to the test
    [isLikelyCss(potentialCss)]: the text captured by the first expression
    whose match passes the test. *)
Fixpoint find_unwrapped_css (html : str) (patterns : list regex) : option str :=
  match patterns with
  | [] => None
  | pattern :: rest =>
      match exec commonPatterns_flags pattern 1 html with
      | Some m =>
          let potentialCss := group 1 m in
          if isLikelyCss potentialCss then Some potentialCss
          else find_unwrapped_css html rest
      | None => find_unwrapped_css html rest
      end
  end.

(** The second strategy of [fixMissingStyleTags], entered with
    [fixCount === 0]. *)
Definition wrap_standalone_css (html : str) : str * nat :=
  if negb (test no_flags style_tag_re html) then
    match exec no_flags standalonePattern 1 html with
    | Some m =>
        let potentialCss := group 1 m in
        if isLikelyCss potentialCss then
          let styledCss := styled potentialCss in
          if includes html (js "</head>") then
            (replace_string html (js "</head>") (styledCss ++ [LF] ++ js "</head>"), 1)
          else if includes html (js "<body") then
            (replace_string html (js "<body") (styledCss ++ [LF] ++ js "<body"), 1)
          else (replace_string html potentialCss styledCss, 1)
        else (html, 0)
    | None => (html, 0)
    end
  else (html, 0).

(** [fixMissingStyleTags(html)]: [{ fixedHtml, fixCount }].  The function
    calls itself; [fuel] bounds the depth of the calls, and the result is
    [None] when the calls go deeper. *)
Fixpoint fixMissingStyleTags (fuel : nat) (html : str) : option (str * nat) :=
  match fuel with
  | 0 => None
  | S fuel' =>
      match find_unwrapped_css html commonPatterns with
      | Some potentialCss =>
          let fixedHtml := replace_string html potentialCss (styled potentialCss) in
          let fixCount := 0 + 1 in
          if fixCount <? 5 then
            match fixMissingStyleTags fuel' fixedHtml with
            | Some (fixedHtml', recursiveCount) =>
                Some (fixedHtml', fixCount + recursiveCount)
            | None => None
            end
          else Some (fixedHtml, fixCount)
      | None => Some (wrap_standalone_css html)
      end
  end.

(** Two documents.  In the first, six rules each follow a [</script>]. *)
Definition rule_after_script (n : string) : str :=
  js "</script>body{color:red;a" ++ js n ++ js "}<b>".

Definition six_rules : str :=
  rule_after_script "1" ++ rule_after_script "2" ++ rule_after_script "3" ++
  rule_after_script "4" ++ rule_after_script "5" ++ rule_after_script "6".

(** In the second, the rule that follows [</script>] also occurs before it;
    [nested k] is that document after [k] calls, the first occurrence [k]
    times inside [<style>] tags. *)
Definition css_rule : str := js "body{color:red;}".
Definition style_open : str := js "<style>" ++ [LF].
Definition style_close : str := [LF] ++ js "</style>".

Definition nested (k : nat) : str :=
  concat (repeat style_open k) ++ css_rule ++ concat (repeat style_close k) ++
  js "</script>" ++ css_rule.

End StyleTags.

(* ===================================================================== *)
(** * 4.3 Block-boundary inference and 4.8 not-a-function remediation *)
(* ===================================================================== *)

Module BlockFix.

(** [lines.slice(a, b)] for [0 <= a]. *)
Definition slice_lines (a b : nat) (lines : list str) : list str :=
  firstn (b - a) (skipn a lines).

(** The tokens that make a line continue on the next one. *)
Definition ends_open (line : str) : bool :=
  endsWith line (js "(") || endsWith line (js "{") || endsWith line (js ".") ||
  endsWith line (js "=>") || endsWith line (js "&&") || endsWith line (js "||") ||
  endsWith line (js "?") || endsWith line (js ":").

Definition starts_statement (prevLine : str) : bool :=
  includes prevLine (js "if ") || includes prevLine (js "for ") ||
  includes prevLine (js "while ") || includes prevLine (js "function ") ||
  includes prevLine (js " => ") || includes prevLine (js "try ") ||
  includes prevLine (js "catch ") || includes prevLine (js "else ").

(** The loop [for (let i = problematicLineIdx - 1; i >= 0; i--)] of
    [findCodeBlock], entered with [i = n - 1]; the result is [startLine].
    Reading [lines[i]] outside the array gives [undefined], and calling
    [trim] on it throws: [None]. *)
Fixpoint walk_back (lines : list str) (n : nat) (startLine : nat) : option nat :=
  match n with
  | 0 => Some startLine
  | S i =>
      match nth_error lines i with
      | None => None
      | Some l =>
          let line := trim l in
          if ends_open line then walk_back lines i i
          else if starts_statement line then walk_back lines i i
          else Some startLine
      end
  end.

(** The counters [openBrackets], [closeBrackets], [openParens],
    [closeParens]. *)
Record Counters := mkCounters { ob : nat; cb : nat; op : nat; cp : nat }.

Definition count_delimiters (text : str) : Counters :=
  mkCounters (countChar (ch "{") text) (countChar (ch "}") text)
             (countChar (ch "(") text) (countChar (ch ")") text).

Definition add_counters (a b : Counters) : Counters :=
  mkCounters (ob a + ob b) (cb a + cb b) (op a + op b) (cp a + cp b).

Definition balanced (c : Counters) : bool := (ob c =? cb c) && (op c =? cp c).

(** The loop [for (let i = problematicLineIdx + 1; i < lines.length; i++)]
    on the lines from [i] on; the result is [endLine]. *)
Fixpoint walk_forward (rest : list str) (i : nat) (c : Counters) (endLine : nat) : nat :=
  match rest with
  | [] => endLine
  | line :: rest' =>
      let c' := add_counters c (count_delimiters line) in
      if balanced c' then i else walk_forward rest' (S i) c' i
  end.

(** The loop [for (let i = problematicLineIdx; i >= 0; i--)] that looks for
    the start of a statement, entered with [i = n - 1]. *)
Fixpoint statement_start (lines : list str) (n : nat) (statementStart : nat) : option nat :=
  match n with
  | 0 => Some statementStart
  | S i =>
      match nth_error lines i with
      | None => None
      | Some l =>
          if endsWith (trim l) (js ";") || endsWith (trim l) (js "{") then Some (i + 1)
          else statement_start lines i statementStart
      end
  end.

(** The loop [for (let i = problematicLineIdx; i < lines.length; i++)] that
    looks for the end of a statement. *)
Fixpoint statement_end (rest : list str) (i : nat) (statementEnd : nat) : nat :=
  match rest with
  | [] => statementEnd
  | l :: rest' =>
      if endsWith (trim l) (js ";") || endsWith (trim l) (js "}") then i
      else statement_end rest' (S i) statementEnd
  end.

(** [findCodeBlock(lines, problematicLineIdx)]: [{ startLine, endLine }],
    or [None] when it throws. *)
Definition findCodeBlock (lines : list str) (problematicLineIdx : nat) : option (nat * nat) :=
  match walk_back lines problematicLineIdx problematicLineIdx with
  | None => None
  | Some startLine =>
      let combinedLines :=
        join_lines (slice_lines startLine (problematicLineIdx + 1) lines) in
      let c := count_delimiters combinedLines in
      let endLine :=
        if (cb c <? ob c) || (cp c <? op c) then
          walk_forward (skipn (problematicLineIdx + 1) lines) (problematicLineIdx + 1)
                       c problematicLineIdx
        else problematicLineIdx in
      if startLine =? endLine then
        match nth_error lines problematicLineIdx with
        | None => None
        | Some l =>
            let line := trim l in
            if includes line (js "(") && includes line (js ")") then
              match statement_start lines (problematicLineIdx + 1) problematicLineIdx with
              | None => None
              | Some statementStart =>
                  Some (statementStart,
                        statement_end (skipn problematicLineIdx lines)
                                      problematicLineIdx problematicLineIdx)
              end
            else Some (startLine, endLine)
        end
      else Some (startLine, endLine)
  end.

(** [{ objectName, functionName }], as the error-message classifier
    extracts them. *)
Record FunctionData := mkFunctionData { objectName : str; functionName : str }.

Definition fullName (f : FunctionData) : str :=
  objectName f ++ js "." ++ functionName f.

(** The characters of the classes [[a-zA-Z0-9_$.]] and [[a-zA-Z0-9_$]] with
    which [extractFunctionDetailsFromErrors] captures the two names. *)
Definition is_name_char (c : char) : bool :=
  Regex.is_word_char c || (c =? ch "$")%N || (c =? ch ".")%N.

(** An element of [problemLines]; its other fields are not read here. *)
Record ProblemLine := mkProblemLine { lineNumber : nat }.

(** An element of [contextBlocks]; the fields [context] and [originalLine]
    only go into the prompt. *)
Record ContextBlock := mkContextBlock {
  block_lineNumber : nat;
  blockStartLine : nat;
  blockEndLine : nat;
  blockContent : str
}.

(** The value of [startLine] or of [endLine] in a fix object.  The fixes that
    [getTargetedFunctionFixes] builds itself carry line numbers.  A fix read
    from the reply of the suggestion service carries whatever JSON value the
    reply holds there (a negative or fractional number, a string, [null]);
    the code that applies the fix tests the value for truthiness and
    otherwise uses it in comparisons and subtractions only, that is through
    the number that it converts to. *)
Inductive LineField :=
| line_no (n : nat)
| json_value (truthy : bool) (number : float).

(** [{ startLine, endLine, replacement }] *)
Record BlockFix := mkBlockFix {
  startLine : LineField;
  endLine : LineField;
  replacement : str
}.

(** The loop [for (const line of problemLines)].  A line number 0 makes
    [findCodeBlock(scriptLines, -1)] read [lines[-1]], which throws. *)
Fixpoint build_contextBlocks (scriptLines : list str) (problemLines : list ProblemLine)
  : option (list ContextBlock) :=
  match problemLines with
  | [] => Some []
  | line :: rest =>
      match lineNumber line with
      | 0 => None
      | S idx =>
          match findCodeBlock scriptLines idx with
          | None => None
          | Some (blockStart, blockEnd) =>
              match build_contextBlocks scriptLines rest with
              | None => None
              | Some blocks =>
                  Some (mkContextBlock (lineNumber line) (blockStart + 1) (blockEnd + 1)
                          (join_lines (slice_lines blockStart (blockEnd + 1) scriptLines))
                        :: blocks)
              end
          end
      end
  end.

Definition error_header : str :=
  js "// ERROR: Block commented out due to missing function ".

(** The fallback that comments out every line of every block, written three
    times in [getTargetedFunctionFixes]. *)
Definition manual_fixes (name : str) (contextBlocks : list ContextBlock) : list BlockFix :=
  map (fun block =>
         let blockLines := split_lines (blockContent block) in
         let commentedLines := map (fun line => js "// " ++ line) blockLines in
         let replacementBlock :=
           error_header ++ name ++ [LF] ++ join_lines commentedLines in
         mkBlockFix (line_no (blockStartLine block)) (line_no (blockEndLine block))
                    replacementBlock)
      contextBlocks.

(** The safety check: [lines.every(line => line.trim().startsWith('//'))]. *)
Definition all_commented (fx : BlockFix) : bool :=
  forallb (fun line => startsWith (trim line) (js "//")) (split_lines (replacement fx)).

(** What [getTargetedFunctionFixes] gets out of the suggestion service. *)
Inductive BlockReply :=
| block_request_throws
    (* [axios.post] rejects, or reading the content of the response throws *)
| block_no_json
    (* neither expression finds JSON in the reply *)
| block_parse_throws
    (* [JSON.parse] throws *)
| block_parsed_unusable
    (* the parsed value is not an array of objects with a string
       [replacement]: [filter] or [split] throws *)
| block_parsed (fixes : list BlockFix).

Section GetTargetedFunctionFixes.

(** The reply of the suggestion service to the prompt built from the three
    arguments. *)
Variable oracle : str -> FunctionData -> list ProblemLine -> BlockReply.

(** [getTargetedFunctionFixes(scriptContent, functionData, problemLines)],
    or [None] when building the context blocks throws. *)
Definition getTargetedFunctionFixes (scriptContent : str) (functionData : FunctionData)
    (problemLines : list ProblemLine) : option (list BlockFix) :=
  let scriptLines := split_lines scriptContent in
  match build_contextBlocks scriptLines problemLines with
  | None => None
  | Some contextBlocks =>
      let manual := manual_fixes (fullName functionData) contextBlocks in
      match oracle scriptContent functionData problemLines with
      | block_request_throws => Some manual
      | block_parsed_unusable => Some manual
      | block_no_json => Some (List.filter all_commented manual)
      | block_parse_throws => Some (List.filter all_commented manual)
      | block_parsed fixes => Some (List.filter all_commented fixes)
      end
  end.

End GetTargetedFunctionFixes.

(** The replies after which the fixes are the mechanical ones. *)
Definition mechanical (reply : BlockReply) : bool :=
  match reply with
  | block_parsed _ => false
  | _ => true
  end.

Definition delimiters : list char := [ch "{"; ch "}"; ch "("; ch ")"].

End BlockFix.

(* ===================================================================== *)
(** * The pipeline orchestrator and its files *)
(* ===================================================================== *)

Module Orchestrator.

Import Delimiter SmartFix.

(** The file system: the content of each regular file, by its location, the
    absolute path without empty, [.] or [..] segments that [path.resolve]
    gives for a path of the file.  The system is POSIX, its names are case
    sensitive, and it has no symbolic or hard links: two paths name the same
    file exactly when they resolve to the same location.  A location holds a
    regular file or nothing. *)
Abbreviation FS := (gmap str str).

(** A computation on the file system that returns a value, or does not
    return ([None]): an exception escapes, or a loop or recursion does not
    end. *)
Definition M (A : Type) : Type := FS -> FS * option A.

Definition ret {A} (a : A) : M A := fun fs => (fs, Some a).

Definition bind {A B} (m : M A) (f : A -> M B) : M B :=
  fun fs =>
    match m fs with
    | (fs1, Some a) => f a fs1
    | (fs1, None) => (fs1, None)
    end.

Notation "'let!' x ':=' m 'in' k" := (bind m (fun x => k))
  (at level 10, x name, m at level 100, k at level 200, only parsing).
Notation "'let!' ' pat ':=' m 'in' k" := (bind m (fun x => let 'pat := x in k))
  (at level 10, pat pattern, m at level 100, k at level 200, only parsing).

(** A value that may fail to come. *)
Definition lift {A} (o : option A) : M A := fun fs => (fs, o).

(** ** Paths *)

Definition slash : char := ch "/".

(** [path.split('/')]; the result is never empty. *)
Fixpoint segments (path : str) : list str :=
  match path with
  | [] => [[]]
  | c :: t =>
      if (c =? slash)%N then [] :: segments t
      else match segments t with
           | [] => [[c]]
           | seg :: rest => (c :: seg) :: rest
           end
  end.

(** A segment that names an entry of a directory: not the empty segment
    that a doubled, leading or trailing slash leaves, nor [.] nor [..]. *)
Definition is_name (seg : str) : bool :=
  negb (bool_decide (seg = [])) && negb (bool_decide (seg = js ".")) &&
  negb (bool_decide (seg = js "..")).

(** One step from the directory [dir], given by the names that lead to it
    from the root.  [..] leads to the directory above, and stays at the
    root. *)
Definition enter (dir : list str) (seg : str) : list str :=
  if is_name seg then dir ++ [seg]
  else if bool_decide (seg = js "..") then removelast dir
  else dir.

Definition location (names : list str) : str := js "/" ++ join (js "/") names.

(** A relative path is taken from the working directory. *)
Definition absolute (cwd path : str) : str :=
  if startsWith path (js "/") then path else cwd ++ js "/" ++ path.

(** [path.resolve(cwd, path)] for the absolute path [cwd] of the working
    directory, which is where a process opens [path].  The steps are taken
    on the text of the path, as [path.resolve] takes them; the system takes
    them through the directories, and comes to the same where the path has
    no [..] segment or every directory on the way exists. *)
Definition resolve (cwd path : str) : str :=
  location (fold_left enter (segments (absolute cwd path)) []).

(** The last segment of a path, and the directory that the segments before
    it lead to. *)
Definition base_name (path : str) : str := List.last (segments path) [].

Definition directory (cwd path : str) : list str :=
  fold_left enter (removelast (segments (absolute cwd path))) [].

(** A path that can name a regular file: its last segment is a name.  A
    path that ends in a slash or in [.] or [..] names a directory or
    nothing, and reading or writing it as a file throws. *)
Definition names_file (path : str) : bool := is_name (base_name path).

(** [fs.readFileSync(path, 'utf8')] throws when there is no such file. *)
Definition readFileSync (cwd path : str) : M str :=
  fun fs => (fs, if names_file path then fs !! resolve cwd path else None).

(** [fs.writeFileSync(path, data)] *)
Definition writeFileSync (cwd path data : str) : M unit :=
  fun fs =>
    if names_file path then (<[resolve cwd path := data]> fs, Some tt)
    else (fs, None).

(** [try { fs.unlinkSync(path) } catch (e) {}] *)
Definition unlinkSync_quiet (cwd path : str) : M unit :=
  fun fs =>
    if names_file path then (delete (resolve cwd path) fs, Some tt)
    else (fs, Some tt).

(** [path.join(process.cwd(), name)] for a plain file name. *)
Definition path_join (cwd name : str) : str :=
  if endsWith cwd (js "/") then cwd ++ name else cwd ++ js "/" ++ name.

(** The regular expression [/new THREE\.ShaderMaterial\(/i]. *)
Definition containsShaderMaterial (html : str) : bool :=
  Regex.test (Regex.mkFlags true false) (Regex.lit "new THREE.ShaderMaterial(") html.

(** [extractScripts(html).length === 0]: no script block with something
    other than white space in it. *)
Definition no_scripts (html : str) : option bool :=
  match Regex.exec_all scriptRegex_flags scriptRegex 1 html with
  | None => None
  | Some matches =>
      Some (forallb (fun m => match trim (Regex.group 1 m) with [] => true | _ => false end)
                    matches)
  end.

Section ProcessHtmlFile.

(** [process.cwd()], the absolute path of the working directory. *)
Variable cwd : str.

(** What the passes find and the services answer is outside this file: the
    text and the count that each pass returns for a document are
    parameters.  (Each of these passes catches what its page or its
    service throws, and is taken to return.) *)
Variable fixMalformedHtmlTags : str -> str * nat.
Variable cdn_fixes : str -> str * nat.
Variable not_a_function_fixes : str -> str * nat.
Variable fixCssStyles : str -> str * nat.
Variable undefined_variable_fixes : str -> str * nat.
Variable shader_fixes : str -> str * nat.

(** The depth available to the recursion of [fixMissingStyleTags]. *)
Variable depth : nat.

Context {AST : Type}.
Variable acornLoose_parse : str -> option AST.
Variable oracle : str -> list Issue -> OracleReply.

(** A pass that loads the document in a page: it writes the document to a
    temporary file, and removes the file when it is done. *)
Definition in_page (name : string) (html : str) (result : str * nat) : M (str * nat) :=
  let! _ := writeFileSync cwd (path_join cwd (js name)) html in
  let! _ := unlinkSync_quiet cwd (path_join cwd (js name)) in
  ret result.

Definition fixCdnImports (html : str) : M (str * nat) :=
  in_page "_temp_cdn_check.html" html (cdn_fixes html).

Definition fixNotAFunctionErrors (html : str) : M (str * nat) :=
  in_page "_temp_function_check.html" html (not_a_function_fixes html).

(** [fixUndefinedVariables] returns at once when the document has no
    script. *)
Definition fixUndefinedVariables (html : str) : M (str * nat) :=
  let! none := lift (no_scripts html) in
  if (none : bool) then ret (html, 0)
  else in_page "_temp_undefined_check.html" html (undefined_variable_fixes html).

Definition fixShaderMaterialErrors (html : str) : M (str * nat) :=
  in_page "_temp_shader_check.html" html (shader_fixes html).

(** The passes of [processHtmlFile], in order, on [currentHtml] and
    [totalFixes]; the result is their final values. *)
Definition run_passes (filePath original : str) : M (str * nat) :=
  let '(currentHtml, totalFixes) := fixMalformedHtmlTags original in
  let! '(currentHtml, n) := lift (StyleTags.fixMissingStyleTags depth currentHtml) in
  let totalFixes := totalFixes + n in
  let! '(currentHtml, n) := fixCdnImports currentHtml in
  let totalFixes := totalFixes + n in
  let! '(currentHtml, n) := fixNotAFunctionErrors currentHtml in
  let totalFixes := totalFixes + n in
  let '(currentHtml, n) := fixCssStyles currentHtml in
  let totalFixes := totalFixes + n in
  let! '(currentHtml, n) := fixUndefinedVariables currentHtml in
  let totalFixes := totalFixes + n in
  let! '(currentHtml, n) := lift (extractAndFixScripts acornLoose_parse oracle currentHtml) in
  let totalFixes := totalFixes + n in
  if containsShaderMaterial currentHtml then
    let! '(currentHtml, n) := fixShaderMaterialErrors currentHtml in
    let totalFixes := totalFixes + n in
    if (0 <? n) && (0 <? totalFixes) then
      let! _ := writeFileSync cwd filePath currentHtml in
      ret (currentHtml, totalFixes)
    else ret (currentHtml, totalFixes)
  else ret (currentHtml, totalFixes).

(** [processHtmlFile(filePath)]: the file system afterwards, and
    [totalFixes]. *)
Definition processHtmlFile (filePath : str) : M nat :=
  let! original := readFileSync cwd filePath in
  let backupPath := filePath ++ js ".backup" in
  let! _ := writeFileSync cwd backupPath original in
  let! '(currentHtml, totalFixes) := run_passes filePath original in
  if 0 <? totalFixes then
    let! _ := writeFileSync cwd filePath currentHtml in
    ret totalFixes
  else ret totalFixes.

(** Where the temporary file of a pass lies. *)
Definition temp_file (name : string) : str := resolve cwd (path_join cwd (js name)).

(** The locations of the temporary files of the passes. *)
Definition temp_files : list str :=
  map temp_file
      ["_temp_cdn_check.html"; "_temp_function_check.html";
       "_temp_undefined_check.html"; "_temp_shader_check.html"]%string.

End ProcessHtmlFile.

(** A pass that finds nothing to fix. *)
Definition no_fix (html : str) : str * nat := (html, 0).

(** The run on a page in which the passes find nothing, with a service that
    answers in prose. *)
Definition quiet_run (cwd filePath : str) : M nat :=
  processHtmlFile cwd no_fix no_fix no_fix no_fix no_fix no_fix 1
                  parse_never_throws (fun _ _ => extraction_throws) filePath.

(** [m] leaves what is at the location [file] as it is. *)
Definition keeps {A} (file : str) (m : M A) : Prop :=
  forall fs : FS, fst (m fs) !! file = fs !! file.

(** [m] leaves what is at the location [file] as it is, unless [file] is
    the location [repaired_file] of the file under repair, [m] returns a
    document with a tally above zero, and the file then holds that
    document. *)
Definition keeps_or_repairs (file repaired_file : str) (m : M (str * nat)) : Prop :=
  forall fs : FS,
    fst (m fs) !! file = fs !! file \/
    (file = repaired_file /\
     exists repaired totalFixes,
       snd (m fs) = Some (repaired, totalFixes) /\ 0 < totalFixes /\
       fst (m fs) !! file = Some repaired).

End Orchestrator.

(* ===================================================================== *)
(** * What the delimiter detector and patcher compute, said without stack
      and offset *)
(* ===================================================================== *)

Module DelimiterSpec.

Import Delimiter.

(** Parentheses are well nested when a counter of the open ones never goes
    below zero and ends at zero. *)
Fixpoint well_nested (depth : nat) (s : str) : bool :=
  match s with
  | [] => depth =? 0
  | c :: t =>
      if (c =? lparen)%N then well_nested (S depth) t
      else if (c =? rparen)%N then
        match depth with
        | 0 => false
        | S d => well_nested d t
        end
      else well_nested depth t
  end.

(** The type of the issue reported at index [i], if any. *)
Definition issue_at (issues : list Issue) (i : nat) : option IssueType :=
  option_map type (find (fun x => index x =? i) issues).

(** The patch in one pass over the text, [i] being the index of the head of
    [s]: the character of an extra-close issue becomes the marker comment,
    the character of a missing-close issue is followed by a [')'], every
    other character stays. *)
Fixpoint patched (issues : list Issue) (s : str) (i : nat) : str :=
  match s with
  | [] => []
  | c :: t =>
      match issue_at issues i with
      | Some extra_close => removed_marker
      | Some missing_close => [c; rparen]
      | None => [c]
      end ++ patched issues t (S i)
  end.

Definition count_type (t : IssueType) (issues : list Issue) : nat :=
  length (List.filter (fun x => match type x, t with
                                | missing_close, missing_close => true
                                | extra_close, extra_close => true
                                | _, _ => false
                                end) issues).

(** The character an issue of each type is about. *)
Definition delimiter_of (t : IssueType) : char :=
  match t with
  | missing_close => lparen
  | extra_close => rparen
  end.

End DelimiterSpec.

(* ===================================================================== *)
(** * Entity-encoded tags: [fixMalformedHtmlTags] *)
(* ===================================================================== *)

Module HtmlTags.

Import Regex.

Definition dquote : char := 34%N.

(** The regular expression [/&lt;\s*(?:script)?\s*src=Q([^Q]+)Q(?:\s*&gt;)?/gi],
    where [Q] stands for the double quote. *)
Definition malformedScriptPattern : regex :=
  seqs [lit "&lt;"; Star true (Class false [Space]); Opt true (lit "script");
        Star true (Class false [Space]); lit "src="; Chr dquote;
        Group 1 (Plus true (Class true [One dquote])); Chr dquote;
        Opt true (Seq (Star true (Class false [Space])) (lit "&gt;"))].

(** The regular expression [/&lt;\s*&gt;\s*([^<]+)(?:<\/title>)?/gi]. *)
Definition malformedTitlePattern : regex :=
  seqs [lit "&lt;"; Star true (Class false [Space]); lit "&gt;";
        Star true (Class false [Space]);
        Group 1 (Plus true (Class true [One (ch "<")]));
        Opt true (lit "</title>")].

(** The regular expression [/&lt;([a-zA-Z]+)([^&]X)&gt;/g], where [X] stands
    for the star that ends the second group. *)
Definition entityTagPattern : regex :=
  seqs [lit "&lt;";
        Group 1 (Plus true (Class false [Range (ch "a") (ch "z"); Range (ch "A") (ch "Z")]));
        Group 2 (Star true (Class true [One (ch "&")]));
        lit "&gt;"].

Definition ignore_case : flags := mkFlags true false.

Definition criticalTags : list str :=
  [js "script"; js "/script"; js "title"; js "/title"; js "style"; js "/style";
   js "link"; js "meta"].

(** [criticalTags.includes(tagName)] *)
Definition is_critical (tagName : str) : bool :=
  existsb (fun t => bool_decide (t = tagName)) criticalTags.

(** The bodies of the three [while] loops, on [fixedHtml] and [fixCount]. *)
Definition fix_script_tag (st : str * nat) (m : match_result) : str * nat :=
  let '(fixedHtml, fixCount) := st in
  let fullMatch := m_text m in
  let srcUrl := group 1 m in
  let correctTag := js "<script src=" ++ [dquote] ++ srcUrl ++ [dquote] ++ js "></script>" in
  (replace_string fixedHtml fullMatch correctTag, fixCount + 1).

Definition fix_title_tag (st : str * nat) (m : match_result) : str * nat :=
  let '(fixedHtml, fixCount) := st in
  let fullMatch := m_text m in
  let titleContent := group 1 m in
  let correctTag := js "<title>" ++ titleContent ++ js "</title>" in
  (replace_string fixedHtml fullMatch correctTag, fixCount + 1).

Definition fix_entity_tag (st : str * nat) (m : match_result) : str * nat :=
  let '(fixedHtml, fixCount) := st in
  let fullMatch := m_text m in
  let tagName := group 1 m in
  let attributes := group 2 m in
  if is_critical tagName then
    let correctTag := js "<" ++ tagName ++ attributes ++ js ">" in
    (replace_string fixedHtml fullMatch correctTag, fixCount + 1)
  else (fixedHtml, fixCount).

(** [fixMalformedHtmlTags(html)]: [{ fixedHtml, fixCount }]; every loop
    searches [html], the document as it came in.  The result is [None] when
    one of the loops does not end. *)
Definition fixMalformedHtmlTags (html : str) : option (str * nat) :=
  match exec_all ignore_case malformedScriptPattern 1 html with
  | None => None
  | Some scripts =>
      let st1 := fold_left fix_script_tag scripts (html, 0) in
      match exec_all ignore_case malformedTitlePattern 1 html with
      | None => None
      | Some titles =>
          let st2 := fold_left fix_title_tag titles st1 in
          match exec_all no_flags entityTagPattern 2 html with
          | None => None
          | Some tags => Some (fold_left fix_entity_tag tags st2)
          end
      end
  end.

End HtmlTags.

(* ===================================================================== *)
(** * Characters that an expression cannot match without *)
(* ===================================================================== *)

Module RegexNeeds.

Import Regex.

(** [needs c r]: read off the expression, every text that [r] matches holds
    the literal character [c]. *)
Fixpoint needs (c : char) (r : regex) : bool :=
  match r with
  | Chr a => (a =? c)%N
  | Seq r1 r2 => needs c r1 || needs c r2
  | Alt r1 r2 => needs c r1 && needs c r2
  | Plus _ r1 => needs c r1
  | Group _ r1 => needs c r1
  | _ => false
  end.

(** Not an ASCII letter: a character that the [i] flag identifies with no
    other. *)
Definition not_letter (c : char) : bool :=
  negb ((65 <=? c) && (c <=? 90) || (97 <=? c) && (c <=? 122))%N.

End RegexNeeds.

(* ===================================================================== *)
(** * Applying the block fixes: the patch loop of [fixNotAFunctionErrors] *)
(* ===================================================================== *)

Module FunctionPatch.

Import Regex BlockFix.

(** The regular expression [/^\s*/]. *)
Definition leading_space : regex := Seq Bol (Star true (Class false [Space])).

(** [lines.splice(start, deleteCount, ...items)] for an index [start] of
    the array and [0 <= deleteCount]; what [deleteCount] goes beyond the end
    of the array is not there to be removed, as with [skipn]. *)
Definition splice (start deleteCount : nat) (items lines : list str) : list str :=
  firstn start lines ++ items ++ skipn (start + deleteCount) lines.

(** The fields of a fix as the loop reads them: [if (fix.startLine)],
    [fix.startLine <= scriptLines.length], and the number in
    [fix.startLine - 1]. *)
Definition truthy (f : LineField) : bool :=
  match f with
  | line_no n => negb (n =? 0)
  | json_value t _ => t
  end.

Definition at_most (f : LineField) (len : nat) : bool :=
  match f with
  | line_no n => n <=? len
  | json_value _ x => (x <=? Similarity.number_of_nat len)%float
  end.

Definition number (f : LineField) : float :=
  match f with
  | line_no n => Similarity.number_of_nat n
  | json_value _ x => x
  end.

(** The natural number that a float is, if it is one: the key [x] of
    [array[x]] names an element only then. *)
Definition as_index (x : float) : option nat :=
  match Prim2SF x with
  | S754_zero _ => Some 0
  | S754_finite false m e =>
      if (0 <=? e)%Z then Some (Z.to_nat (Z.pos m * 2 ^ e))
      else if (Z.pos m mod 2 ^ (- e) =? 0)%Z then Some (Z.to_nat (Z.pos m / 2 ^ (- e)))
      else None
  | _ => None
  end.

(** The index in [scriptLines[fix.startLine - 1]]; [None] when the
    expression reads [undefined]. *)
Definition index_before (f : LineField) : option nat :=
  match f with
  | line_no n => if n =? 0 then None else Some (n - 1)
  | json_value _ x => as_index (x - 1)
  end.

(** What [splice] makes of its second argument: the number truncated to an
    integer (not-a-number counts as zero) and brought between zero and
    [room], the number of elements from [start] on. *)
Definition clamp_count (x : float) (room : nat) : nat :=
  match Prim2SF x with
  | S754_infinity false => room
  | S754_finite false m e =>
      Z.to_nat (Z.min (Z.of_nat room)
                      (if (0 <=? e)%Z then Z.pos m * 2 ^ e else Z.pos m / 2 ^ (- e)))
  | _ => 0
  end.

(** The second argument [fix.endLine - fix.startLine + 1] of [splice].
    Between line numbers the subtraction of natural numbers gives zero
    where the difference is negative. *)
Definition deleteCount (s e : LineField) (room : nat) : nat :=
  match s, e with
  | line_no a, line_no b => b + 1 - a
  | _, _ => clamp_count (number e - number s + 1)%float room
  end.

(** The body of [for (const fix of fixes)] on the array [scriptLines];
    [None] when it throws, which it does when
    [scriptLines[fix.startLine - 1]] is [undefined].  The three fields are
    tested for truthiness; the replacement is a string, truthy when it is
    not empty. *)
Definition apply_block_fix (scriptLines : list str) (fx : BlockFix) : option (list str) :=
  if truthy (startLine fx) && truthy (endLine fx) &&
     negb (length (replacement fx) =? 0) then
    if at_most (startLine fx) (length scriptLines) &&
       at_most (endLine fx) (length scriptLines) then
      match index_before (startLine fx) with
      | None => None
      | Some start =>
          match nth_error scriptLines start with
          | None => None
          | Some first =>
              match exec no_flags leading_space 0 first with
              | None => None
              | Some m =>
                  let indentation := m_text m in
                  let replacementLines :=
                    map (fun line => indentation ++ line)
                        (split_lines (replacement fx)) in
                  Some (splice start
                          (deleteCount (startLine fx) (endLine fx)
                                       (length scriptLines - start))
                          replacementLines scriptLines)
              end
          end
      end
    else Some scriptLines
  else Some scriptLines.

(** The lines that the [splice] of [apply_block_fix] takes out of the array
    [scriptLines], the array as it is when the fix is applied; none when the
    fix is passed over. *)
Definition removed_lines (scriptLines : list str) (fx : BlockFix) : list str :=
  if truthy (startLine fx) && truthy (endLine fx) &&
     negb (length (replacement fx) =? 0) then
    if at_most (startLine fx) (length scriptLines) &&
       at_most (endLine fx) (length scriptLines) then
      match index_before (startLine fx) with
      | None => []
      | Some start =>
          firstn (deleteCount (startLine fx) (endLine fx) (length scriptLines - start))
                 (skipn start scriptLines)
      end
    else []
  else [].


Fixpoint apply_block_fixes (scriptLines : list str) (fixes : list BlockFix)
  : option (list str) :=
  match fixes with
  | [] => Some scriptLines
  | fx :: rest =>
      match apply_block_fix scriptLines fx with
      | None => None
      | Some scriptLines' => apply_block_fixes scriptLines' rest
      end
  end.

(** [patchedScript], from [scriptContent.split('\n')] to
    [scriptLines.join('\n')]. *)
Definition patch_script (scriptContent : str) (fixes : list BlockFix) : option str :=
  option_map join_lines (apply_block_fixes (split_lines scriptContent) fixes).

(** The white space that a line starts with. *)
Fixpoint leading_white (l : str) : str :=
  match l with
  | [] => []
  | c :: t => if is_white_space c then c :: leading_white t else []
  end.

End FunctionPatch.

(* ===================================================================== *)
(** * The error-message classifier: [extractFunctionDetailsFromErrors] *)
(* ===================================================================== *)

Module Classifier.

Import Regex BlockFix.

(** The classes [[a-zA-Z0-9_$]] and [[a-zA-Z0-9_$.]]. *)
Definition name_class : list class_item :=
  [Range (ch "a") (ch "z"); Range (ch "A") (ch "Z"); Range (ch "0") (ch "9");
   One (ch "_"); One (ch "$")].

Definition dotted_class : list class_item := name_class ++ [One (ch ".")].

(** The regular expression
    [/(?:TypeError: )?([a-zA-Z0-9_$.]+)(?:\.([a-zA-Z0-9_$]+))? is not a function/i]. *)
Definition stdPattern : regex :=
  seqs [Opt true (lit "TypeError: ");
        Group 1 (Plus true (Class false dotted_class));
        Opt true (Seq (Chr (ch ".")) (Group 2 (Plus true (Class false name_class))));
        lit " is not a function"].

(** The regular expression
    [/(?:SES_UNCAUGHT_EXCEPTION: )?TypeError: ([a-zA-Z0-9_$.]+)\.([a-zA-Z0-9_$]+) is not a function/i]. *)
Definition stackPattern : regex :=
  seqs [Opt true (lit "SES_UNCAUGHT_EXCEPTION: "); lit "TypeError: ";
        Group 1 (Plus true (Class false dotted_class)); Chr (ch ".");
        Group 2 (Plus true (Class false name_class));
        lit " is not a function"].

(** The regular expression
    [/([a-zA-Z0-9_$.]+)\.([a-zA-Z0-9_$]+)(?:\(\))? is not (?:a )?function/gi]. *)
Definition genericPattern : regex :=
  seqs [Group 1 (Plus true (Class false dotted_class)); Chr (ch ".");
        Group 2 (Plus true (Class false name_class));
        Opt true (lit "()"); lit " is not "; Opt true (lit "a "); lit "function"].

Definition ignore_case : flags := mkFlags true false.

(** [match[n]] as a condition: a group that took part and is not empty. *)
Definition truthy_group (n : nat) (m : match_result) : bool :=
  match nth_error (m_groups m) (n - 1) with
  | Some (Some (_ :: _)) => true
  | _ => false
  end.

Definition record_of (m : match_result) : FunctionData :=
  mkFunctionData (group 1 m) (group 2 m).

(** The array [matches] built for one error message; [None] when the loop
    over the matches of [genericPattern] does not end. *)
Definition matches_of (message : str) : option (list FunctionData) :=
  let std :=
    match exec ignore_case stdPattern 2 message with
    | Some stdMatch =>
        if truthy_group 2 stdMatch then [record_of stdMatch]
        else [mkFunctionData (js "window") (group 1 stdMatch)]
    | None => []
    end in
  let stack :=
    match exec ignore_case stackPattern 2 message with
    | Some stackMatch => [record_of stackMatch]
    | None => []
    end in
  match exec_all ignore_case genericPattern 2 message with
  | None => None
  | Some generic => Some (std ++ stack ++ map record_of generic)
  end.

(** The loop [for (const match of matches)] on [seen] and [functionData]. *)
Definition add_unique (st : gset str * list FunctionData) (m : FunctionData)
  : gset str * list FunctionData :=
  let '(seen, functionData) := st in
  let key := fullName m in
  if bool_decide (key ∈ seen) then (seen, functionData)
  else ({[ key ]} ∪ seen, functionData ++ [m]).

(** The loop [for (const error of errorDetails)], on the messages of the
    errors. *)
Fixpoint classify (messages : list str) (st : gset str * list FunctionData)
  : option (gset str * list FunctionData) :=
  match messages with
  | [] => Some st
  | message :: rest =>
      match matches_of message with
      | None => None
      | Some matches => classify rest (fold_left add_unique matches st)
      end
  end.

(** [extractFunctionDetailsFromErrors(errorDetails)] *)
Definition extractFunctionDetailsFromErrors (messages : list str)
  : option (list FunctionData) :=
  option_map snd (classify messages (∅, [])).

(** Both names are made of the characters that the not-a-function
    remediation takes a name to be made of. *)
Definition names_ok (f : FunctionData) : Prop :=
  Forall (fun c => is_name_char c = true) (objectName f) /\
  Forall (fun c => is_name_char c = true) (functionName f).

End Classifier.

(* ===================================================================== *)
(** * What an expression reads and captures *)
(* ===================================================================== *)

Module RegexReads.

Import Regex.

(** [reads fl p r]: read off the expression, every character that [r]
    consumes under the flags [fl] satisfies [p]. *)
Fixpoint reads (fl : flags) (p : char -> bool) (r : regex) : Prop :=
  match r with
  | Empty | Bol | Eol | Lookahead _ => True
  | Chr c => forall x, (canonicalize fl c =? canonicalize fl x)%N = true -> p x = true
  | Class negated items =>
      forall x, xorb negated (class_mem fl items x) = true -> p x = true
  | Dot => forall x, dotAll fl || negb (is_line_terminator x) = true -> p x = true
  | Seq r1 r2 | Alt r1 r2 => reads fl p r1 /\ reads fl p r2
  | Star _ r1 | Plus _ r1 | Opt _ r1 | Group _ r1 => reads fl p r1
  end.

(** Every capturing group of [r] encloses an expression that reads only
    characters satisfying [p]. *)
Fixpoint groups_read (fl : flags) (p : char -> bool) (r : regex) : Prop :=
  match r with
  | Seq r1 r2 | Alt r1 r2 => groups_read fl p r1 /\ groups_read fl p r2
  | Star _ r1 | Plus _ r1 | Opt _ r1 | Lookahead r1 => groups_read fl p r1
  | Group _ r1 => reads fl p r1 /\ groups_read fl p r1
  | _ => True
  end.

(** Every capture that is set holds only characters satisfying [p]. *)
Definition captures_ok (p : char -> bool) (cs : list (option str)) : Prop :=
  forall i text, nth_error cs i = Some (Some text) -> Forall (fun c => p c = true) text.

(** A matcher that moves forward, keeps the captures within [p], and reads
    only characters satisfying [p] when [R] holds. *)
Definition moves_well (p : char -> bool) (R : Prop)
    (m : mstate -> (mstate -> option mstate) -> option mstate) : Prop :=
  forall st k res,
    m st k = Some res -> captures_ok p (captures st) ->
    exists n st1,
      advances (endIndex st) (remaining st) n st1 /\ k st1 = Some res /\
      captures_ok p (captures st1) /\
      (R -> Forall (fun c => p c = true) (firstn n (remaining st))).

End RegexReads.

(** Side conditions of the file-system lemmas: two paths differ. *)
Ltac other_file := solve [assumption | apply not_eq_sym; assumption].

(* ===================================================================== *)
(** * Properties of the regular expression matcher *)
(* ===================================================================== *)

Import Regex.

Lemma advances_refl (st : mstate) :
  advances (endIndex st) (remaining st) 0 st.
Proof. unfold advances. simpl. split; [lia | split; [lia | reflexivity]]. Qed.

Lemma advances_trans (e : nat) (rest : str) (n1 n2 : nat) (st1 st2 : mstate) :
  advances e rest n1 st1 ->
  advances (endIndex st1) (remaining st1) n2 st2 ->
  advances e rest (n1 + n2) st2.
Proof.
  unfold advances. intros (Hn1 & He1 & Hr1) (Hn2 & He2 & Hr2).
  rewrite Hr1 in Hn2, Hr2. rewrite length_skipn in Hn2.
  split; [lia | split; [lia|]].
  rewrite Hr2, skipn_skipn. f_equal. lia.
Qed.

Lemma repeat_matcher_forward m1 greedy :
  moves_forward m1 ->
  forall k fuel st res,
    repeat_matcher m1 greedy k fuel st = Some res ->
    exists n st1, advances (endIndex st) (remaining st) n st1 /\ k st1 = Some res.
Proof.
  intros Hm1 k fuel. induction fuel as [|fuel IH]; intros st res H.
  - exists 0, st. split; [apply advances_refl | exact H].
  - assert (Hiter : forall res',
      m1 st (fun st1 => if endIndex st1 =? endIndex st then None
                        else repeat_matcher m1 greedy k fuel st1) = Some res' ->
      exists n st1, advances (endIndex st) (remaining st) n st1 /\ k st1 = Some res').
    { intros res' Hi. apply Hm1 in Hi. destruct Hi as (n1 & st1 & A1 & Hi).
      destruct (endIndex st1 =? endIndex st); [discriminate|].
      apply IH in Hi. destruct Hi as (n2 & st2 & A2 & Hk).
      exists (n1 + n2), st2. split; [eapply advances_trans; eassumption | exact Hk]. }
    simpl in H. unfold or_else in H. destruct greedy.
    + destruct (m1 st _) eqn:E.
      * injection H as <-. apply Hiter. reflexivity.
      * exists 0, st. split; [apply advances_refl | exact H].
    + destruct (k st) eqn:E.
      * injection H as <-. exists 0, st. split; [apply advances_refl | exact E].
      * apply Hiter. exact H.
Qed.

Lemma step_char_forward (p : char -> bool) :
  forall st k res,
    step_char st p k = Some res ->
    exists st1, advances (endIndex st) (remaining st) 1 st1 /\ k st1 = Some res.
Proof.
  intros st k res H. unfold step_char in H.
  destruct (remaining st) as [|x t] eqn:E; [discriminate|].
  destruct (p x); [|discriminate].
  exists (mkState (S (endIndex st)) t (captures st)). split; [|exact H].
  unfold advances. simpl. split; [lia | split; [lia | reflexivity]].
Qed.

Lemma matcher_forward (fl : flags) (start : nat) (r : regex) :
  moves_forward (matcher fl start r).
Proof.
  induction r as [ |c|negated items| |r1 IH1 r2 IH2|r1 IH1 r2 IH2|greedy r1 IH1
                 |greedy r1 IH1|greedy r1 IH1|g r1 IH1|r1 IH1| | ];
    intros st k res H; cbn [matcher] in H.
  - exists 0, st. split; [apply advances_refl | exact H].
  - apply step_char_forward in H. destruct H as (st1 & A & H). eauto.
  - apply step_char_forward in H. destruct H as (st1 & A & H). eauto.
  - apply step_char_forward in H. destruct H as (st1 & A & H). eauto.
  - apply IH1 in H. destruct H as (n1 & st1 & A1 & H).
    apply IH2 in H. destruct H as (n2 & st2 & A2 & H).
    exists (n1 + n2), st2. split; [eapply advances_trans; eassumption | exact H].
  - unfold or_else in H. destruct (matcher fl start r1 st k) eqn:E.
    + injection H as <-. apply IH1. exact E.
    + apply IH2. exact H.
  - revert H. apply repeat_matcher_forward.
    intros st0 k0 res0 H0. apply IH1 in H0. exact H0.
  - apply IH1 in H. destruct H as (n1 & st1 & A1 & H). simpl in A1.
    apply repeat_matcher_forward in H;
      [|intros st0 k0 res0 H0; apply IH1 in H0; exact H0].
    destruct H as (n2 & st2 & A2 & H).
    exists (n1 + n2), st2. split; [eapply advances_trans; eassumption | exact H].
  - assert (Honce : forall res',
      matcher fl start r1 (clear_groups (groups r1) st)
        (fun st1 => if endIndex st1 =? endIndex st then None else k st1) = Some res' ->
      exists n st1, advances (endIndex st) (remaining st) n st1 /\ k st1 = Some res').
    { intros res' Ho. apply IH1 in Ho. destruct Ho as (n1 & st1 & A1 & Ho).
      destruct (endIndex st1 =? endIndex st); [discriminate|]. eauto. }
    unfold or_else in H. destruct greedy.
    + destruct (matcher fl start r1 _ _) eqn:E.
      * injection H as <-. apply Honce. reflexivity.
      * exists 0, st. split; [apply advances_refl | exact H].
    + destruct (k st) eqn:E.
      * injection H as <-. exists 0, st. split; [apply advances_refl | exact E].
      * apply Honce. exact H.
  - apply IH1 in H. destruct H as (n1 & st1 & A1 & H).
    exists n1, (set_group g (firstn (endIndex st1 - endIndex st) (remaining st)) st1).
    split; [exact A1 | exact H].
  - destruct (matcher fl start r1 st Some) as [st1|]; [|discriminate].
    exists 0, (mkState (endIndex st) (remaining st) (captures st1)).
    split; [apply (advances_refl (mkState _ _ _)) | exact H].
  - destruct (start + endIndex st =? 0); [|discriminate].
    exists 0, st. split; [apply advances_refl | exact H].
  - destruct (remaining st) eqn:E in H; [|discriminate].
    exists 0, st. split; [apply advances_refl | exact H].
Qed.

(** An expression that starts with a literal character matches at least one
    character. *)
Lemma matcher_literal_first (fl : flags) (start : nat) (c : char) (r1 r2 : regex) :
  forall st k res,
    matcher fl start (Seq (Seq (Chr c) r1) r2) st k = Some res ->
    exists n st1, advances (endIndex st) (remaining st) (S n) st1 /\ k st1 = Some res.
Proof.
  intros st k res H. cbn [matcher] in H.
  apply step_char_forward in H. destruct H as (st1 & A1 & H).
  apply matcher_forward in H. destruct H as (n2 & st2 & A2 & H).
  apply matcher_forward in H. destruct H as (n3 & st3 & A3 & H).
  exists (n2 + n3), st3. split; [|exact H].
  change (S (n2 + n3)) with (1 + (n2 + n3)).
  eapply advances_trans; [exact A1|]. eapply advances_trans; eassumption.
Qed.

(** Where [exec] finds its match. *)
Lemma exec_from_bounds (fl : flags) (r : regex) (ngroups : nat) (s : str) (i : nat)
    (m : match_result) :
  exec_from fl r ngroups s i = Some m ->
  i <= m_index m /\ m_index m <= m_end m /\ m_end m <= i + length s.
Proof.
  revert i. induction s as [|x s IH]; intros i H; simpl in H;
    destruct (matcher fl i r _ Some) as [st|] eqn:E; try discriminate.
  - injection H as <-. apply matcher_forward in E.
    destruct E as (n & st1 & (Hn & He & _) & [= <-]). simpl in *. lia.
  - injection H as <-. apply matcher_forward in E.
    destruct E as (n & st1 & (Hn & He & _) & [= <-]). simpl in *. lia.
  - apply IH in H. simpl. lia.
Qed.

Lemma exec_from_nonempty (fl : flags) (c : char) (r1 r2 : regex) (ngroups : nat)
    (s : str) (i : nat) (m : match_result) :
  exec_from fl (Seq (Seq (Chr c) r1) r2) ngroups s i = Some m ->
  m_index m < m_end m.
Proof.
  revert i. induction s as [|x s IH]; intros i H; cbn [exec_from] in H;
    destruct (matcher fl i _ _ Some) as [st|] eqn:E; try discriminate.
  - injection H as <-. apply matcher_literal_first in E.
    destruct E as (n & st1 & (Hn & He & _) & [= <-]). simpl in *. lia.
  - apply IH in H. exact H.
Qed.

(** The loop over the matches of a global expression ends when no match is
    empty. *)
Lemma exec_all_from_total (fl : flags) (r : regex) (ngroups : nat) (s : str) :
  (forall s' i m, exec_from fl r ngroups s' i = Some m -> m_index m < m_end m) ->
  forall fuel lastIndex,
    lastIndex <= length s -> length s < lastIndex + fuel ->
    exists ms, exec_all_from fl r ngroups s lastIndex fuel = Some ms.
Proof.
  intros Hne fuel. induction fuel as [|fuel IH]; intros lastIndex Hle Hfuel; [lia|].
  simpl. destruct (exec_from fl r ngroups (skipn lastIndex s) lastIndex) as [m|] eqn:E.
  - pose proof (Hne _ _ _ E) as Hlt.
    apply exec_from_bounds in E. rewrite length_skipn in E.
    replace (m_end m =? m_index m) with false by (symmetry; apply Nat.eqb_neq; lia).
    destruct (IH (m_end m)) as [ms Hms]; [lia | lia |].
    rewrite Hms. eauto.
  - eauto.
Qed.

(* ===================================================================== *)
(** * Properties of the delimiter detector and patcher *)
(* ===================================================================== *)

Import Delimiter.

(** ** Counting and searching in concatenations *)

Lemma countChar_app (c : char) (a b : str) :
  countChar c (a ++ b) = countChar c a + countChar c b.
Proof. induction a as [|x a IH]; simpl; [reflexivity | rewrite IH; lia]. Qed.

Lemma countChar_slices (c : char) (k : nat) (s : str) :
  countChar c (slice_to k s) + countChar c (slice_from k s) = countChar c s.
Proof.
  unfold slice_to, slice_from.
  rewrite <- countChar_app, firstn_skipn. reflexivity.
Qed.



(** ** The scan loop *)


(** The accumulator [positions] is only ever appended to, and the stack does
    not depend on it. *)
Lemma scan_positions (rest : str) (i : nat) (stack : list nat) (positions : list Issue) :
  scan rest i stack positions =
  (fst (scan rest i stack []), positions ++ snd (scan rest i stack [])).
Proof.
  revert i stack positions. induction rest as [|c rest IH]; intros i stack positions; simpl.
  - rewrite app_nil_r. reflexivity.
  - destruct (c =? lparen)%N; [apply IH|].
    destruct (c =? rparen)%N; [|apply IH].
    destruct stack as [|x stack]; [|apply IH].
    rewrite (IH (S i) [] (positions ++ [mkIssue extra_close i])).
    rewrite (IH (S i) [] [mkIssue extra_close i]).
    simpl. rewrite <- app_assoc. reflexivity.
Qed.

(** Every issue recorded by the loop is an extra-close issue, at an index of
    the scanned range. *)
Lemma scan_new_issues (rest : str) (i : nat) (stack : list nat) :
  Forall (fun x => type x = extra_close /\ i <= index x < i + length rest)
         (snd (scan rest i stack [])).
Proof.
  revert i stack. induction rest as [|c rest IH]; intros i stack; simpl.
  - constructor.
  - assert (Hw : forall st, Forall
        (fun x => type x = extra_close /\ i <= index x < i + S (length rest))
        (snd (scan rest (S i) st []))).
    { intros st. eapply List.Forall_impl; [|apply (IH (S i) st)].
      simpl. intros x [H1 H2]. split; [exact H1 | lia]. }
    destruct (c =? lparen)%N; [apply Hw|].
    destruct (c =? rparen)%N; [|apply Hw].
    destruct stack as [|x stack]; [|apply Hw].
    rewrite scan_positions. simpl. constructor; [|apply Hw].
    simpl. split; [reflexivity | lia].
Qed.

Lemma length_removelast {A} (l : list A) : length (removelast l) = length l - 1.
Proof.
  induction l as [|x l IH]; [reflexivity|].
  destruct l as [|y l]; [reflexivity|].
  change (removelast (x :: y :: l)) with (x :: removelast (y :: l)).
  simpl length in *. rewrite IH. lia.
Qed.

(** Each [')'] either pops the stack or is recorded, each ['('] is pushed. *)
Lemma scan_counts (rest : str) (i : nat) (stack : list nat) (positions : list Issue) :
  length (fst (scan rest i stack positions)) + countChar rparen rest + length positions =
  length stack + countChar lparen rest + length (snd (scan rest i stack positions)).
Proof.
  revert i stack positions.
  induction rest as [|c rest IH]; intros i stack positions; simpl; [lia|].
  destruct (N.eqb_spec c lparen) as [->|H1].
  - specialize (IH (S i) (stack ++ [i]) positions).
    rewrite length_app in IH. simpl in *. lia.
  - destruct (N.eqb_spec c rparen) as [->|H2]; [|specialize (IH (S i) stack positions); lia].
    destruct stack as [|x stack].
    + specialize (IH (S i) [] (positions ++ [mkIssue extra_close i])).
      rewrite length_app in IH. simpl in *. lia.
    + specialize (IH (S i) (removelast (x :: stack)) positions).
      rewrite length_removelast in IH. simpl in *. lia.
Qed.


(** ** The patch loop *)

Lemma countChar_close_paren (c : char) :
  countChar c (js ")") = if (rparen =? c)%N then 1 else 0.
Proof.
  change (countChar c (js ")")) with ((if (rparen =? c)%N then 1 else 0) + 0).
  apply Nat.add_0_r.
Qed.

(** Patching missing-close issues adds one [')'] per issue and nothing else,
    wherever the insertions land. *)
Lemma fix_missing_counts (c : char) (l : list Issue) (st : str * nat) :
  Forall (fun x => type x = missing_close) l ->
  countChar c (fst (fold_left fix_step l st)) =
  countChar c (fst st) + (if (rparen =? c)%N then length l else 0).
Proof.
  revert st. induction l as [|x l IH]; intros st Hall.
  - cbn [fold_left length]. destruct (rparen =? c)%N; lia.
  - apply Forall_cons_1 in Hall. destruct Hall as [Hx Hl].
    cbn [fold_left]. rewrite (IH _ Hl).
    destruct st as [fixedScript offset]. unfold fix_step. rewrite Hx.
    cbn [fst]. rewrite !countChar_app, countChar_close_paren.
    pose proof (countChar_slices c (index x + 1 + offset) fixedScript) as Hs.
    cbn [length]. destruct (rparen =? c)%N; lia.
Qed.

Lemma only_missing_no_positions (script : str) :
  is_shader_content script = false ->
  (forall iss, In iss (detectUnbalancedParentheses script) -> type iss = missing_close) ->
  snd (scan script 0 [] []) = [].
Proof.
  intros Hsh Hall. unfold detectUnbalancedParentheses in Hall. rewrite Hsh in Hall.
  pose proof (scan_new_issues script 0 []) as Hnew.
  destruct (scan script 0 [] []) as [stack positions]. simpl in *.
  destruct positions as [|p ps]; [reflexivity|].
  apply Forall_cons_1 in Hnew. destruct Hnew as [[Hp _] _].
  specialize (Hall p (or_introl eq_refl)). congruence.
Qed.

(** C1 (amended). For a script without shader marker, on which the parser
    does not throw and in which the detector finds no unmatched [')'], with
    [n] more ['('] than [')']: the patch adds exactly [n] characters [')'],
    leaves the number of ['('] unchanged, the two counts are equal afterwards,
    and the reported fix count is [n]. *)
Theorem delimiter_balance {AST : Type} (parse : str -> option AST)
    (script : str) (n : nat) :
  parse script <> None ->
  is_shader_content script = false ->
  (forall iss, In iss (detectUnbalancedParentheses script) -> type iss = missing_close) ->
  countChar lparen script = countChar rparen script + n ->
  let out := fixUnbalanced parse script in
  countChar rparen (fixed out) = countChar rparen script + n /\
  countChar lparen (fixed out) = countChar lparen script /\
  countChar lparen (fixed out) = countChar rparen (fixed out) /\
  fixCount out = n.
Proof.
  intros Hparse Hsh Hall Hn out.
  pose proof (only_missing_no_positions script Hsh Hall) as Hpos.
  pose proof (scan_counts script 0 [] []) as Hcnt.
  assert (Hall' : Forall (fun x => type x = missing_close)
                         (detectUnbalancedParentheses script)).
  { apply List.Forall_forall. exact Hall. }
  assert (Hlen : length (detectUnbalancedParentheses script) = n).
  { unfold detectUnbalancedParentheses. rewrite Hsh.
    destruct (scan script 0 [] []) as [stack positions]. simpl in *. subst positions.
    simpl. rewrite length_map. simpl in Hcnt. lia. }
  pose proof (fix_missing_counts rparen _ (script, 0) Hall') as Hr.
  pose proof (fix_missing_counts lparen _ (script, 0) Hall') as Hl.
  rewrite N.eqb_refl in Hr.
  change (rparen =? lparen)%N with false in Hl.
  subst out. unfold fixUnbalanced.
  destruct (parse script) as [ast|]; [|congruence].
  destruct (fold_left fix_step (detectUnbalancedParentheses script) (script, 0))
    as [fixedScript offset].
  simpl in *. lia.
Qed.

Lemma delimiter_balance_witness :
  let out := fixUnbalanced parse_never_throws (js "f(g(1") in
  countChar rparen (fixed out) = 0 + 2 /\
  countChar lparen (fixed out) = 2 /\
  countChar lparen (fixed out) = countChar rparen (fixed out) /\
  fixCount out = 2.
Proof.
  apply (delimiter_balance parse_never_throws (js "f(g(1") 2).
  - discriminate.
  - vm_compute. reflexivity.
  - vm_compute. intros iss [<-|[<-|[]]]; reflexivity.
  - vm_compute. reflexivity.
Defined.

(** C1 as stated fails in two ways: an unmatched [')'] is replaced by a
    marker that itself holds a [')'], so the [')'] count grows by the number
    of missing-close issues, not by the surplus of ['(']; and a script with a
    shader marker is never patched. *)
Lemma delimiter_balance_counterexample :
  (let script := js ")((" in
   countChar lparen script = countChar rparen script + 1 /\
   fixed (fixUnbalanced parse_never_throws script) = js "/* removed extra ) */()()" /\
   countChar rparen (fixed (fixUnbalanced parse_never_throws script))
     <> countChar rparen script + 1) /\
  (let script := js "uniform float t; f((" in
   countChar lparen script = countChar rparen script + 2 /\
   fixed (fixUnbalanced parse_never_throws script) = script /\
   countChar rparen (fixed (fixUnbalanced parse_never_throws script))
     <> countChar rparen script + 2).
Proof. vm_compute. repeat split; discriminate. Qed.

(** C2 (amended). On [createFish(p.random(3);] the patch inserts the [')']
    right after the unmatched ['('], which is the one of [createFish]: the
    output is [createFish()p.random(3);], with a fix count of 1. *)
Theorem scenario_A {AST : Type} (parse : str -> option AST) :
  parse (js "createFish(p.random(3);") <> None ->
  fixUnbalanced parse (js "createFish(p.random(3);") =
  mkFixResult (js "createFish()p.random(3);") 1.
Proof.
  intros Hparse. unfold fixUnbalanced.
  destruct (parse (js "createFish(p.random(3);")); [|congruence].
  vm_compute. reflexivity.
Qed.

Lemma scenario_A_witness :
  fixUnbalanced parse_never_throws (js "createFish(p.random(3);") =
  mkFixResult (js "createFish()p.random(3);") 1.
Proof. apply (scenario_A parse_never_throws). discriminate. Defined.

(** C2 as stated: the output is not [createFish(p.random(3));]. *)
Lemma scenario_A_counterexample :
  detectUnbalancedParentheses (js "createFish(p.random(3);") = [mkIssue missing_close 10] /\
  fixed (fixUnbalanced parse_never_throws (js "createFish(p.random(3);"))
    <> js "createFish(p.random(3));".
Proof. vm_compute. split; [reflexivity | discriminate]. Qed.

(** ** Patching an extra-close issue, and detecting again *)

Lemma existsb_not_In (c : char) (l : str) :
  existsb (N.eqb c) l = false -> ~ In c l.
Proof.
  intros H Hin. apply Bool.not_true_iff_false in H. apply H.
  apply existsb_exists. exists c. split; [exact Hin | apply N.eqb_refl].
Qed.









(** ** The shader exemption *)

(** C6. A script that contains one of the shader markers yields no delimiter
    issue, whatever its parentheses are. *)
Theorem shader_exemption (source marker : str) :
  In marker shader_markers ->
  includes source marker = true ->
  detectUnbalancedParentheses source = [].
Proof.
  intros Hin Hinc. unfold detectUnbalancedParentheses.
  replace (is_shader_content source) with true; [reflexivity|].
  unfold is_shader_content. simpl in Hin.
  repeat (destruct Hin as [<- | Hin]; [rewrite Hinc; rewrite ?orb_true_r; reflexivity|]).
  destruct Hin.
Qed.

Lemma shader_exemption_witness :
  detectUnbalancedParentheses (js "uniform float t; f((") = [].
Proof.
  apply (shader_exemption (js "uniform float t; f((") (js "uniform ")).
  - simpl. tauto.
  - vm_compute. reflexivity.
Defined.

(* ===================================================================== *)
(** * Properties of the suggestion-assisted patch applier *)
(* ===================================================================== *)

Import Similarity SmartFix.

(** ** The similarity score *)

Lemma includes_single (s : str) (c : char) :
  includes s [c] = existsb (N.eqb c) s.
Proof.
  induction s as [|x s IH]; [reflexivity|].
  change (includes (x :: s) [c])
    with ((c =? x)%N && startsWith s [] || includes s [c]).
  rewrite IH. destruct s; simpl; rewrite andb_true_r; reflexivity.
Qed.

Lemma count_matches_filter (longer shorter : str) (matches : nat) :
  count_matches longer shorter matches =
  matches + length (List.filter (fun c => existsb (N.eqb c) longer) shorter).
Proof.
  revert matches. induction shorter as [|c t IH]; intros matches; simpl.
  - lia.
  - rewrite IH, includes_single.
    destruct (existsb (N.eqb c) longer); simpl; lia.
Qed.

Lemma shorter_le_longer (a b : str) :
  length (shorter_of a b) <= length (longer_of a b).
Proof.
  unfold shorter_of, longer_of.
  destruct (Nat.ltb_spec (length b) (length a)); lia.
Qed.

(** C3 (amended). The similarity of two strings is the number of characters
    of the shorter string (the first one when the lengths are equal) that
    occur anywhere in the longer one, divided by the length of the longer
    string; it is 1 when both strings are empty.  The numerator is at most
    the length of the shorter string, so the quotient is on a 0-1 scale. *)
Theorem similarity_value (a b : str) :
  let longer := longer_of a b in
  let shorter := shorter_of a b in
  let found := length (List.filter (fun c => existsb (N.eqb c) longer) shorter) in
  calculateStringSimilarity a b =
    (if length longer =? 0 then 1%float
     else (number_of_nat found / number_of_nat (length longer))%float) /\
  found <= length shorter <= length longer.
Proof.
  intros longer shorter found. split.
  - unfold calculateStringSimilarity. fold longer shorter.
    rewrite count_matches_filter. reflexivity.
  - split; [apply filter_length_le | apply shorter_le_longer].
Qed.

(** C3 as stated: of ["ab"] and ["a"] the shorter string is found whole in
    the longer one, which is a fraction of 1 of the shorter string; the
    function returns 1/2. *)
Lemma similarity_counterexample :
  calculateStringSimilarity (js "ab") (js "a") = 0.5%float /\
  fraction_of_shorter (js "ab") (js "a") = 1%float /\
  calculateStringSimilarity (js "ab") (js "a") <> fraction_of_shorter (js "ab") (js "a").
Proof.
  split; [reflexivity|]. split; [reflexivity|].
  intros H. apply (f_equal (PrimFloat.eqb 0.5%float)) in H.
  vm_compute in H. discriminate.
Qed.

(** ** The fuzzy-match threshold *)

(** The threshold is what [7 / 10] evaluates to, and [71 / 100] is above
    it. *)
Lemma threshold_is_7_10 : (number_of_nat 7 / number_of_nat 10)%float = threshold.
Proof. reflexivity. Qed.

Lemma threshold_below_71_100 :
  (threshold <? number_of_nat 71 / number_of_nat 100)%float = true.
Proof. reflexivity. Qed.

(** C4. When the line of a patch exists and does not contain the patch's
    original text, the loop body logs a fuzzy match, overwrites the line with
    the replacement and counts one fix exactly when the similarity of the
    line and the original text is strictly greater than 0.7.  In particular
    it does not at a similarity of 7/10, and it does at 71/100. *)
Theorem fuzzy_match_threshold (issueDescriptions : list IssueDescription)
    (lines : list str) (fixCount : nat) (log : list LogLine)
    (fx : Patch) (i : nat) (originalLine : str) :
  fix_lineNumber fx = (Z.of_nat i + 1)%Z ->
  nth_error lines i = Some originalLine ->
  includes originalLine (fix_original fx) = false ->
  let similarity := calculateStringSimilarity originalLine (fix_original fx) in
  let result := apply_fix issueDescriptions (lines, fixCount, log) fx in
  exists added : list LogLine,
    snd result = log ++ added /\
    (In fixed_line_fuzzy added <-> (threshold <? similarity)%float = true) /\
    ((threshold <? similarity)%float = true ->
     result = (<[i := fix_fixed fx]> lines, fixCount + 1, log ++ [fixed_line_fuzzy])) /\
    (similarity = (number_of_nat 7 / number_of_nat 10)%float ->
     ~ In fixed_line_fuzzy added) /\
    (similarity = (number_of_nat 71 / number_of_nat 100)%float ->
     In fixed_line_fuzzy added).
Proof.
  intros Hline Hnth Hinc similarity result.
  assert (Hlt : i < length lines) by (apply nth_error_Some; congruence).
  assert (Hshape : exists added,
            snd result = log ++ added /\
            (In fixed_line_fuzzy added <-> (threshold <? similarity)%float = true) /\
            ((threshold <? similarity)%float = true ->
             result = (<[i := fix_fixed fx]> lines, fixCount + 1,
                       log ++ [fixed_line_fuzzy]))).
  { subst result. unfold apply_fix. rewrite Hline.
    replace (Z.of_nat i + 1 - 1)%Z with (Z.of_nat i) by lia.
    replace ((0 <=? Z.of_nat i)%Z && (Z.of_nat i <? Z.of_nat (length lines))%Z)
      with true by (symmetry; apply andb_true_intro; split; lia).
    rewrite Nat2Z.id, (nth_error_nth _ _ _ Hnth), Hinc.
    fold similarity.
    destruct (threshold <? similarity)%float.
    - exists [fixed_line_fuzzy]. simpl. intuition.
    - destruct (List.filter _ issueDescriptions) as [|issue rest].
      + exists [could_not_apply]. simpl. intuition; discriminate.
      + destruct (d_type issue).
        * exists [could_not_apply; fixed_missing_fallback]. simpl.
          intuition; discriminate.
        * exists [could_not_apply; fixed_extra_fallback]. simpl.
          intuition; discriminate. }
  destruct Hshape as (added & Hlog & Hiff & Happly).
  exists added. repeat split; try tauto.
  - intros Hsim Hin. apply Hiff in Hin. rewrite Hsim in Hin.
    vm_compute in Hin. discriminate.
  - intros Hsim. apply Hiff. rewrite Hsim. reflexivity.
Qed.

(** At 7/10: seven of the ten characters of the line occur in the original
    text. *)
Lemma fuzzy_match_threshold_witness :
  let fx := mkPatch 1 (js "abcdefg123") (js "patched") in
  let similarity := calculateStringSimilarity (js "abcdefgxyz") (fix_original fx) in
  let result := apply_fix [] ([js "abcdefgxyz"], 0, []) fx in
  exists added : list LogLine,
    snd result = [] ++ added /\
    (In fixed_line_fuzzy added <-> (threshold <? similarity)%float = true) /\
    ((threshold <? similarity)%float = true ->
     result = (<[0 := fix_fixed fx]> [js "abcdefgxyz"], 0 + 1, [] ++ [fixed_line_fuzzy])) /\
    (similarity = (number_of_nat 7 / number_of_nat 10)%float ->
     ~ In fixed_line_fuzzy added) /\
    (similarity = (number_of_nat 71 / number_of_nat 100)%float ->
     In fixed_line_fuzzy added).
Proof.
  apply (fuzzy_match_threshold [] [js "abcdefgxyz"] 0 []
           (mkPatch 1 (js "abcdefg123") (js "patched")) 0 (js "abcdefgxyz"));
    reflexivity.
Defined.

(** There the patch is not applied by the fuzzy path (nor at all: no issue
    is on that line). *)
Example fuzzy_match_at_7_10 :
  includes (js "abcdefgxyz") (js "abcdefg123") = false /\
  calculateStringSimilarity (js "abcdefgxyz") (js "abcdefg123") =
    (number_of_nat 7 / number_of_nat 10)%float /\
  apply_fix [] ([js "abcdefgxyz"], 0, []) (mkPatch 1 (js "abcdefg123") (js "patched")) =
    ([js "abcdefgxyz"], 0, [could_not_apply]).
Proof. vm_compute. repeat split; reflexivity. Qed.

(** At 71/100: the line is 71 times [a] and 29 times [c], the original text
    71 times [a] and 29 times [b]; the line is overwritten. *)
Example fuzzy_match_at_71_100 :
  let line := repeat (ch "a") 71 ++ repeat (ch "c") 29 in
  let original := repeat (ch "a") 71 ++ repeat (ch "b") 29 in
  includes line original = false /\
  calculateStringSimilarity line original =
    (number_of_nat 71 / number_of_nat 100)%float /\
  apply_fix [] ([line], 0, []) (mkPatch 1 original (js "patched")) =
    ([js "patched"], 1, [fixed_line_fuzzy]).
Proof. vm_compute. repeat split; reflexivity. Qed.

(** ** Failure of the suggestion service *)

(** A match of [scriptRegex] is never empty, so the loop that collects the
    script blocks ends. *)
Lemma scriptRegex_loop_ends (html : str) :
  exists matches, exec_all scriptRegex_flags scriptRegex 1 html = Some matches.
Proof.
  apply (exec_all_from_total scriptRegex_flags scriptRegex 1 html); [|lia|lia].
  intros s' i m.
  exact (exec_from_nonempty scriptRegex_flags (ch "<") _ _ 1 s' i m).
Qed.

Section OracleFailure.

Context {AST : Type}.
Variable parse : str -> option AST.
Variable oracle : str -> list Issue -> OracleReply.

(** What [getSmartFixFromAI] returns when the service fails. *)
Lemma getSmartFix_on_failure (script : str) (issues : list Issue) :
  issues <> [] ->
  oracle_failed (oracle script issues) = true ->
  getSmartFixFromAI parse oracle script issues =
  match oracle script issues with
  | request_throws => fixUnbalanced parse script
  | _ => mkFixResult script 0
  end.
Proof.
  intros Hne Hfail. unfold getSmartFixFromAI.
  destruct issues as [|issue issues]; [congruence|].
  destruct (oracle script (issue :: issues)) as [ | | |[|fx fixes]];
    try reflexivity. discriminate.
Qed.

Lemma fixUnbalanced_count (script : str) :
  fixCount (fixUnbalanced parse script) = 0 \/
  fixCount (fixUnbalanced parse script) = length (detectUnbalancedParentheses script).
Proof.
  unfold fixUnbalanced. destruct (parse script); [|left; reflexivity].
  destruct (fold_left _ _ _). right. reflexivity.
Qed.

(** Whichever way the service fails, the loop body does to the document
    what the deterministic patch alone does. *)
Lemma fix_script_on_failure (st : str * nat) (m : match_result) :
  oracle_failed (oracle (group 1 m) (detectUnbalancedParentheses (group 1 m))) = true ->
  fix_script parse oracle st m = basic_fix_script parse st m.
Proof.
  intros Hfail. destruct st as [result totalFixes].
  unfold fix_script, basic_fix_script.
  set (scriptContent := group 1 m) in *.
  set (issues := detectUnbalancedParentheses scriptContent) in *.
  pose proof (fixUnbalanced_count scriptContent) as Hcount. fold issues in Hcount.
  destruct issues as [|issue rest] eqn:Hissues.
  - simpl length in *.
    replace (fixCount (fixUnbalanced parse scriptContent)) with 0
      by (destruct Hcount; congruence).
    reflexivity.
  - change (0 <? length (issue :: rest)) with true. cbv iota.
    rewrite getSmartFix_on_failure by (congruence || exact Hfail).
    destruct (oracle scriptContent (issue :: rest)) as [ | | |fixes];
      cbn [fixCount fixed]; try reflexivity.
    destruct (0 <? fixCount (fixUnbalanced parse scriptContent)); reflexivity.
Qed.

Lemma basic_fix_tally (matches : list match_result) (result : str) (totalFixes : nat) :
  snd (fold_left (basic_fix_script parse) matches (result, totalFixes)) =
  totalFixes +
  list_sum (map (fun m => fixCount (fixUnbalanced parse (group 1 m))) matches).
Proof.
  revert result totalFixes.
  induction matches as [|m ms IH]; intros result totalFixes; simpl.
  - lia.
  - destruct (Nat.ltb_spec 0 (fixCount (fixUnbalanced parse (group 1 m))));
      rewrite IH; lia.
Qed.

(** C5 (amended).  When every reply of the suggestion service is a failure:
    [getSmartFixFromAI] returns the script unchanged with a fix count of zero
    if no fix could be read from the reply (no JSON, a parse error, a value
    that is not an array, or an empty array), and the result of the
    deterministic patch itself if the request or the reading of the response
    threw; [extractAndFixScripts] ends, its document is the one the
    deterministic patch alone produces, and its tally is the sum of the
    deterministic fix counts of the scripts. *)
Theorem oracle_failure_fallback (html : str) :
  (forall script issues, oracle_failed (oracle script issues) = true) ->
  (forall script issues, issues <> [] ->
     getSmartFixFromAI parse oracle script issues =
     match oracle script issues with
     | request_throws => fixUnbalanced parse script
     | _ => mkFixResult script 0
     end) /\
  exists matches,
    exec_all scriptRegex_flags scriptRegex 1 html = Some matches /\
    extractAndFixScripts parse oracle html =
      Some (fold_left (basic_fix_script parse) matches (html, 0)) /\
    option_map snd (extractAndFixScripts parse oracle html) =
      Some (list_sum (map (fun m => fixCount (fixUnbalanced parse (group 1 m))) matches)).
Proof.
  intros Hfail. split.
  - intros script issues Hne. apply getSmartFix_on_failure; [exact Hne | apply Hfail].
  - destruct (scriptRegex_loop_ends html) as [matches Hm].
    exists matches. split; [exact Hm|].
    assert (Hfold : forall st,
              fold_left (fix_script parse oracle) matches st =
              fold_left (basic_fix_script parse) matches st).
    { clear Hm. induction matches as [|m ms IH]; intros st; simpl; [reflexivity|].
      rewrite fix_script_on_failure by apply Hfail. apply IH. }
    unfold extractAndFixScripts. rewrite Hm, Hfold.
    split; [reflexivity|]. simpl. rewrite basic_fix_tally. reflexivity.
Qed.

End OracleFailure.

Lemma oracle_failure_fallback_witness :
  exists matches,
    exec_all scriptRegex_flags scriptRegex 1
      (js "<script>createFish(p.random(3);</script>") = Some matches /\
    extractAndFixScripts parse_never_throws (fun _ _ => extraction_throws)
      (js "<script>createFish(p.random(3);</script>") =
      Some (fold_left (basic_fix_script parse_never_throws) matches
              (js "<script>createFish(p.random(3);</script>", 0)) /\
    option_map snd
      (extractAndFixScripts parse_never_throws (fun _ _ => extraction_throws)
         (js "<script>createFish(p.random(3);</script>")) =
      Some (list_sum (map (fun m => fixCount (fixUnbalanced parse_never_throws (group 1 m)))
                          matches)).
Proof.
  apply (oracle_failure_fallback parse_never_throws (fun _ _ => extraction_throws)
           (js "<script>createFish(p.random(3);</script>")).
  intros script issues. reflexivity.
Defined.

(** Scenario D: the service answers with prose instead of JSON, or the
    request fails; either way the document gets the deterministic patch and
    the tally is its count. *)
Example scenario_D :
  let html := js "<script>createFish(p.random(3);</script>" in
  extractAndFixScripts parse_never_throws (fun _ _ => extraction_throws) html =
    Some (js "<script>createFish()p.random(3);</script>", 1) /\
  extractAndFixScripts parse_never_throws (fun _ _ => request_throws) html =
    Some (js "<script>createFish()p.random(3);</script>", 1).
Proof. vm_compute. split; reflexivity. Qed.

(** C5 as stated: after a network error [getSmartFixFromAI] does not return
    the script unchanged with a fix count of zero; it returns the
    deterministic patch. *)
Lemma oracle_failure_counterexample :
  let script := js "f(1" in
  let issues := detectUnbalancedParentheses script in
  issues = [mkIssue missing_close 1] /\
  getSmartFixFromAI parse_never_throws (fun _ _ => request_throws) script issues =
    mkFixResult (js "f()1") 1 /\
  getSmartFixFromAI parse_never_throws (fun _ _ => request_throws) script issues <>
    mkFixResult script 0.
Proof. vm_compute. repeat split; discriminate. Qed.

(* ===================================================================== *)
(** * Properties of the style-block inference *)
(* ===================================================================== *)

Import StyleTags.

(** The test [fixCount < 5] is made on a counter that the call has just set
    to 1: every wrap is followed by a recursive call. *)
Lemma fixMissingStyleTags_unfold (fuel : nat) (html : str) :
  fixMissingStyleTags (S fuel) html =
  match find_unwrapped_css html commonPatterns with
  | Some potentialCss =>
      match fixMissingStyleTags fuel
              (replace_string html potentialCss (styled potentialCss)) with
      | Some (fixedHtml, recursiveCount) => Some (fixedHtml, 1 + recursiveCount)
      | None => None
      end
  | None => Some (wrap_standalone_css html)
  end.
Proof. reflexivity. Qed.

(** Searching [nested k]: nothing matches inside the tags and the first
    copy of the rule. *)
Lemma exec_skip_open (rest : str) (i : nat) :
  exec_from commonPatterns_flags after_script 1 (style_open ++ rest) i =
  exec_from commonPatterns_flags after_script 1 rest (8 + i).
Proof. reflexivity. Qed.

Lemma exec_skip_close (rest : str) (i : nat) :
  exec_from commonPatterns_flags after_script 1 (style_close ++ rest) i =
  exec_from commonPatterns_flags after_script 1 rest (9 + i).
Proof. reflexivity. Qed.

Lemma exec_skip_rule (rest : str) (i : nat) :
  exec_from commonPatterns_flags after_script 1 (css_rule ++ rest) i =
  exec_from commonPatterns_flags after_script 1 rest (16 + i).
Proof. reflexivity. Qed.

Lemma exec_at_script (i : nat) :
  exec_from commonPatterns_flags after_script 1 (js "</script>" ++ css_rule) i =
  Some (mkMatch i (i + 25) (js "</script>body{color:red;}") [Some css_rule]).
Proof. reflexivity. Qed.

Lemma exec_skip_opens (k : nat) (rest : str) (i : nat) :
  exec_from commonPatterns_flags after_script 1 (concat (repeat style_open k) ++ rest) i =
  exec_from commonPatterns_flags after_script 1 rest (8 * k + i).
Proof.
  revert i. induction k as [|k IH]; intros i; [reflexivity|].
  cbn [repeat concat]. rewrite <- app_assoc, exec_skip_open, IH. f_equal. lia.
Qed.

Lemma exec_skip_closes (k : nat) (rest : str) (i : nat) :
  exec_from commonPatterns_flags after_script 1 (concat (repeat style_close k) ++ rest) i =
  exec_from commonPatterns_flags after_script 1 rest (9 * k + i).
Proof.
  revert i. induction k as [|k IH]; intros i; [reflexivity|].
  cbn [repeat concat]. rewrite <- app_assoc, exec_skip_close, IH. f_equal. lia.
Qed.

Lemma find_in_nested (k : nat) :
  find_unwrapped_css (nested k) commonPatterns = Some css_rule.
Proof.
  unfold nested, commonPatterns. cbn [find_unwrapped_css]. unfold exec.
  rewrite exec_skip_opens, exec_skip_rule, exec_skip_closes, exec_at_script.
  reflexivity.
Qed.

(** Replacing in [nested k]: the first occurrence of the rule is the one
    inside the tags. *)
Lemma indexOf_skip_open (rest : str) (i : nat) :
  indexOf_from (style_open ++ rest) css_rule i = indexOf_from rest css_rule (8 + i).
Proof. reflexivity. Qed.

Lemma indexOf_skip_opens (k : nat) (rest : str) (i : nat) :
  indexOf_from (concat (repeat style_open k) ++ rest) css_rule i =
  indexOf_from rest css_rule (8 * k + i).
Proof.
  revert i. induction k as [|k IH]; intros i; [reflexivity|].
  cbn [repeat concat]. rewrite <- app_assoc, indexOf_skip_open, IH. f_equal. lia.
Qed.

Lemma length_opens (k : nat) : length (concat (repeat style_open k)) = 8 * k.
Proof.
  induction k as [|k IH]; [reflexivity|].
  cbn [repeat concat]. rewrite length_app, IH. simpl length. lia.
Qed.

Lemma opens_comm (k : nat) :
  concat (repeat style_open k) ++ style_open = style_open ++ concat (repeat style_open k).
Proof.
  induction k as [|k IH]; [reflexivity|].
  cbn [repeat concat]. rewrite <- app_assoc, IH. reflexivity.
Qed.

Lemma indexOf_at_rule (rest : str) (i : nat) :
  indexOf_from (css_rule ++ rest) css_rule i = Some i.
Proof. reflexivity. Qed.

(** The replacement text holds no [$]. *)
Lemma substitution_styled_rule (s : str) (position : nat) :
  GetSubstitution css_rule s position [] (styled css_rule) =
  style_open ++ css_rule ++ style_close.
Proof. reflexivity. Qed.

Lemma replace_in_nested (k : nat) :
  replace_string (nested k) css_rule (styled css_rule) = nested (S k).
Proof.
  unfold replace_string, indexOf, nested.
  rewrite indexOf_skip_opens.
  rewrite indexOf_at_rule, substitution_styled_rule.
  replace (8 * k + 0) with (length (concat (repeat style_open k)))
    by (rewrite length_opens; lia).
  rewrite firstn_app, Nat.sub_diag, firstn_all. cbn [firstn]. rewrite app_nil_r.
  rewrite skipn_app, skipn_all2 by lia.
  replace (length (concat (repeat style_open k)) + length css_rule -
           length (concat (repeat style_open k))) with 16 by (simpl length; lia).
  cbn [repeat concat]. rewrite <- opens_comm.
  rewrite <- !app_assoc. reflexivity.
Qed.

(** On [nested k] no depth of calls is enough. *)
Lemma nested_never_returns (fuel k : nat) :
  fixMissingStyleTags fuel (nested k) = None.
Proof.
  revert k. induction fuel as [|fuel IH]; intros k; [reflexivity|].
  rewrite fixMissingStyleTags_unfold, find_in_nested, replace_in_nested, IH.
  reflexivity.
Qed.

(** C8 (the code against the claim).  On a document with six rules, each
    after a [</script>], the pass ends and reports 6 fixes, more than 5.  On
    [body{color:red;}</script>body{color:red;}] the calls never end: each
    call wraps the first copy of the rule once more and calls itself, to any
    depth. *)
Theorem style_recursion_not_bounded :
  (exists fixedHtml, fixMissingStyleTags 7 six_rules = Some (fixedHtml, 6)) /\
  (forall fuel,
     fixMissingStyleTags fuel (js "body{color:red;}</script>body{color:red;}") = None).
Proof.
  split.
  - eexists. vm_compute. reflexivity.
  - intros fuel. apply (nested_never_returns fuel 0).
Qed.

(* ===================================================================== *)
(** * Properties of the not-a-function remediation *)
(* ===================================================================== *)

Import BlockFix FunctionPatch.

(** ** Lines *)

Lemma split_lines_not_nil (s : str) : split_lines s <> [].
Proof.
  destruct s as [|c t]; simpl; [discriminate|].
  destruct (c =? LF)%N; [discriminate|]. destruct (split_lines t); discriminate.
Qed.

Lemma split_lines_before_LF (a b : str) :
  ~ In LF a -> split_lines (a ++ LF :: b) = a :: split_lines b.
Proof.
  induction a as [|c a IH]; intros Hno; simpl.
  - reflexivity.
  - destruct (N.eqb_spec c LF) as [->|_]; [exfalso; apply Hno; left; reflexivity|].
    rewrite IH; [reflexivity|]. intros H. apply Hno. right. exact H.
Qed.

Lemma split_lines_one_line (a : str) : ~ In LF a -> split_lines a = [a].
Proof.
  induction a as [|c a IH]; intros Hno; simpl.
  - reflexivity.
  - destruct (N.eqb_spec c LF) as [->|_]; [exfalso; apply Hno; left; reflexivity|].
    rewrite IH; [reflexivity|]. intros H. apply Hno. right. exact H.
Qed.

Lemma split_lines_without_LF (s : str) :
  Forall (fun l => ~ In LF l) (split_lines s).
Proof.
  induction s as [|c t IH]; simpl.
  - constructor; [intros []|constructor].
  - destruct (N.eqb_spec c LF) as [->|Hc].
    + constructor; [intros []|exact IH].
    + destruct (split_lines t) as [|l ls].
      * constructor; [|constructor]. intros [H|[]]. congruence.
      * apply Forall_cons_1 in IH. destruct IH as [Hl Hls].
        constructor; [|exact Hls]. intros [H|H]; [congruence | exact (Hl H)].
Qed.

Lemma split_join_lines (ls : list str) :
  ls <> [] -> Forall (fun l => ~ In LF l) ls -> split_lines (join_lines ls) = ls.
Proof.
  induction ls as [|l rest IH]; intros Hne Hall; [congruence|].
  apply Forall_cons_1 in Hall. destruct Hall as [Hl Hrest].
  destruct rest as [|l' rest].
  - apply split_lines_one_line. exact Hl.
  - change (join_lines (l :: l' :: rest)) with (l ++ LF :: join_lines (l' :: rest)).
    rewrite split_lines_before_LF by exact Hl.
    rewrite IH; [reflexivity | discriminate | exact Hrest].
Qed.

Lemma join_split_lines (s : str) : join_lines (split_lines s) = s.
Proof.
  induction s as [|c t IH]; simpl; [reflexivity|].
  pose proof (split_lines_not_nil t) as Hne.
  destruct (c =? LF)%N eqn:Hc.
  - apply N.eqb_eq in Hc. subst c.
    destruct (split_lines t) as [|l ls]; [congruence|].
    change (join_lines ([] :: l :: ls)) with (LF :: join_lines (l :: ls)).
    rewrite IH. reflexivity.
  - destruct (split_lines t) as [|l ls]; [congruence|].
    destruct ls as [|l' ls].
    + unfold join_lines in *. simpl in *. congruence.
    + change (join_lines ((c :: l) :: l' :: ls))
        with (c :: join_lines (l :: l' :: ls)).
      rewrite IH. reflexivity.
Qed.



(** ** Trimming keeps a comment marker *)

Lemma trimStart_keeps_end (l : str) (y x : char) :
  is_white_space y = false ->
  exists l', trimStart (l ++ [y; x]) = l' ++ [y; x].
Proof.
  intros Hy. induction l as [|c l IH]; simpl.
  - rewrite Hy. exists []. reflexivity.
  - destruct (is_white_space c); [exact IH|]. exists (c :: l). reflexivity.
Qed.

Lemma trim_keeps_comment (rest : str) :
  startsWith (trim (js "//" ++ rest)) (js "//") = true.
Proof.
  unfold trim, trimEnd.
  change (trimStart (js "//" ++ rest)) with (ch "/" :: ch "/" :: rest).
  change (rev (ch "/" :: ch "/" :: rest)) with ((rev rest ++ [ch "/"]) ++ [ch "/"]).
  rewrite <- app_assoc. change ([ch "/"] ++ [ch "/"]) with [ch "/"; ch "/"].
  destruct (trimStart_keeps_end (rev rest) (ch "/") (ch "/") eq_refl) as [l' ->].
  rewrite rev_app_distr. reflexivity.
Qed.

Lemma trimStart_is_suffix (l : str) : exists w, l = w ++ trimStart l.
Proof.
  induction l as [|c l IH]; simpl; [exists []; reflexivity|].
  destruct (is_white_space c); [|exists []; reflexivity].
  destruct IH as [w Hw]. exists (c :: w). simpl. rewrite <- Hw. reflexivity.
Qed.



(** ** The mechanical fixes *)

Lemma name_char_safe (c : char) :
  is_name_char c = true -> c <> LF /\ ~ In c delimiters.
Proof.
  intros H. split.
  - intros ->. discriminate H.
  - simpl. intros [E|[E|[E|[E|[]]]]]; subst c; discriminate H.
Qed.

Lemma fullName_chars (f : FunctionData) :
  Forall (fun c => is_name_char c = true) (objectName f) ->
  Forall (fun c => is_name_char c = true) (functionName f) ->
  Forall (fun c => is_name_char c = true) (fullName f).
Proof.
  intros Ho Hf. unfold fullName.
  apply Forall_app. split; [exact Ho|].
  apply Forall_app. split; [|exact Hf].
  constructor; [reflexivity | constructor].
Qed.

Lemma manual_fix_lines (name content : str) :
  ~ In LF name ->
  split_lines (error_header ++ name ++ [LF] ++
               join_lines (map (fun line => js "// " ++ line) (split_lines content))) =
  (error_header ++ name) :: map (fun line => js "// " ++ line) (split_lines content).
Proof.
  intros Hname.
  change (error_header ++ name ++ [LF] ++ ?x) with (error_header ++ name ++ LF :: x).
  rewrite app_assoc, split_lines_before_LF.
  - f_equal. apply split_join_lines.
    + pose proof (split_lines_not_nil content). destruct (split_lines content);
        [congruence | discriminate].
    + apply Forall_map. eapply List.Forall_impl; [|apply split_lines_without_LF].
      intros l Hl Hin. apply in_app_or in Hin. destruct Hin as [Hin|Hin]; [|exact (Hl Hin)].
      vm_compute in Hin. intuition discriminate.
  - intros Hin. apply in_app_or in Hin. destruct Hin as [Hin|Hin]; [|exact (Hname Hin)].
    apply (existsb_not_In LF error_header); [reflexivity | exact Hin].
Qed.

Lemma manual_fix_commented (name : str) (block : ContextBlock) :
  ~ In LF name ->
  Forall (fun fx => all_commented fx = true) (manual_fixes name [block]).
Proof.
  intros Hname. constructor; [|constructor].
  unfold all_commented. cbn [replacement].
  rewrite manual_fix_lines by exact Hname.
  cbn [forallb]. apply andb_true_intro. split.
  - exact (trim_keeps_comment
             (js " ERROR: Block commented out due to missing function " ++ name)).
  - apply forallb_forall. intros line Hin. apply in_map_iff in Hin.
    destruct Hin as (l & <- & _). exact (trim_keeps_comment (ch " " :: l)).
Qed.

Lemma manual_fixes_commented (name : str) (blocks : list ContextBlock) :
  ~ In LF name ->
  Forall (fun fx => all_commented fx = true) (manual_fixes name blocks).
Proof.
  intros Hname. induction blocks as [|block blocks IH]; [constructor|].
  pose proof (manual_fix_commented name block Hname) as H.
  apply Forall_cons_1 in H. destruct H as [H _].
  constructor; [exact H | exact IH].
Qed.





Lemma build_contextBlocks_shape (scriptLines : list str) (problemLines : list ProblemLine)
    (blocks : list ContextBlock) :
  build_contextBlocks scriptLines problemLines = Some blocks ->
  Forall (fun b => blockContent b =
                   join_lines (slice_lines (blockStartLine b - 1) (blockEndLine b)
                                           scriptLines))
         blocks.
Proof.
  revert blocks. induction problemLines as [|line rest IH]; intros blocks H; simpl in H.
  - injection H as <-. constructor.
  - destruct (lineNumber line) as [|idx]; [discriminate|].
    destruct (findCodeBlock scriptLines idx) as [[blockStart blockEnd]|]; [|discriminate].
    destruct (build_contextBlocks scriptLines rest) as [blocks'|]; [|discriminate].
    injection H as <-. constructor; [|apply IH; reflexivity].
    cbn [blockContent blockStartLine blockEndLine].
    replace (blockStart + 1 - 1) with blockStart by lia. reflexivity.
Qed.

(** ** The block inference returns on every line of the script *)

Lemma walk_back_returns (lines : list str) (n startLine : nat) :
  n <= length lines -> exists start, walk_back lines n startLine = Some start.
Proof.
  revert startLine. induction n as [|i IH]; intros startLine Hn; simpl; [eauto|].
  destruct (nth_error lines i) as [l|] eqn:E;
    [|apply nth_error_None in E; lia].
  destruct (ends_open (trim l)); [apply IH; lia|].
  destruct (starts_statement (trim l)); [apply IH; lia | eauto].
Qed.

Lemma statement_start_returns (lines : list str) (n d : nat) :
  n <= length lines -> exists start, statement_start lines n d = Some start.
Proof.
  induction n as [|i IH]; intros Hn; simpl; [eauto|].
  destruct (nth_error lines i) as [l|] eqn:E;
    [|apply nth_error_None in E; lia].
  destruct (_ || _); [eauto | apply IH; lia].
Qed.

Lemma findCodeBlock_returns (lines : list str) (idx : nat) :
  idx < length lines -> exists block, findCodeBlock lines idx = Some block.
Proof.
  intros Hidx. unfold findCodeBlock.
  destruct (walk_back_returns lines idx idx) as [start ->]; [lia|].
  destruct (_ =? _); [|eauto].
  destruct (nth_error lines idx) as [l|] eqn:E;
    [|apply nth_error_None in E; lia].
  destruct (_ && _); [|eauto].
  destruct (statement_start_returns lines (idx + 1) idx) as [s ->]; [lia | eauto].
Qed.

Lemma walk_back_bound (lines : list str) (n s0 s : nat) :
  walk_back lines n s0 = Some s -> s = s0 \/ s < n.
Proof.
  revert s0. induction n as [|i IH]; intros s0 H; cbn [walk_back] in H.
  - injection H as <-. left. reflexivity.
  - destruct (nth_error lines i) as [l|]; [|discriminate].
    destruct (ends_open (trim l)); [apply IH in H; lia|].
    destruct (starts_statement (trim l)); [apply IH in H; lia|].
    injection H as <-. left. reflexivity.
Qed.

Lemma walk_forward_bound (rest : list str) (i : nat) (c : Counters) (e0 : nat) :
  walk_forward rest i c e0 = e0 \/
  i <= walk_forward rest i c e0 < i + length rest.
Proof.
  revert i c e0. induction rest as [|line rest IH]; intros i c e0; cbn [walk_forward length].
  - left. reflexivity.
  - destruct (balanced _); [right; lia|].
    destruct (IH (S i) (add_counters c (count_delimiters line)) i) as [->|H]; right; lia.
Qed.

Lemma statement_start_bound (lines : list str) (n d s : nat) :
  statement_start lines n d = Some s -> s = d \/ s <= n.
Proof.
  induction n as [|i IH]; intros H; cbn [statement_start] in H.
  - injection H as <-. left. reflexivity.
  - destruct (nth_error lines i) as [l|]; [|discriminate].
    destruct (_ || _); [injection H as <-; right; lia|].
    apply IH in H. lia.
Qed.

Lemma statement_end_bound (rest : list str) (i d : nat) :
  statement_end rest i d = d \/ i <= statement_end rest i d < i + length rest.
Proof.
  revert i. induction rest as [|l rest IH]; intros i; cbn [statement_end length].
  - left. reflexivity.
  - destruct (_ || _); [right; lia|].
    destruct (IH (S i)) as [->|H]; [left; reflexivity | right; lia].
Qed.


Lemma build_contextBlocks_returns (scriptLines : list str) (problemLines : list ProblemLine) :
  Forall (fun line => 1 <= lineNumber line <= length scriptLines) problemLines ->
  exists blocks, build_contextBlocks scriptLines problemLines = Some blocks.
Proof.
  induction problemLines as [|line rest IH]; intros Hall; simpl; [eauto|].
  apply Forall_cons_1 in Hall. destruct Hall as [Hline Hrest].
  destruct (lineNumber line) as [|idx]; [lia|].
  destruct (findCodeBlock_returns scriptLines idx) as [[bs be] ->]; [lia|].
  destruct (IH Hrest) as [blocks ->]. eauto.
Qed.

(** ** The lines that a fix takes out *)

(** When the body of the patch loop returns, it has put lines in the place
    of [removed_lines], and kept the lines before and after them. *)
Lemma apply_block_fix_removes (scriptLines : list str) (fx : BlockFix)
    (patched : list str) :
  apply_block_fix scriptLines fx = Some patched ->
  exists before inserted after,
    scriptLines = before ++ removed_lines scriptLines fx ++ after /\
    patched = before ++ inserted ++ after.
Proof.
  unfold apply_block_fix, removed_lines.
  destruct (truthy (startLine fx) && truthy (endLine fx) &&
            negb (length (replacement fx) =? 0));
    [|intros [= <-]; exists scriptLines, [], []; rewrite !app_nil_r; auto].
  destruct (at_most (startLine fx) (length scriptLines) &&
            at_most (endLine fx) (length scriptLines));
    [|intros [= <-]; exists scriptLines, [], []; rewrite !app_nil_r; auto].
  destruct (index_before (startLine fx)) as [start|]; [|discriminate].
  destruct (nth_error scriptLines start) as [first|]; [|discriminate].
  destruct (exec no_flags leading_space 0 first) as [m|]; [|discriminate].
  intros [= <-]. unfold splice. eexists _, _, _. split; [|reflexivity].
  rewrite (Nat.add_comm start), <- skipn_skipn, !firstn_skipn. reflexivity.
Qed.

(** ** What a mechanical fix takes out of the script it was made from *)


Lemma manual_fixes_cons (name : str) (b : ContextBlock) (blocks : list ContextBlock) :
  manual_fixes name (b :: blocks) =
  mkBlockFix (line_no (blockStartLine b)) (line_no (blockEndLine b))
    (error_header ++ name ++ [LF] ++
     join_lines (map (fun line => js "// " ++ line) (split_lines (blockContent b))))
  :: manual_fixes name blocks.
Proof. reflexivity. Qed.


(** ** The fixes that [getTargetedFunctionFixes] returns *)

Section BlockFixes.

Variable oracle : str -> FunctionData -> list ProblemLine -> BlockReply.

(** The function returns when every problem line is a line of the script,
    as the lines that its caller collects are. *)
Lemma getTargetedFunctionFixes_returns (scriptContent : str) (functionData : FunctionData)
    (problemLines : list ProblemLine) :
  Forall (fun line => 1 <= lineNumber line <= length (split_lines scriptContent))
         problemLines ->
  exists fixes,
    getTargetedFunctionFixes oracle scriptContent functionData problemLines = Some fixes.
Proof.
  intros Hall. unfold getTargetedFunctionFixes.
  destruct (build_contextBlocks_returns _ _ Hall) as [blocks ->].
  destruct (oracle scriptContent functionData problemLines); eauto.
Qed.


End BlockFixes.



(* ===================================================================== *)
(** * Properties of the pipeline orchestrator *)
(* ===================================================================== *)

Import Orchestrator.

(** ** Paths and locations *)

Lemma segments_not_nil (p : str) : segments p <> [].
Proof.
  destruct p as [|c t]; cbn [segments]; [discriminate|].
  destruct (c =? slash)%N; [discriminate|]. destruct (segments t); discriminate.
Qed.

Lemma segments_plain (s : str) : ~ In slash s -> segments s = [s].
Proof.
  induction s as [|c s IH]; intros Hno; cbn [segments]; [reflexivity|].
  destruct (N.eqb_spec c slash) as [->|_]; [exfalso; apply Hno; left; reflexivity|].
  rewrite IH; [reflexivity|]. intros H. apply Hno. right. exact H.
Qed.

Lemma segments_app_slash (a b : str) :
  segments (a ++ slash :: b) = segments a ++ segments b.
Proof.
  induction a as [|c a IH]; cbn [segments app].
  - rewrite N.eqb_refl. reflexivity.
  - destruct (c =? slash)%N; [rewrite IH; reflexivity|].
    rewrite IH. pose proof (segments_not_nil a) as Hne.
    destruct (segments a); [congruence | reflexivity].
Qed.

Lemma last_snoc (l : list str) (x : str) : List.last (l ++ [x]) [] = x.
Proof. apply last_last. Qed.

Lemma last_app_right (l l' : list str) :
  l' <> [] -> List.last (l ++ l') [] = List.last l' [].
Proof.
  intros Hne. destruct (exists_last Hne) as (init & x & ->).
  rewrite app_assoc, !last_snoc. reflexivity.
Qed.

Lemma segments_init_last (p : str) :
  segments p = removelast (segments p) ++ [base_name p].
Proof. apply app_removelast_last, segments_not_nil. Qed.

(** Text without a slash, put after a path, goes into its last segment. *)
Lemma segments_app_plain (p s : str) :
  ~ In slash s ->
  segments (p ++ s) = removelast (segments p) ++ [base_name p ++ s].
Proof.
  intros Hs. unfold base_name. induction p as [|c p IH]; cbn [segments app].
  - rewrite segments_plain by exact Hs. reflexivity.
  - pose proof (segments_not_nil p) as Hne. rewrite IH.
    destruct (c =? slash)%N.
    + destruct (segments p) as [|seg rest]; [congruence | reflexivity].
    + destruct (segments p) as [|seg rest]; [congruence|].
      destruct rest; reflexivity.
Qed.

Lemma join_snoc_app (sep : str) (names : list str) (x s : str) :
  join sep (names ++ [x ++ s]) = join sep (names ++ [x]) ++ s.
Proof.
  induction names as [|a names IH]; [reflexivity|].
  destruct names as [|b names].
  - cbn [app join]. rewrite <- !app_assoc. reflexivity.
  - change (join sep ((a :: b :: names) ++ [x ++ s]))
      with (a ++ sep ++ join sep ((b :: names) ++ [x ++ s])).
    change (join sep ((a :: b :: names) ++ [x]))
      with (a ++ sep ++ join sep ((b :: names) ++ [x])).
    rewrite IH, <- !app_assoc. reflexivity.
Qed.

Lemma location_snoc_app (names : list str) (x s : str) :
  location (names ++ [x ++ s]) = location (names ++ [x]) ++ s.
Proof. unfold location. rewrite join_snoc_app, app_assoc. reflexivity. Qed.

Lemma is_name_long (seg : str) : 3 <= length seg -> is_name seg = true.
Proof.
  intros H. unfold is_name.
  rewrite !bool_decide_eq_false_2; [reflexivity | | |];
    intros ->; cbn [length js map list_ascii_of_string] in H; lia.
Qed.

Lemma names_file_not_empty (p : str) : names_file p = true -> p <> [].
Proof. intros H ->. discriminate H. Qed.

Lemma absolute_app (cwd p s : str) :
  p <> [] -> absolute cwd (p ++ s) = absolute cwd p ++ s.
Proof.
  intros Hp. unfold absolute. destruct p as [|c p]; [congruence|].
  cbn [app startsWith js map list_ascii_of_string].
  destruct (_ =? c)%N; cbn [andb]; [reflexivity|].
  rewrite <- !app_assoc. reflexivity.
Qed.

Lemma base_name_absolute (cwd p : str) : base_name (absolute cwd p) = base_name p.
Proof.
  unfold absolute. destruct (startsWith p (js "/")); [reflexivity|].
  unfold base_name. change (cwd ++ js "/" ++ p) with (cwd ++ slash :: p).
  rewrite segments_app_slash. apply last_app_right, segments_not_nil.
Qed.

(** The location of a file is its name in its directory. *)
Lemma resolve_names_file (cwd p : str) :
  names_file p = true -> resolve cwd p = location (directory cwd p ++ [base_name p]).
Proof.
  intros Hname. unfold resolve, directory.
  rewrite (segments_init_last (absolute cwd p)) at 1.
  rewrite fold_left_app, base_name_absolute. cbn [fold_left].
  unfold enter. unfold names_file in Hname. rewrite Hname. reflexivity.
Qed.

(** Text without a slash, put after the path of a file, gives the path of a
    file in the same directory, with the text after its name. *)
Lemma resolve_suffix (cwd p s : str) :
  names_file p = true -> ~ In slash s -> is_name (base_name p ++ s) = true ->
  names_file (p ++ s) = true /\ resolve cwd (p ++ s) = resolve cwd p ++ s.
Proof.
  intros Hname Hs Hlong.
  assert (Hbase : base_name (p ++ s) = base_name p ++ s).
  { unfold base_name at 1. rewrite segments_app_plain by exact Hs. apply last_snoc. }
  split; [unfold names_file; rewrite Hbase; exact Hlong|].
  rewrite (resolve_names_file cwd p Hname), <- location_snoc_app.
  unfold resolve, directory.
  rewrite absolute_app by (apply names_file_not_empty; exact Hname).
  rewrite segments_app_plain by exact Hs.
  rewrite fold_left_app, base_name_absolute. cbn [fold_left].
  unfold enter. rewrite Hlong. reflexivity.
Qed.

Lemma existsb_not_In_str (x : str) (l : list str) :
  existsb (fun y => bool_decide (x = y)) l = false -> ~ In x l.
Proof.
  intros H Hin. apply Bool.not_true_iff_false in H. apply H.
  apply existsb_exists. exists x. split; [exact Hin | apply bool_decide_eq_true_2; reflexivity].
Qed.

(** ** The backup file and the temporary files *)

Lemma backup_resolves (cwd filePath : str) :
  names_file filePath = true ->
  names_file (filePath ++ js ".backup") = true /\
  resolve cwd (filePath ++ js ".backup") = resolve cwd filePath ++ js ".backup".
Proof.
  intros Hname. apply resolve_suffix; [exact Hname | |].
  - apply existsb_not_In. reflexivity.
  - apply is_name_long. rewrite length_app. cbn [length js map list_ascii_of_string]. lia.
Qed.









(** ** What the passes do to the files *)

Lemma keeps_ret {A} (file : str) (a : A) : keeps file (ret a).
Proof. intros fs. reflexivity. Qed.

Lemma keeps_lift {A} (file : str) (o : option A) : keeps file (lift o).
Proof. intros fs. reflexivity. Qed.

Lemma keeps_bind {A B} (file : str) (m : M A) (f : A -> M B) :
  keeps file m -> (forall a, keeps file (f a)) -> keeps file (bind m f).
Proof.
  intros Hm Hf fs. unfold bind. specialize (Hm fs).
  destruct (m fs) as [fs1 [a|]]; simpl in *; [|exact Hm].
  rewrite Hf. exact Hm.
Qed.

Lemma keeps_write (cwd file target data : str) :
  file <> resolve cwd target -> keeps file (writeFileSync cwd target data).
Proof.
  intros Hne fs. unfold writeFileSync. destruct (names_file target); cbn [fst];
    [rewrite lookup_insert_ne by other_file|]; reflexivity.
Qed.

Lemma keeps_unlink (cwd file target : str) :
  file <> resolve cwd target -> keeps file (unlinkSync_quiet cwd target).
Proof.
  intros Hne fs. unfold unlinkSync_quiet. destruct (names_file target); cbn [fst];
    [rewrite lookup_delete_ne by other_file|]; reflexivity.
Qed.

(** A pass that runs in a page leaves every file but its temporary one as
    it was. *)
Lemma keeps_in_page (cwd : str) (name : string) (html : str) (result : str * nat)
    (file : str) :
  file <> temp_file cwd name -> keeps file (in_page cwd name html result).
Proof.
  intros Hne. unfold in_page.
  apply keeps_bind; [apply keeps_write; exact Hne | intros _].
  apply keeps_bind; [apply keeps_unlink; exact Hne | intros _].
  apply keeps_ret.
Qed.

Lemma keeps_or_repairs_bind {A} (file repaired_file : str) (m : M A)
    (f : A -> M (str * nat)) :
  keeps file m -> (forall a, keeps_or_repairs file repaired_file (f a)) ->
  keeps_or_repairs file repaired_file (bind m f).
Proof.
  intros Hm Hf fs. unfold bind. specialize (Hm fs).
  destruct (m fs) as [fs1 [a|]]; simpl in *; [|left; exact Hm].
  rewrite <- Hm. apply Hf.
Qed.

Lemma keeps_then_repairs (file repaired_file : str) (m : M (str * nat)) :
  keeps file m -> keeps_or_repairs file repaired_file m.
Proof. intros Hm fs. left. apply Hm. Qed.

Lemma not_temp (cwd file : str) :
  ~ In file (temp_files cwd) ->
  file <> temp_file cwd "_temp_cdn_check.html" /\
  file <> temp_file cwd "_temp_function_check.html" /\
  file <> temp_file cwd "_temp_undefined_check.html" /\
  file <> temp_file cwd "_temp_shader_check.html".
Proof.
  intros H. repeat split; intros ->; apply H; unfold temp_files; cbn [map In]; tauto.
Qed.

Section Persistence.

Variable cwd : str.
Variables fixMalformedHtmlTags cdn_fixes not_a_function_fixes fixCssStyles
          undefined_variable_fixes shader_fixes : str -> str * nat.
Variable depth : nat.
Context {AST : Type}.
Variable parse : str -> option AST.
Variable oracle : str -> list Issue -> OracleReply.

Local Abbreviation passes :=
  (run_passes cwd fixMalformedHtmlTags cdn_fixes not_a_function_fixes fixCssStyles
              undefined_variable_fixes shader_fixes depth parse oracle).

Local Abbreviation process :=
  (processHtmlFile cwd fixMalformedHtmlTags cdn_fixes not_a_function_fixes fixCssStyles
                   undefined_variable_fixes shader_fixes depth parse oracle).

(** The passes leave a file that is not a temporary one as it was, except
    that the shader pass writes the document to the file under repair when
    it fixed something. *)
Lemma run_passes_frame (filePath original file : str) :
  ~ In file (temp_files cwd) ->
  keeps_or_repairs file (resolve cwd filePath) (passes filePath original).
Proof using Type.
  intros Htemp. destruct (not_temp cwd file Htemp) as (H1 & H2 & H3 & H4).
  unfold run_passes.
  destruct (fixMalformedHtmlTags original) as [html0 n0].
  apply keeps_or_repairs_bind; [apply keeps_lift | intros [html1 n1]].
  apply keeps_or_repairs_bind; [apply keeps_in_page; exact H1 | intros [html2 n2]].
  apply keeps_or_repairs_bind; [apply keeps_in_page; exact H2 | intros [html3 n3]].
  destruct (fixCssStyles html3) as [html4 n4].
  apply keeps_or_repairs_bind; [|intros [html5 n5]].
  { apply keeps_bind; [apply keeps_lift | intros none].
    destruct none; [apply keeps_ret | apply keeps_in_page; exact H3]. }
  apply keeps_or_repairs_bind; [apply keeps_lift | intros [html6 n6]].
  destruct (containsShaderMaterial html6);
    [|apply keeps_then_repairs, keeps_ret].
  apply keeps_or_repairs_bind; [apply keeps_in_page; exact H4 | intros [html7 n7]].
  destruct ((0 <? n7) && _) eqn:Hcond; [|apply keeps_then_repairs, keeps_ret].
  apply andb_true_iff in Hcond. destruct Hcond as [_ Hcond]. apply Nat.ltb_lt in Hcond.
  intros fs. unfold bind, writeFileSync, ret.
  destruct (names_file filePath); cbn [fst snd]; [|left; reflexivity].
  destruct (decide (file = resolve cwd filePath)) as [->|Hne].
  - right. split; [reflexivity|]. eexists _, _.
    split; [reflexivity|]. split; [exact Hcond | apply lookup_insert_eq].
  - left. rewrite lookup_insert_ne by other_file. reflexivity.
Qed.


End Persistence.



(* ===================================================================== *)
(** * More on the delimiter detector and patcher *)
(* ===================================================================== *)

Import DelimiterSpec.

(** ** Where the issues point *)

Lemma Forall_removelast {A} (P : A -> Prop) (l : list A) :
  Forall P l -> Forall P (removelast l).
Proof.
  induction 1 as [|x l Hx Hl IH]; [constructor|].
  destruct l as [|y l]; [constructor|].
  change (removelast (x :: y :: l)) with (x :: removelast (y :: l)).
  constructor; assumption.
Qed.

Lemma nth_error_middle (pre rest : str) (c : char) :
  nth_error (pre ++ c :: rest) (length pre) = Some c.
Proof.
  rewrite nth_error_app2 by lia. rewrite Nat.sub_diag. reflexivity.
Qed.

Lemma scan_points (rest pre : str) (stack : list nat) (ps : list Issue) :
  Forall (fun j => nth_error (pre ++ rest) j = Some lparen) stack ->
  Forall (fun x => nth_error (pre ++ rest) (index x) = Some (delimiter_of (type x))) ps ->
  Forall (fun j => nth_error (pre ++ rest) j = Some lparen)
         (fst (scan rest (length pre) stack ps)) /\
  Forall (fun x => nth_error (pre ++ rest) (index x) = Some (delimiter_of (type x)))
         (snd (scan rest (length pre) stack ps)).
Proof.
  revert pre stack ps.
  induction rest as [|c rest IH]; intros pre stack ps Hst Hps; [split; assumption|].
  pose proof (nth_error_middle pre rest c) as Hc.
  assert (Hlen : S (length pre) = length (pre ++ [c])).
  { rewrite length_app. simpl. lia. }
  assert (Heq : pre ++ c :: rest = (pre ++ [c]) ++ rest).
  { rewrite <- app_assoc. reflexivity. }
  cbn [scan]. rewrite Hlen.
  destruct (N.eqb_spec c lparen) as [Hl|_].
  { rewrite Heq in *. apply IH; [|exact Hps].
    apply Forall_app. split; [exact Hst|].
    constructor; [|constructor]. rewrite Hc, Hl. reflexivity. }
  destruct (N.eqb_spec c rparen) as [Hr|_]; [|rewrite Heq in *; apply IH; assumption].
  destruct stack as [|x stack].
  - rewrite Heq in *. apply IH; [exact Hst|].
    apply Forall_app. split; [exact Hps|].
    constructor; [|constructor]. cbn [index type delimiter_of].
    rewrite Hc, Hr. reflexivity.
  - rewrite Heq in *. apply IH; [|exact Hps].
    apply Forall_removelast. exact Hst.
Qed.

Lemma detect_points (source : str) :
  Forall (fun x => nth_error source (index x) = Some (delimiter_of (type x)))
         (detectUnbalancedParentheses source).
Proof.
  unfold detectUnbalancedParentheses.
  destruct (is_shader_content source); [constructor|].
  destruct (scan_points source [] [] [] (List.Forall_nil _) (List.Forall_nil _)) as [Hst Hps].
  cbn [app length] in Hst, Hps.
  destruct (scan source 0 [] []) as [stack positions]. cbn [fst snd] in *.
  apply Forall_app. split; [exact Hps|].
  apply Forall_map. exact Hst.
Qed.

(** X1.  Every issue points at a character of the text: a missing-close issue at
    a ['('], an extra-close issue at a [')']. *)
Theorem issues_point_at_delimiters (source : str) (iss : Issue) :
  In iss (detectUnbalancedParentheses source) ->
  nth_error source (index iss) = Some (delimiter_of (type iss)).
Proof.
  intros Hin. pose proof (detect_points source) as H.
  rewrite List.Forall_forall in H. apply H. exact Hin.
Qed.

Lemma issues_point_at_delimiters_witness :
  nth_error (js "a)b(c") 3 = Some lparen.
Proof.
  apply (issues_point_at_delimiters (js "a)b(c") (mkIssue missing_close 3)).
  vm_compute. right. left. reflexivity.
Defined.

(** ** The order of the issues *)

Lemma sorted_snoc (l : list nat) (i : nat) :
  StronglySorted lt l -> Forall (fun j => j < i) l -> StronglySorted lt (l ++ [i]).
Proof.
  induction 1 as [|x l Hl IH Hx]; intros Hb; simpl.
  - constructor; constructor.
  - apply Forall_cons_1 in Hb. destruct Hb as [Hxi Hb].
    constructor; [apply IH; exact Hb|].
    apply Forall_app. split; [exact Hx|]. constructor; [exact Hxi | constructor].
Qed.

Lemma sorted_removelast (l : list nat) :
  StronglySorted lt l -> StronglySorted lt (removelast l).
Proof.
  induction 1 as [|x l Hl IH Hx]; [constructor|].
  destruct l as [|y l]; [constructor|].
  change (removelast (x :: y :: l)) with (x :: removelast (y :: l)).
  constructor; [exact IH | apply Forall_removelast; exact Hx].
Qed.

Lemma scan_sorted (rest : str) (i : nat) (stack : list nat) (ps : list Issue) :
  StronglySorted lt (map index ps ++ stack) ->
  Forall (fun j => j < i) (map index ps ++ stack) ->
  StronglySorted lt (map index (snd (scan rest i stack ps)) ++ fst (scan rest i stack ps)) /\
  Forall (fun j => j < i + length rest)
         (map index (snd (scan rest i stack ps)) ++ fst (scan rest i stack ps)).
Proof.
  revert i stack ps.
  induction rest as [|c rest IH]; intros i stack ps Hs Hb.
  { cbn [scan fst snd length]. rewrite Nat.add_0_r. split; assumption. }
  assert (Hb' : Forall (fun j => j < S i) (map index ps ++ stack)).
  { eapply List.Forall_impl; [|exact Hb]. simpl. intros; lia. }
  cbn [scan length]. replace (i + S (length rest)) with (S i + length rest) by lia.
  destruct (c =? lparen)%N.
  { apply IH; rewrite app_assoc.
    - apply sorted_snoc; assumption.
    - apply Forall_app. split; [exact Hb'|]. constructor; [lia | constructor]. }
  destruct (c =? rparen)%N; [|apply IH; assumption].
  destruct stack as [|x stack].
  - rewrite app_nil_r in *. apply IH; rewrite app_nil_r, map_app; cbn [map index].
    + apply sorted_snoc; assumption.
    + apply Forall_app. split; [exact Hb'|]. constructor; [lia | constructor].
  - assert (Hrl : map index ps ++ removelast (x :: stack) =
                  removelast (map index ps ++ x :: stack)).
    { symmetry. apply removelast_app. discriminate. }
    apply IH; rewrite Hrl.
    + apply sorted_removelast. exact Hs.
    + apply Forall_removelast. exact Hb'.
Qed.

Lemma detect_indices (source : str) :
  is_shader_content source = false ->
  map index (detectUnbalancedParentheses source) =
  map index (snd (scan source 0 [] [])) ++ fst (scan source 0 [] []).
Proof.
  intros Hsh. unfold detectUnbalancedParentheses. rewrite Hsh.
  destruct (scan source 0 [] []) as [stack positions]. cbn [fst snd].
  rewrite map_app, map_map. cbn [index]. rewrite map_id. reflexivity.
Qed.

Lemma detect_sorted (source : str) :
  StronglySorted lt (map index (detectUnbalancedParentheses source)) /\
  Forall (fun j => j < length source) (map index (detectUnbalancedParentheses source)).
Proof.
  destruct (is_shader_content source) eqn:Hsh.
  { unfold detectUnbalancedParentheses. rewrite Hsh. split; constructor. }
  rewrite detect_indices by exact Hsh.
  apply (scan_sorted source 0 [] []); constructor.
Qed.

(** X2.  The issues come out in strictly increasing order of index, the
    extra-close ones before the missing-close ones: no two issues share an
    index, which is what the running offset of the patch loop relies on. *)
Theorem issues_strictly_increasing (source : str) :
  StronglySorted lt (map index (detectUnbalancedParentheses source)).
Proof. apply detect_sorted. Qed.

(** ** No issue means well nested *)

Lemma scan_empty_iff (rest : str) (i : nat) (stack : list nat) (ps : list Issue) :
  scan rest i stack ps = ([], []) <->
  ps = [] /\ well_nested (length stack) rest = true.
Proof.
  revert i stack ps. induction rest as [|c rest IH]; intros i stack ps.
  - cbn [scan well_nested]. destruct stack as [|x stack]; cbn [length Nat.eqb].
    + split; [intros H; injection H as H; split; [exact H | reflexivity]
             | intros [-> _]; reflexivity].
    + split; [discriminate | intros [_ H]; discriminate].
  - cbn [scan well_nested].
    destruct (c =? lparen)%N.
    { rewrite IH, length_app. cbn [length]. rewrite Nat.add_1_r. reflexivity. }
    destruct (c =? rparen)%N; [|apply IH].
    destruct stack as [|x stack].
    + rewrite IH. cbn [length].
      split; [intros [H _]; destruct ps; discriminate | intros [_ H]; discriminate].
    + rewrite IH, length_removelast. cbn [length].
      replace (S (length stack) - 1) with (length stack) by lia. reflexivity.
Qed.

(** X3.  Outside shader content the detector reports nothing exactly when the
    parentheses of the text are well nested. *)
Theorem no_issue_iff_well_nested (source : str) :
  is_shader_content source = false ->
  detectUnbalancedParentheses source = [] <-> well_nested 0 source = true.
Proof.
  intros Hsh. unfold detectUnbalancedParentheses. rewrite Hsh.
  pose proof (scan_empty_iff source 0 [] []) as H. cbn [length] in H.
  destruct (scan source 0 [] []) as [stack positions].
  split.
  - intros E. apply app_eq_nil in E. destruct E as [-> E].
    destruct stack; [|discriminate]. apply H. reflexivity.
  - intros E. assert (E' : (stack, positions) = ([], [])) by (apply H; split; trivial).
    injection E' as -> ->. reflexivity.
Qed.

Lemma no_issue_iff_well_nested_witness :
  detectUnbalancedParentheses (js "f(g(1), h())") = [] <->
  well_nested 0 (js "f(g(1), h())") = true.
Proof.
  apply (no_issue_iff_well_nested (js "f(g(1), h())")). vm_compute. reflexivity.
Defined.

(** ** The patch loop as one pass over the text *)

Lemma patched_nil (r : str) (i : nat) : patched [] r i = r.
Proof.
  revert i. induction r as [|c r IH]; intros i; [reflexivity|].
  cbn [patched issue_at find option_map app]. rewrite IH. reflexivity.
Qed.

Lemma issue_at_none (l : list Issue) (k : nat) :
  Forall (fun j => k < j) (map index l) -> issue_at l k = None.
Proof.
  unfold issue_at. induction l as [|x l IH]; intros H; [reflexivity|].
  cbn [map] in H. apply Forall_cons_1 in H. destruct H as [Hx Hl].
  cbn [find]. destruct (Nat.eqb_spec (index x) k) as [E|_]; [lia|]. apply IH, Hl.
Qed.

Lemma patched_prefix (l : list Issue) (a r : str) (i : nat) :
  Forall (fun j => i + length a <= j) (map index l) ->
  patched l (a ++ r) i = a ++ patched l r (i + length a).
Proof.
  revert i. induction a as [|c a IH]; intros i H.
  - cbn [app length]. rewrite Nat.add_0_r. reflexivity.
  - cbn [app patched length] in *. rewrite issue_at_none.
    + rewrite IH.
      * replace (S i + length a) with (i + S (length a)) by lia. reflexivity.
      * eapply List.Forall_impl; [|exact H]. simpl. intros; lia.
    + eapply List.Forall_impl; [|exact H]. simpl. intros; lia.
Qed.

Lemma patched_skip (x : Issue) (l : list Issue) (r : str) (i : nat) :
  index x < i -> patched (x :: l) r i = patched l r i.
Proof.
  revert i. induction r as [|c r IH]; intros i H; [reflexivity|].
  cbn [patched]. rewrite IH by lia.
  unfold issue_at. cbn [find].
  destruct (Nat.eqb_spec (index x) i) as [E|_]; [lia | reflexivity].
Qed.

(** The first issue of a sorted list splits the text in three. *)
Lemma patched_at (x : Issue) (l : list Issue) (a b : str) (c : char) (i : nat) :
  StronglySorted lt (map index (x :: l)) ->
  index x = i + length a ->
  patched (x :: l) (a ++ c :: b) i =
  a ++ match type x with
       | extra_close => removed_marker
       | missing_close => [c; rparen]
       end ++ patched l b (S (index x)).
Proof.
  intros Hs Hx. cbn [map] in Hs. apply StronglySorted_inv in Hs. destruct Hs as [_ Hlt].
  rewrite patched_prefix.
  2:{ cbn [map]. constructor; [lia|].
      eapply List.Forall_impl; [|exact Hlt]. simpl. intros; lia. }
  f_equal. cbn [patched]. rewrite <- Hx.
  rewrite patched_skip by lia.
  unfold issue_at. cbn [find]. rewrite Nat.eqb_refl. cbn [option_map].
  destruct (type x); reflexivity.
Qed.

Lemma split_at (rest : str) (k : nat) :
  k < length rest -> exists a c b, rest = a ++ c :: b /\ length a = k.
Proof.
  intros Hk. destruct (nth_error rest k) as [c|] eqn:E.
  - apply nth_error_split in E. destruct E as (a & b & -> & Ha).
    exists a, c, b. split; [reflexivity | exact Ha].
  - apply nth_error_None in E. lia.
Qed.

Lemma firstn_exact {A} (X Y : list A) (n : nat) :
  n = length X -> firstn n (X ++ Y) = X.
Proof.
  intros ->. rewrite firstn_app, Nat.sub_diag, firstn_all. apply app_nil_r.
Qed.

Lemma skipn_exact {A} (X Y : list A) (n : nat) :
  n = length X -> skipn n (X ++ Y) = Y.
Proof.
  intros ->. rewrite skipn_app, Nat.sub_diag, skipn_all. reflexivity.
Qed.

(** The loop invariant: [P] is the part already patched, [rest] the part
    still as in the input, [i] the input index of the head of [rest], and
    the offset is the growth of the patched part. *)
Lemma fold_fix_step (l : list Issue) :
  forall (P rest : str) (i off : nat),
  StronglySorted lt (map index l) ->
  Forall (fun j => i <= j < i + length rest) (map index l) ->
  length P = i + off ->
  fst (fold_left fix_step l (P ++ rest, off)) = P ++ patched l rest i.
Proof.
  induction l as [|x l IH]; intros P rest i off Hs Hb HP.
  { cbn [fold_left fst]. rewrite patched_nil. reflexivity. }
  pose proof Hs as Hs0.
  cbn [map] in Hs, Hb. apply StronglySorted_inv in Hs. destruct Hs as [Hs Hlt].
  apply Forall_cons_1 in Hb. destruct Hb as [Hx Hb].
  destruct (split_at rest (index x - i)) as (a & c & b & -> & Ha); [lia|].
  rewrite patched_at by (assumption || lia).
  assert (Hb' : Forall (fun j => S (index x) <= j < S (index x) + length b) (map index l)).
  { rewrite List.Forall_forall in *. intros j Hj.
    specialize (Hb j Hj). specialize (Hlt j Hj).
    rewrite length_app in Hb. cbn [length] in Hb. lia. }
  cbn [fold_left]. unfold fix_step at 2. unfold slice_to, slice_from.
  destruct (type x).
  - replace (P ++ a ++ c :: b) with ((P ++ a ++ [c]) ++ b)
      by (rewrite <- !app_assoc; reflexivity).
    rewrite firstn_exact, skipn_exact
      by (rewrite !length_app; cbn [length]; lia).
    replace ((P ++ a ++ [c]) ++ js ")" ++ b) with ((P ++ a ++ [c; rparen]) ++ b)
      by (rewrite <- !app_assoc; reflexivity).
    rewrite (IH _ b (S (index x)) (off + 1) Hs Hb')
      by (rewrite !length_app; cbn [length]; lia).
    rewrite <- !app_assoc. reflexivity.
  - replace (P ++ a ++ c :: b) with ((P ++ a) ++ c :: b)
      by (rewrite <- !app_assoc; reflexivity).
    rewrite firstn_exact by (rewrite !length_app; lia).
    replace ((P ++ a) ++ c :: b) with (((P ++ a) ++ [c]) ++ b)
      by (rewrite <- !app_assoc; reflexivity).
    rewrite skipn_exact by (rewrite !length_app; cbn [length]; lia).
    replace ((P ++ a) ++ removed_marker ++ b) with ((P ++ a ++ removed_marker) ++ b)
      by (rewrite <- !app_assoc; reflexivity).
    rewrite (IH _ b (S (index x)) (off + (length removed_marker - 1)) Hs Hb').
    + rewrite <- !app_assoc. reflexivity.
    + rewrite !length_app.
      change (length removed_marker) with 21. lia.
Qed.

Lemma detect_bounds (source : str) :
  Forall (fun j => 0 <= j < 0 + length source)
         (map index (detectUnbalancedParentheses source)).
Proof.
  eapply List.Forall_impl; [|apply detect_sorted]. simpl. intros; lia.
Qed.

Lemma fold_fix_step_patched (script : str) :
  fst (fold_left fix_step (detectUnbalancedParentheses script) (script, 0)) =
  patched (detectUnbalancedParentheses script) script 0.
Proof.
  apply (fold_fix_step _ [] script 0 0);
    [apply detect_sorted | apply detect_bounds | reflexivity].
Qed.

(** X4.  When the parser does not throw, the patch loop with its running offset
    computes the one-pass patch of the input: each unmatched [')'] is replaced
    by the marker comment, each unmatched ['('] is followed by a [')'], and
    every other character stays where it is. *)
Theorem fixUnbalanced_is_one_pass {AST : Type} (parse : str -> option AST)
    (script : str) :
  parse script <> None ->
  fixUnbalanced parse script =
  mkFixResult (patched (detectUnbalancedParentheses script) script 0)
              (length (detectUnbalancedParentheses script)).
Proof.
  intros Hparse. unfold fixUnbalanced.
  destruct (parse script); [|congruence].
  rewrite <- fold_fix_step_patched.
  destruct (fold_left fix_step _ _). reflexivity.
Qed.

Lemma fixUnbalanced_is_one_pass_witness :
  fixUnbalanced parse_never_throws (js "a)b(c") =
  mkFixResult (patched (detectUnbalancedParentheses (js "a)b(c")) (js "a)b(c") 0)
              (length (detectUnbalancedParentheses (js "a)b(c"))).
Proof. apply (fixUnbalanced_is_one_pass parse_never_throws). discriminate. Defined.

(** ** What the patch does to the counts *)

Lemma count_type_cons (t : IssueType) (x : Issue) (l : list Issue) :
  count_type t (x :: l) =
  (match type x, t with
   | missing_close, missing_close => 1
   | extra_close, extra_close => 1
   | _, _ => 0
   end) + count_type t l.
Proof.
  unfold count_type. cbn [List.filter]. destruct (type x), t; reflexivity.
Qed.

Lemma countChar_cons (c x : char) (s : str) :
  countChar c (x :: s) = (if (x =? c)%N then 1 else 0) + countChar c s.
Proof. reflexivity. Qed.

Lemma patched_counts (l : list Issue) :
  forall (rest : str) (i : nat),
  StronglySorted lt (map index l) ->
  Forall (fun j => i <= j < i + length rest) (map index l) ->
  Forall (fun x => nth_error rest (index x - i) = Some (delimiter_of (type x))) l ->
  countChar lparen (patched l rest i) = countChar lparen rest /\
  countChar rparen (patched l rest i) = countChar rparen rest + count_type missing_close l /\
  length (patched l rest i) =
    length rest + count_type missing_close l + 20 * count_type extra_close l.
Proof.
  induction l as [|x l IH]; intros rest i Hs Hb Hp.
  { rewrite patched_nil. cbn. lia. }
  pose proof Hs as Hs0.
  cbn [map] in Hs, Hb. apply StronglySorted_inv in Hs. destruct Hs as [Hs Hlt].
  apply Forall_cons_1 in Hb. destruct Hb as [Hx Hb].
  apply Forall_cons_1 in Hp. destruct Hp as [Hpx Hp].
  destruct (split_at rest (index x - i)) as (a & c & b & -> & Ha); [lia|].
  rewrite patched_at by (assumption || lia).
  rewrite <- Ha, nth_error_middle in Hpx. injection Hpx as Hc.
  assert (Hb' : Forall (fun j => S (index x) <= j < S (index x) + length b) (map index l)).
  { rewrite List.Forall_forall in *. intros j Hj.
    specialize (Hb j Hj). specialize (Hlt j Hj).
    rewrite length_app in Hb. cbn [length] in Hb. lia. }
  assert (Hp' : Forall (fun y => nth_error b (index y - S (index x)) =
                                 Some (delimiter_of (type y))) l).
  { rewrite List.Forall_forall in *. intros y Hy.
    specialize (Hp y Hy). specialize (Hlt (index y) (in_map index _ _ Hy)).
    rewrite nth_error_app2 in Hp by lia.
    replace (index y - i - length a) with (S (index y - S (index x))) in Hp by lia.
    exact Hp. }
  destruct (IH b (S (index x)) Hs Hb' Hp') as (H1 & H2 & H3).
  rewrite !count_type_cons, !countChar_app, !length_app, H1, H2, H3.
  rewrite !countChar_cons, !length_cons.
  destruct (type x); cbn [delimiter_of] in Hc; subst c.
  - change (countChar lparen [lparen; rparen]) with 1.
    change (countChar rparen [lparen; rparen]) with 1.
    change (lparen =? lparen)%N with true. change (lparen =? rparen)%N with false.
    cbn [length]. cbv iota. lia.
  - change (countChar lparen removed_marker) with 0.
    change (countChar rparen removed_marker) with 1.
    change (length removed_marker) with 21.
    change (rparen =? lparen)%N with false. change (rparen =? rparen)%N with true.
    cbv iota. lia.
Qed.

Lemma detect_points_from_0 (source : str) :
  Forall (fun x => nth_error source (index x - 0) = Some (delimiter_of (type x)))
         (detectUnbalancedParentheses source).
Proof.
  eapply List.Forall_impl; [|apply detect_points].
  simpl. intros x H. rewrite Nat.sub_0_r. exact H.
Qed.

(** X5.  When the parser does not throw, the patch leaves the number of ['(']
    as it is, adds one [')'] per missing-close issue and none per
    extra-close issue (the marker holds the [')'] it replaces), and the text
    grows by one character per missing-close issue and by twenty per
    extra-close issue. *)
Theorem fixUnbalanced_counts {AST : Type} (parse : str -> option AST)
    (script : str) :
  parse script <> None ->
  let issues := detectUnbalancedParentheses script in
  let out := fixed (fixUnbalanced parse script) in
  countChar lparen out = countChar lparen script /\
  countChar rparen out = countChar rparen script + count_type missing_close issues /\
  length out = length script + count_type missing_close issues
                             + 20 * count_type extra_close issues.
Proof.
  intros Hparse issues out. subst out. unfold fixUnbalanced.
  destruct (parse script); [|congruence].
  pose proof (fold_fix_step_patched script) as E.
  destruct (fold_left fix_step _ _) as [fixedScript offset].
  cbn [fst fixed] in *. rewrite E.
  apply patched_counts;
    [apply detect_sorted | apply detect_bounds | apply detect_points_from_0].
Qed.

Lemma fixUnbalanced_counts_witness :
  let issues := detectUnbalancedParentheses (js "a)b(c") in
  let out := fixed (fixUnbalanced parse_never_throws (js "a)b(c")) in
  countChar lparen out = countChar lparen (js "a)b(c") /\
  countChar rparen out = countChar rparen (js "a)b(c") + count_type missing_close issues /\
  length out = length (js "a)b(c") + count_type missing_close issues
                                   + 20 * count_type extra_close issues.
Proof. apply (fixUnbalanced_counts parse_never_throws). discriminate. Defined.

(** X6.  Outside shader content, the surplus of ['('] over [')'] in the text is
    the number of missing-close issues less the number of extra-close
    issues. *)
Theorem issue_count_law (source : str) :
  is_shader_content source = false ->
  count_type missing_close (detectUnbalancedParentheses source) + countChar rparen source =
  count_type extra_close (detectUnbalancedParentheses source) + countChar lparen source.
Proof.
  intros Hsh. unfold detectUnbalancedParentheses. rewrite Hsh.
  pose proof (scan_counts source 0 [] []) as Hc.
  pose proof (scan_new_issues source 0 []) as Hn.
  destruct (scan source 0 [] []) as [stack positions]. cbn [fst snd length] in *.
  assert (Hm : forall t, count_type t (map (mkIssue missing_close) stack) =
                         match t with missing_close => length stack | extra_close => 0 end).
  { intros t. clear Hc. induction stack as [|j stack IHs]; [destruct t; reflexivity|].
    cbn [map]. rewrite count_type_cons, IHs. cbn [type]. destruct t; reflexivity. }
  assert (He : forall t, count_type t positions =
                         match t with missing_close => 0 | extra_close => length positions end).
  { intros t. clear Hc. induction positions as [|p ps IHp]; [destruct t; reflexivity|].
    apply Forall_cons_1 in Hn. destruct Hn as [[Hp _] Hn].
    rewrite count_type_cons, (IHp Hn), Hp. destruct t; reflexivity. }
  unfold count_type in *. rewrite !List.filter_app, !length_app.
  rewrite (Hm missing_close), (Hm extra_close), (He missing_close), (He extra_close).
  lia.
Qed.

Lemma issue_count_law_witness :
  count_type missing_close (detectUnbalancedParentheses (js ")a((b)")) +
    countChar rparen (js ")a((b)") =
  count_type extra_close (detectUnbalancedParentheses (js ")a((b)")) +
    countChar lparen (js ")a((b)").
Proof. apply (issue_count_law (js ")a((b)")). vm_compute. reflexivity. Defined.

(** ** Patching missing-close issues only, and detecting again *)

Lemma issue_at_missing_in (F : list nat) (i : nat) :
  In i F -> issue_at (map (mkIssue missing_close) F) i = Some missing_close.
Proof.
  unfold issue_at. induction F as [|j F IH]; intros Hin; [destruct Hin|].
  cbn [map find index]. destruct (Nat.eqb_spec j i) as [_|Hne]; [reflexivity|].
  apply IH. destruct Hin as [E|Hin]; [congruence | exact Hin].
Qed.

Lemma issue_at_missing_out (F : list nat) (i : nat) :
  ~ In i F -> issue_at (map (mkIssue missing_close) F) i = None.
Proof.
  unfold issue_at. induction F as [|j F IH]; intros Hout; [reflexivity|].
  cbn [map find index]. destruct (Nat.eqb_spec j i) as [E|_].
  - exfalso. apply Hout. left. exact E.
  - apply IH. intros Hin. apply Hout. right. exact Hin.
Qed.

Lemma well_nested_open (n : nat) (s : str) :
  well_nested n (lparen :: s) = well_nested (S n) s.
Proof. reflexivity. Qed.

Lemma well_nested_close (n : nat) (s : str) :
  well_nested (S n) (rparen :: s) = well_nested n s.
Proof. reflexivity. Qed.

Lemma well_nested_other (n : nat) (c : char) (s : str) :
  (c =? lparen)%N = false -> (c =? rparen)%N = false ->
  well_nested n (c :: s) = well_nested n s.
Proof. intros H1 H2. cbn [well_nested]. rewrite H1, H2. reflexivity. Qed.

Lemma firstn_removelast {A} (l : list A) (k : nat) :
  k <= length l - 1 -> firstn k (removelast l) = firstn k l.
Proof.
  intros Hk. rewrite removelast_firstn_len, firstn_firstn.
  replace (Nat.min k (Nat.pred (length l))) with k by lia. reflexivity.
Qed.

Lemma in_firstn {A} (x : A) (l : list A) (k : nat) : In x (firstn k l) -> In x l.
Proof.
  intros H. rewrite <- (firstn_skipn k l). apply in_or_app. left. exact H.
Qed.

Lemma not_in_parts (st new : list nat) (k i : nat) :
  Forall (fun j => j < i) st -> Forall (fun j => S i <= j) new ->
  ~ In i (firstn k st ++ new).
Proof.
  intros Hst Hnew Hin. rewrite List.Forall_forall in Hst, Hnew.
  apply in_app_or in Hin. destruct Hin as [Hin|Hin].
  - apply in_firstn in Hin. specialize (Hst _ Hin). lia.
  - specialize (Hnew _ Hin). lia.
Qed.

(** While no extra-close issue is recorded, the final stack is a prefix of
    the initial one followed by indices of the scanned range, and the patched
    range closes exactly the entries it took off the initial stack. *)
Lemma scan_closes (rest : str) :
  forall (i : nat) (st : list nat),
  Forall (fun j => j < i) st ->
  snd (scan rest i st []) = [] ->
  exists (k : nat) (new : list nat),
    k <= length st /\
    fst (scan rest i st []) = firstn k st ++ new /\
    Forall (fun j => i <= j) new /\
    forall (d : nat) (tail : str),
      well_nested (length st - k + d)
        (patched (map (mkIssue missing_close) (fst (scan rest i st []))) rest i ++ tail) =
      well_nested d tail.
Proof.
  induction rest as [|c rest IH]; intros i st Hst Hps.
  { exists (length st), []. cbn [scan fst patched app].
    rewrite firstn_all, app_nil_r, Nat.sub_diag. repeat split; constructor. }
  assert (Hst' : Forall (fun j => j < S i) st).
  { eapply List.Forall_impl; [|exact Hst]. simpl. intros; lia. }
  assert (Hweak : forall new, Forall (fun j => S i <= j) new -> Forall (fun j => i <= j) new).
  { intros new H. eapply List.Forall_impl; [|exact H]. simpl. intros; lia. }
  cbn [scan patched] in *.
  destruct (N.eqb_spec c lparen) as [->|Hl].
  { assert (Hsti : Forall (fun j => j < S i) (st ++ [i])).
    { apply Forall_app. split; [exact Hst'|]. constructor; [lia | constructor]. }
    destruct (IH (S i) (st ++ [i]) Hsti Hps) as (k & new & Hk & HF & Hnew & Hwn).
    rewrite length_app in Hk, Hwn. cbn [length] in Hk, Hwn.
    destruct (Nat.eq_dec k (length st + 1)) as [->|Hne].
    - rewrite firstn_all2 in HF by (rewrite length_app; cbn [length]; lia).
      exists (length st), (i :: new).
      rewrite firstn_all. rewrite <- app_assoc in HF.
      repeat split; [lia | exact HF | constructor; [lia | apply Hweak, Hnew] |].
      intros d tail. rewrite issue_at_missing_in.
      2:{ rewrite HF. apply in_or_app. right. left. reflexivity. }
      rewrite Nat.sub_diag. cbn [app plus].
      rewrite well_nested_open, well_nested_close, <- (Hwn d tail).
      replace (length st + 1 - (length st + 1) + d) with d by lia. reflexivity.
    - rewrite firstn_app in HF.
      replace (k - length st) with 0 in HF by lia.
      cbn [firstn] in HF. rewrite app_nil_r in HF.
      exists k, new.
      repeat split; [lia | exact HF | apply Hweak, Hnew |].
      intros d tail. rewrite issue_at_missing_out
        by (rewrite HF; apply not_in_parts; assumption).
      cbn [app]. rewrite well_nested_open, <- (Hwn d tail).
      replace (S (length st - k + d)) with (length st + 1 - k + d) by lia.
      reflexivity. }
  destruct (N.eqb_spec c rparen) as [->|Hr].
  { destruct st as [|x st].
    { rewrite scan_positions in Hps. cbn [snd app] in Hps. discriminate. }
    assert (Hrl : Forall (fun j => j < S i) (removelast (x :: st))).
    { apply Forall_removelast. exact Hst'. }
    destruct (IH (S i) _ Hrl Hps) as (k & new & Hk & HF & Hnew & Hwn).
    rewrite length_removelast in Hk, Hwn.
    rewrite firstn_removelast in HF by exact Hk.
    cbn [length] in Hk, Hwn.
    exists k, new.
    repeat split; [cbn [length]; lia | exact HF | apply Hweak, Hnew |].
    intros d tail. rewrite issue_at_missing_out
      by (rewrite HF; apply not_in_parts; assumption).
    cbn [app length].
    replace (S (length st) - k + d) with (S (S (length st) - 1 - k + d)) by lia.
    rewrite well_nested_close. apply Hwn. }
  destruct (IH (S i) st Hst' Hps) as (k & new & Hk & HF & Hnew & Hwn).
  exists k, new.
  repeat split; [exact Hk | exact HF | apply Hweak, Hnew |].
  intros d tail. rewrite issue_at_missing_out
    by (rewrite HF; apply not_in_parts; assumption).
  cbn [app]. rewrite well_nested_other; [apply Hwn | |];
    apply N.eqb_neq; assumption.
Qed.

Lemma detect_well_nested (source : str) :
  well_nested 0 source = true -> detectUnbalancedParentheses source = [].
Proof.
  intros Hwn. unfold detectUnbalancedParentheses.
  destruct (is_shader_content source); [reflexivity|].
  assert (E : scan source 0 [] [] = ([], [])).
  { apply scan_empty_iff. split; [reflexivity | exact Hwn]. }
  rewrite E. reflexivity.
Qed.

Lemma missing_only_patched_nested (script : str) :
  (forall iss, In iss (detectUnbalancedParentheses script) -> type iss = missing_close) ->
  well_nested 0 (patched (detectUnbalancedParentheses script) script 0) = true \/
  detectUnbalancedParentheses script = [].
Proof.
  intros Hall. destruct (is_shader_content script) eqn:Hsh.
  { right. unfold detectUnbalancedParentheses. rewrite Hsh. reflexivity. }
  left. pose proof (only_missing_no_positions script Hsh Hall) as Hps.
  destruct (scan_closes script 0 [] (List.Forall_nil _) Hps) as (k & new & Hk & _ & _ & Hwn).
  specialize (Hwn 0 []). cbn [length] in Hk, Hwn.
  replace (0 - k + 0) with 0 in Hwn by lia. rewrite app_nil_r in Hwn.
  unfold detectUnbalancedParentheses. rewrite Hsh.
  destruct (scan script 0 [] []) as [stack positions]. cbn [fst snd] in *.
  subst positions. exact Hwn.
Qed.

(** X7.  When the parser does not throw and the detector finds only unmatched
    ['('], the patched text has no issue left, and patching it again returns
    it as it is with a count of zero. *)
Theorem missing_only_patch_is_stable {AST : Type} (parse : str -> option AST)
    (script : str) :
  parse script <> None ->
  (forall iss, In iss (detectUnbalancedParentheses script) -> type iss = missing_close) ->
  let out := fixed (fixUnbalanced parse script) in
  detectUnbalancedParentheses out = [] /\
  fixUnbalanced parse out = mkFixResult out 0.
Proof.
  intros Hparse Hall out.
  assert (Hout : detectUnbalancedParentheses out = []).
  { subst out. unfold fixUnbalanced. destruct (parse script); [|congruence].
    pose proof (fold_fix_step_patched script) as E.
    destruct (missing_only_patched_nested script Hall) as [Hwn|Hnone].
    - destruct (fold_left fix_step _ _) as [fixedScript offset].
      cbn [fst fixed] in *. rewrite E. apply detect_well_nested, Hwn.
    - rewrite Hnone. cbn [fold_left fixed]. exact Hnone. }
  split; [exact Hout|].
  unfold fixUnbalanced at 1. destruct (parse out); [|reflexivity].
  rewrite Hout. reflexivity.
Qed.

Lemma missing_only_patch_is_stable_witness :
  let out := fixed (fixUnbalanced parse_never_throws (js "f(g(1); h(2)")) in
  detectUnbalancedParentheses out = [] /\
  fixUnbalanced parse_never_throws out = mkFixResult out 0.
Proof.
  apply (missing_only_patch_is_stable parse_never_throws (js "f(g(1); h(2)")).
  - discriminate.
  - vm_compute. intros iss [<-|[]]. reflexivity.
Defined.

(* ===================================================================== *)
(** * More on the suggestion-assisted patch applier *)
(* ===================================================================== *)

(** ** What the loop over the suggested fixes leaves alone *)

Lemma nth_insert_other {A} (l : list A) (i j : nat) (x d : A) :
  i <> j -> nth j (<[i := x]> l) d = nth j l d.
Proof.
  revert i j. induction l as [|y l IH]; intros [|i] [|j] H; simpl;
    try reflexivity; try congruence.
  apply IH. congruence.
Qed.

Lemma apply_fix_frame (ds : list IssueDescription) (lines : list str) (fc : nat)
    (log : list LogLine) (fx : Patch) :
  let r := apply_fix ds (lines, fc, log) fx in
  length (fst (fst r)) = length lines /\
  (snd (fst r) = fc /\ fst (fst r) = lines \/ snd (fst r) = fc + 1) /\
  (forall i, fix_lineNumber fx <> (Z.of_nat i + 1)%Z ->
             nth i (fst (fst r)) [] = nth i lines []).
Proof.
  unfold apply_fix.
  destruct (_ && _) eqn:Hr; [|cbn [fst snd]; auto].
  apply andb_true_iff in Hr. destruct Hr as [H0 _]. apply Z.leb_le in H0.
  assert (Hi : forall i, fix_lineNumber fx <> (Z.of_nat i + 1)%Z ->
                         Z.to_nat (fix_lineNumber fx - 1) <> i) by (intros i H; lia).
  destruct (includes _ _).
  { cbn [fst snd]. rewrite length_insert. repeat split; [auto|].
    intros i H. apply nth_insert_other, Hi, H. }
  destruct (PrimFloat.ltb _ _).
  { cbn [fst snd]. rewrite length_insert. repeat split; [auto|].
    intros i H. apply nth_insert_other, Hi, H. }
  destruct (List.filter _ ds) as [|issue lineIssues]; [cbn [fst snd]; auto|].
  destruct (d_type issue); cbn [fst snd]; rewrite length_insert;
    (repeat split; [auto|]); intros i H; apply nth_insert_other, Hi, H.
Qed.

Lemma apply_fix_fold (ds : list IssueDescription) (fixes : list Patch) :
  forall (lines : list str) (fc : nat) (log : list LogLine),
  let r := fold_left (apply_fix ds) fixes (lines, fc, log) in
  length (fst (fst r)) = length lines /\
  fc <= snd (fst r) <= fc + length fixes /\
  (snd (fst r) = fc -> fst (fst r) = lines) /\
  (forall i, (forall fx, In fx fixes -> fix_lineNumber fx <> (Z.of_nat i + 1)%Z) ->
             nth i (fst (fst r)) [] = nth i lines []).
Proof.
  induction fixes as [|fx fixes IH]; intros lines fc log.
  { cbn [fold_left fst snd length]. repeat split; auto; lia. }
  cbn [fold_left length].
  pose proof (apply_fix_frame ds lines fc log fx) as Hfx.
  destruct (apply_fix ds (lines, fc, log) fx) as [[lines1 fc1] log1].
  cbn [fst snd] in Hfx. destruct Hfx as (Hlen1 & Hcount1 & Hframe1).
  specialize (IH lines1 fc1 log1). cbn zeta in IH.
  destruct (fold_left _ fixes _) as [[lines2 fc2] log2].
  cbn [fst snd] in *. destruct IH as (Hlen2 & Hcount2 & Hsame2 & Hframe2).
  repeat split.
  - congruence.
  - destruct Hcount1 as [[-> _]| ->]; lia.
  - destruct Hcount1 as [[-> _]| ->]; lia.
  - intros E. destruct Hcount1 as [[-> ->]| ->]; [apply Hsame2, E | lia].
  - intros i H. rewrite Hframe2 by (intros fx' Hin; apply H; right; exact Hin).
    apply Hframe1, H. left. reflexivity.
Qed.

(** X8.  The loop over the suggested fixes keeps the number of lines, counts at
    most one fix per suggestion, and leaves every line that no suggestion
    names by its number as it was in the script. *)
Theorem apply_fixes_frame (script : str) (issues : list Issue) (fixes : list Patch) :
  let r := apply_fixes script issues fixes in
  length (fst (fst r)) = length (split_lines script) /\
  snd (fst r) <= length fixes /\
  forall i, (forall fx, In fx fixes -> fix_lineNumber fx <> (Z.of_nat i + 1)%Z) ->
            nth i (fst (fst r)) [] = nth i (split_lines script) [].
Proof.
  unfold apply_fixes.
  destruct (apply_fix_fold (describe_issues (split_lines script) issues) fixes
              (split_lines script) 0 []) as (Hlen & Hcount & _ & Hframe).
  repeat split; [exact Hlen | lia | exact Hframe].
Qed.

Section ZeroCount.

Context {AST : Type}.
Variable parse : str -> option AST.
Variable oracle : str -> list Issue -> OracleReply.

Lemma fixUnbalanced_zero_count (script : str) :
  fixCount (fixUnbalanced parse script) = 0 ->
  fixed (fixUnbalanced parse script) = script.
Proof.
  unfold fixUnbalanced. destruct (parse script); [|reflexivity].
  destruct (detectUnbalancedParentheses script) as [|iss issues] eqn:E.
  - reflexivity.
  - destruct (fold_left _ _ _). cbn [fixCount length]. discriminate.
Qed.

(** X9.  Whatever the suggestion service replies, a result that reports no fix
    carries the script it was given, character for character. *)
Theorem smart_fix_zero_count_unchanged (script : str) (issues : list Issue) :
  fixCount (getSmartFixFromAI parse oracle script issues) = 0 ->
  fixed (getSmartFixFromAI parse oracle script issues) = script.
Proof using Type.
  unfold getSmartFixFromAI.
  destruct issues as [|iss issues]; [reflexivity|].
  destruct (oracle script (iss :: issues)) as [ | | |fixes];
    [apply fixUnbalanced_zero_count | reflexivity | reflexivity |].
  destruct fixes as [|fx fixes]; [reflexivity|].
  unfold apply_fixes.
  destruct (apply_fix_fold (describe_issues (split_lines script) (iss :: issues))
              (fx :: fixes) (split_lines script) 0 []) as (_ & _ & Hsame & _).
  destruct (fold_left _ _ _) as [[lines fc] log].
  cbn [fst snd fixCount fixed] in *. intros ->.
  rewrite Hsame by reflexivity. apply join_split_lines.
Qed.

End ZeroCount.

Lemma smart_fix_zero_count_unchanged_witness :
  let reply := fun (_ : str) (_ : list Issue) =>
                 parsed_array [mkPatch 7 (js "f(1") (js "f(1)")] in
  fixed (getSmartFixFromAI parse_never_throws reply (js "f(1")
           (detectUnbalancedParentheses (js "f(1"))) = js "f(1".
Proof.
  apply (smart_fix_zero_count_unchanged parse_never_throws
           (fun _ _ => parsed_array [mkPatch 7 (js "f(1") (js "f(1)")])
           (js "f(1") (detectUnbalancedParentheses (js "f(1"))).
  vm_compute. reflexivity.
Defined.

(** ** The fallback for a missing-close issue *)

Lemma nth_insert_same {A} (l : list A) (i : nat) (x d : A) :
  i < length l -> nth i (<[i := x]> l) d = x.
Proof.
  revert i. induction l as [|y l IH]; intros [|i] H; simpl in *; try lia.
  - reflexivity.
  - apply IH. lia.
Qed.

Lemma indexOf_from_char (s : str) (c : char) (i : nat) :
  In c s ->
  exists a b, s = a ++ c :: b /\ ~ In c a /\ indexOf_from s [c] i = Some (i + length a).
Proof.
  revert i. induction s as [|x s IH]; intros i Hin; [destruct Hin|].
  cbn [indexOf_from startsWith].
  destruct (N.eqb_spec c x) as [->|Hne].
  - exists [], s. cbn [andb app length]. rewrite Nat.add_0_r.
    split; [reflexivity | split; [intros [] | reflexivity]].
  - destruct Hin as [E|Hin]; [congruence|].
    destruct (IH (S i) Hin) as (a & b & -> & Ha & Hidx).
    exists (x :: a), b. cbn [andb app length].
    split; [reflexivity|]. split.
    + intros [E|H]; [congruence | exact (Ha H)].
    + rewrite Hidx. f_equal. lia.
Qed.

Lemma ends_with_char_in (l : str) (c : char) :
  endsWith (trim l) [c] = true -> In c l.
Proof.
  unfold endsWith, trim, trimEnd. rewrite rev_involutive. cbn [rev app].
  intros H.
  destruct (trimStart_is_suffix (rev (trimStart l))) as [w Hw].
  destruct (trimStart_is_suffix l) as [w' Hw'].
  rewrite Hw'. apply in_or_app. right.
  apply in_rev. rewrite Hw. apply in_or_app. right.
  destruct (trimStart (rev (trimStart l))) as [|x t]; [discriminate|].
  cbn [startsWith] in H. apply andb_true_iff in H. destruct H as [H _].
  apply N.eqb_eq in H. left. symmetry. exact H.
Qed.

(** The new text of the line: [originalLine + ')'], or the first [';']
    replaced by [');']; either way one [')'] more and nothing else changed
    in the counts. *)
Lemma close_statement_counts (l : str) (c : char) :
  countChar c (if negb (endsWith (trim l) (js ";")) then l ++ js ")"
               else replace_string l (js ";") (js ");")) =
  countChar c l + (if (rparen =? c)%N then 1 else 0).
Proof.
  destruct (endsWith (trim l) (js ";")) eqn:E; cbn [negb].
  - apply (ends_with_char_in l (ch ";")) in E.
    destruct (indexOf_from_char l (ch ";") 0 E) as (a & b & -> & _ & Hidx).
    unfold replace_string, indexOf. change (js ";") with [ch ";"]. rewrite Hidx.
    cbn [Nat.add length].
    rewrite firstn_exact by reflexivity.
    replace (a ++ ch ";" :: b) with ((a ++ [ch ";"]) ++ b)
      by (rewrite <- app_assoc; reflexivity).
    rewrite skipn_exact by (rewrite length_app; cbn [length]; lia).
    change (GetSubstitution [ch ";"] ((a ++ [ch ";"]) ++ b) (length a) [] (js ");"))
      with [rparen; ch ";"].
    rewrite !countChar_app, !countChar_cons.
    change (ch ";" =? c)%N with (59 =? c)%N.
    cbn [countChar]. destruct (rparen =? c)%N, (59 =? c)%N; lia.
  - rewrite countChar_app, countChar_close_paren. reflexivity.
Qed.

(** X10.  When a suggestion matches its line neither exactly nor by similarity
    and the first issue described on that line is a missing-close issue, the
    fallback gives the line exactly one [')'] more, leaves its number of
    ['('] as it is, and counts one fix. *)
Theorem missing_fallback_adds_one_paren (ds : list IssueDescription)
    (lines : list str) (fc : nat) (log : list LogLine) (fx : Patch)
    (issue : IssueDescription) (others : list IssueDescription) :
  let i := Z.to_nat (fix_lineNumber fx - 1) in
  (1 <= fix_lineNumber fx <= Z.of_nat (length lines))%Z ->
  includes (nth i lines []) (fix_original fx) = false ->
  (threshold <? calculateStringSimilarity (nth i lines []) (fix_original fx))%float = false ->
  List.filter (fun d => (Z.of_nat (d_lineNumber d) =? fix_lineNumber fx)%Z) ds
    = issue :: others ->
  d_type issue = missing_close ->
  let r := apply_fix ds (lines, fc, log) fx in
  countChar rparen (nth i (fst (fst r)) []) = countChar rparen (nth i lines []) + 1 /\
  countChar lparen (nth i (fst (fst r)) []) = countChar lparen (nth i lines []) /\
  snd (fst r) = fc + 1.
Proof.
  intros i Hrange Hinc Hsim Hds Hty r. subst r. unfold apply_fix.
  replace (_ && _) with true
    by (symmetry; apply andb_true_iff; split; [apply Z.leb_le | apply Z.ltb_lt]; lia).
  fold i. rewrite Hinc, Hsim, Hds, Hty. cbn [fst snd].
  rewrite nth_insert_same by lia.
  rewrite !close_statement_counts.
  change (rparen =? rparen)%N with true. change (rparen =? lparen)%N with false.
  repeat split; lia.
Qed.

Lemma missing_fallback_adds_one_paren_witness :
  let ds := [mkDescription missing_close 2] in
  let lines := [js "let a = 1;"; js "draw(f(x, y;"] in
  let fx := mkPatch 2 (js "0000000000000000") (js "draw(f(x, y));") in
  let r := apply_fix ds (lines, 0, []) fx in
  countChar rparen (nth 1 (fst (fst r)) []) = countChar rparen (nth 1 lines []) + 1 /\
  countChar lparen (nth 1 (fst (fst r)) []) = countChar lparen (nth 1 lines []) /\
  snd (fst r) = 0 + 1.
Proof.
  apply (missing_fallback_adds_one_paren
           [mkDescription missing_close 2]
           [js "let a = 1;"; js "draw(f(x, y;"] 0 []
           (mkPatch 2 (js "0000000000000000") (js "draw(f(x, y));"))
           (mkDescription missing_close 2) []);
    vm_compute; try reflexivity.
  split; discriminate.
Defined.

(* ===================================================================== *)
(** * Characters that a match must hold *)
(* ===================================================================== *)

Import RegexNeeds.

Lemma canonical_only (fl : flags) (c x : char) :
  not_letter c = true -> (canonicalize fl c =? canonicalize fl x)%N = true -> x = c.
Proof.
  unfold not_letter, canonicalize. intros Hc H. apply N.eqb_eq in H.
  destruct (ignoreCase fl); cbn [andb] in H;
    repeat match type of H with
           | context [(?a <=? ?b)%N] => destruct (N.leb_spec a b)
           end;
    repeat match type of Hc with
           | context [(?a <=? ?b)%N] => destruct (N.leb_spec a b)
           end;
    cbn [andb orb negb] in *; try discriminate; lia.
Qed.

Lemma in_firstn_le {A} (x : A) (l : list A) (n m : nat) :
  n <= m -> In x (firstn n l) -> In x (firstn m l).
Proof.
  intros Hle Hin. apply (in_firstn x (firstn m l) n).
  rewrite firstn_firstn. replace (Nat.min n m) with n by lia. exact Hin.
Qed.

Lemma in_firstn_skipn {A} (x : A) (l : list A) (n1 n2 : nat) :
  In x (firstn n2 (skipn n1 l)) -> In x (firstn (n1 + n2) l).
Proof.
  revert l. induction n1 as [|n1 IH]; intros l Hin; [exact Hin|].
  destruct l as [|y l]; [rewrite firstn_nil in Hin; destruct Hin|].
  cbn [skipn] in Hin. cbn [Nat.add firstn]. right. apply IH, Hin.
Qed.

(** Whatever reaches the continuation of an expression that needs [c] has
    read a [c] on the way. *)
Lemma matcher_needs (fl : flags) (start : nat) (c : char) (r : regex) :
  needs c r = true -> not_letter c = true ->
  forall st k res,
    matcher fl start r st k = Some res ->
    exists n st1, advances (endIndex st) (remaining st) n st1 /\ k st1 = Some res /\
                  In c (firstn n (remaining st)).
Proof.
  intros Hneeds Hc.
  induction r as [ |a|negated items| |r1 IH1 r2 IH2|r1 IH1 r2 IH2|greedy r1 IH1
                 |greedy r1 IH1|greedy r1 IH1|g r1 IH1|r1 IH1| | ];
    cbn [needs] in Hneeds; try discriminate; intros st k res H; cbn [matcher] in H.
  - apply N.eqb_eq in Hneeds. subst a. unfold step_char in H.
    destruct (remaining st) as [|x t] eqn:E; [discriminate|].
    destruct (canonicalize fl c =? canonicalize fl x)%N eqn:Ex; [|discriminate].
    apply canonical_only in Ex; [|exact Hc]. subst x.
    exists 1, (mkState (S (endIndex st)) t (captures st)).
    split; [|split; [exact H | left; reflexivity]].
    unfold advances. cbn. split; [lia | split; [lia | reflexivity]].
  - destruct (needs c r1) eqn:N1.
    + apply (IH1 eq_refl) in H. destruct H as (n1 & st1 & A1 & H & Hin).
      apply matcher_forward in H. destruct H as (n2 & st2 & A2 & H).
      exists (n1 + n2), st2.
      split; [eapply advances_trans; eassumption | split; [exact H|]].
      apply (in_firstn_le c _ n1); [lia | exact Hin].
    + cbn [orb] in Hneeds.
      apply matcher_forward in H. destruct H as (n1 & st1 & A1 & H).
      apply (IH2 Hneeds) in H. destruct H as (n2 & st2 & A2 & H & Hin).
      exists (n1 + n2), st2.
      split; [eapply advances_trans; eassumption | split; [exact H|]].
      destruct A1 as (_ & _ & Hrem). rewrite Hrem in Hin.
      apply in_firstn_skipn, Hin.
  - apply andb_true_iff in Hneeds. destruct Hneeds as [N1 N2].
    unfold or_else in H. destruct (matcher fl start r1 st k) eqn:E.
    + injection H as <-. apply (IH1 N1). exact E.
    + apply (IH2 N2). exact H.
  - apply (IH1 Hneeds) in H. destruct H as (n1 & st1 & A1 & H & Hin).
    cbn [clear_groups endIndex remaining] in A1, Hin.
    apply repeat_matcher_forward in H;
      [|intros st0 k0 res0 H0; apply matcher_forward in H0; exact H0].
    destruct H as (n2 & st2 & A2 & H).
    exists (n1 + n2), st2.
    split; [eapply advances_trans; eassumption | split; [exact H|]].
    apply (in_firstn_le c _ n1); [lia | exact Hin].
  - apply (IH1 Hneeds) in H. destruct H as (n1 & st1 & A1 & H & Hin).
    exists n1, (set_group g (firstn (endIndex st1 - endIndex st) (remaining st)) st1).
    split; [exact A1 | split; [exact H | exact Hin]].
Qed.

Lemma exec_from_needs (fl : flags) (c : char) (r : regex) (ngroups : nat)
    (s : str) (i : nat) (m : match_result) :
  needs c r = true -> not_letter c = true ->
  exec_from fl r ngroups s i = Some m -> In c s.
Proof.
  intros Hneeds Hc. revert i.
  induction s as [|x s IH]; intros i H; cbn [exec_from] in H;
    destruct (matcher fl i r _ Some) as [st|] eqn:E; try discriminate.
  - apply (matcher_needs fl i c r Hneeds Hc) in E.
    destruct E as (n & st1 & _ & _ & Hin). cbn [remaining] in Hin.
    rewrite firstn_nil in Hin. destruct Hin.
  - apply (matcher_needs fl i c r Hneeds Hc) in E.
    destruct E as (n & st1 & _ & _ & Hin). cbn [remaining] in Hin.
    apply in_firstn in Hin. exact Hin.
  - right. apply (IH (S i)). exact H.
Qed.

(** The loop over the matches of a global expression finds nothing in a
    text without a character that the expression needs. *)
Lemma exec_all_without (fl : flags) (c : char) (r : regex) (ngroups : nat) (s : str) :
  needs c r = true -> not_letter c = true -> ~ In c s ->
  exec_all fl r ngroups s = Some [].
Proof.
  intros Hneeds Hc Hout. unfold exec_all. cbn [exec_all_from].
  change (skipn 0 s) with s.
  destruct (exec_from fl r ngroups s 0) as [m|] eqn:E; [|reflexivity].
  exfalso. apply Hout. eapply exec_from_needs; eassumption.
Qed.

Lemma exec_without (fl : flags) (c : char) (r : regex) (ngroups : nat) (s : str) :
  needs c r = true -> not_letter c = true -> ~ In c s ->
  exec fl r ngroups s = None.
Proof.
  intros Hneeds Hc Hout. unfold exec.
  destruct (exec_from fl r ngroups s 0) as [m|] eqn:E; [|reflexivity].
  exfalso. apply Hout. eapply exec_from_needs; eassumption.
Qed.

(** ** Entity-encoded tags *)

Import HtmlTags.

Lemma entity_loops_end (html : str) :
  (exists ms, exec_all ignore_case malformedScriptPattern 1 html = Some ms) /\
  (exists ms, exec_all ignore_case malformedTitlePattern 1 html = Some ms) /\
  (exists ms, exec_all no_flags entityTagPattern 2 html = Some ms).
Proof.
  repeat split.
  - apply (exec_all_from_total ignore_case malformedScriptPattern 1 html); [|lia|lia].
    intros s' i m. exact (exec_from_nonempty ignore_case (ch "&") _ _ 1 s' i m).
  - apply (exec_all_from_total ignore_case malformedTitlePattern 1 html); [|lia|lia].
    intros s' i m. exact (exec_from_nonempty ignore_case (ch "&") _ _ 1 s' i m).
  - apply (exec_all_from_total no_flags entityTagPattern 2 html); [|lia|lia].
    intros s' i m. exact (exec_from_nonempty no_flags (ch "&") _ _ 2 s' i m).
Qed.

(** X11.  Each of the three loops of [fixMalformedHtmlTags] ends, on every
    document: the function returns. *)
Theorem fixMalformedHtmlTags_returns (html : str) :
  exists fixedHtml fixCount, fixMalformedHtmlTags html = Some (fixedHtml, fixCount).
Proof.
  unfold fixMalformedHtmlTags.
  destruct (entity_loops_end html) as ([scripts ->] & [titles ->] & [tags ->]).
  destruct (fold_left fix_entity_tag tags _) as [fixedHtml fixCount]. eauto.
Qed.

(** X12.  A document without ['&'] comes back as it is, with a count of zero. *)
Theorem fixMalformedHtmlTags_without_entity (html : str) :
  ~ In (ch "&") html -> fixMalformedHtmlTags html = Some (html, 0).
Proof.
  intros Hout. unfold fixMalformedHtmlTags.
  rewrite !(exec_all_without _ (ch "&")) by (reflexivity || exact Hout).
  reflexivity.
Qed.

Lemma fixMalformedHtmlTags_without_entity_witness :
  fixMalformedHtmlTags (js "<title>a < b</title>") = Some (js "<title>a < b</title>", 0).
Proof.
  apply fixMalformedHtmlTags_without_entity.
  apply existsb_not_In. vm_compute. reflexivity.
Defined.

Lemma fold_counts_up {A} (f : str * nat -> A -> str * nat) (l : list A) :
  (forall st x, snd (f st x) = snd st /\ fst (f st x) = fst st \/ snd st < snd (f st x)) ->
  forall st, (snd (fold_left f l st) = snd st /\ fst (fold_left f l st) = fst st) \/
             snd st < snd (fold_left f l st).
Proof.
  intros Hf. induction l as [|x l IH]; intros st; [left; split; reflexivity|].
  cbn [fold_left]. destruct (IH (f st x)) as [[E1 E2]|Hlt], (Hf st x) as [[E3 E4]|Hlt'].
  - left. split; congruence.
  - right. lia.
  - right. lia.
  - right. lia.
Qed.

(** X13.  A count of zero means that the document came back as it is. *)
Theorem fixMalformedHtmlTags_zero_count (html fixedHtml : str) :
  fixMalformedHtmlTags html = Some (fixedHtml, 0) -> fixedHtml = html.
Proof.
  unfold fixMalformedHtmlTags.
  destruct (exec_all ignore_case malformedScriptPattern 1 html) as [scripts|]; [|discriminate].
  destruct (exec_all ignore_case malformedTitlePattern 1 html) as [titles|]; [|discriminate].
  destruct (exec_all no_flags entityTagPattern 2 html) as [tags|]; [|discriminate].
  intros H. injection H as H.
  pose proof (fold_counts_up fix_script_tag scripts) as H1.
  pose proof (fold_counts_up fix_title_tag titles) as H2.
  pose proof (fold_counts_up fix_entity_tag tags) as H3.
  specialize (H1 ltac:(intros [a n] m; right; cbn; lia) (html, 0)).
  specialize (H2 ltac:(intros [a n] m; right; cbn; lia)
                 (fold_left fix_script_tag scripts (html, 0))).
  specialize (H3 ltac:(intros [a n] m; unfold fix_entity_tag;
                       destruct (is_critical _); [right; cbn; lia | left; split; reflexivity])
                 (fold_left fix_title_tag titles (fold_left fix_script_tag scripts (html, 0)))).
  rewrite H in H3. cbn [fst snd] in *.
  destruct H3 as [[E3 F3]|H3]; [|lia].
  destruct H2 as [[E2 F2]|H2]; [|lia].
  destruct H1 as [[E1 F1]|H1]; [|lia].
  congruence.
Qed.

Lemma fixMalformedHtmlTags_zero_count_witness :
  js "a &lt;b&gt; c" = js "a &lt;b&gt; c".
Proof.
  apply (fixMalformedHtmlTags_zero_count (js "a &lt;b&gt; c") (js "a &lt;b&gt; c")).
  vm_compute. reflexivity.
Defined.

(** ** The loop over the scripts of a document *)

Section ExtractAndFix.

Context {AST : Type}.
Variable parse : str -> option AST.
Variable oracle : str -> list Issue -> OracleReply.

Lemma fix_script_counts_up (st : str * nat) (m : match_result) :
  snd (fix_script parse oracle st m) = snd st /\ fst (fix_script parse oracle st m) = fst st \/
  snd st < snd (fix_script parse oracle st m).
Proof.
  destruct st as [result totalFixes]. unfold fix_script.
  destruct (0 <? length _); [|left; split; reflexivity].
  destruct (0 <? fixCount (getSmartFixFromAI _ _ _ _)) eqn:E1.
  { right. apply Nat.ltb_lt in E1. cbn [snd]. lia. }
  destruct (0 <? fixCount (fixUnbalanced _ _)) eqn:E2.
  { right. apply Nat.ltb_lt in E2. cbn [snd]. lia. }
  left. split; reflexivity.
Qed.

(** X14.  The loop that collects the scripts ends on every document, so the
    function returns; and when it reports no fix, the document it returns is
    the one it was given. *)
Theorem extractAndFixScripts_returns (html : str) :
  exists fixedHtml totalFixes,
    extractAndFixScripts parse oracle html = Some (fixedHtml, totalFixes) /\
    (totalFixes = 0 -> fixedHtml = html).
Proof using Type.
  unfold extractAndFixScripts.
  destruct (scriptRegex_loop_ends html) as [matches ->].
  pose proof (fold_counts_up (fix_script parse oracle) matches fix_script_counts_up (html, 0))
    as H.
  destruct (fold_left _ matches _) as [fixedHtml totalFixes]. cbn [fst snd] in H.
  exists fixedHtml, totalFixes. split; [reflexivity|].
  intros ->. destruct H as [[_ H]|H]; [exact H | lia].
Qed.

(** X15.  A document without ['<'] holds no script: it comes back as it is and
    the suggestion service is not asked. *)
Theorem extractAndFixScripts_without_tag (html : str) :
  ~ In (ch "<") html -> extractAndFixScripts parse oracle html = Some (html, 0).
Proof using Type.
  intros Hout. unfold extractAndFixScripts.
  rewrite (exec_all_without _ (ch "<")) by (reflexivity || exact Hout).
  reflexivity.
Qed.

End ExtractAndFix.

Lemma extractAndFixScripts_without_tag_witness :
  extractAndFixScripts parse_never_throws (fun _ _ => request_throws) (js "f(1; script>")
  = Some (js "f(1; script>", 0).
Proof.
  apply extractAndFixScripts_without_tag.
  apply existsb_not_In. vm_compute. reflexivity.
Defined.

(** ** Style-block inference on documents without a rule *)

Import StyleTags.

Lemma find_unwrapped_css_without_brace (html : str) :
  ~ In (ch "{") html -> find_unwrapped_css html commonPatterns = None.
Proof.
  intros Hout. unfold commonPatterns. cbn [find_unwrapped_css].
  rewrite !(exec_without _ (ch "{")) by (reflexivity || exact Hout).
  reflexivity.
Qed.

(** X16.  A document without ['{'] comes back from [fixMissingStyleTags] as it
    is, with a count of zero, at the first call. *)
Theorem fixMissingStyleTags_without_brace (fuel : nat) (html : str) :
  ~ In (ch "{") html -> fixMissingStyleTags (S fuel) html = Some (html, 0).
Proof.
  intros Hout. cbn [fixMissingStyleTags].
  rewrite find_unwrapped_css_without_brace by exact Hout.
  unfold wrap_standalone_css.
  rewrite (exec_without _ (ch "{")) by (reflexivity || exact Hout).
  destruct (negb _); reflexivity.
Qed.

Lemma fixMissingStyleTags_without_brace_witness :
  fixMissingStyleTags 1 (js "</script>body color:red <b>") =
  Some (js "</script>body color:red <b>", 0).
Proof.
  apply fixMissingStyleTags_without_brace.
  apply existsb_not_In. vm_compute. reflexivity.
Defined.

(** X17.  When [fixMissingStyleTags] returns with a count of zero, the document
    it returns is the one it was given. *)
Theorem fixMissingStyleTags_zero_count (fuel : nat) (html fixedHtml : str) :
  fixMissingStyleTags fuel html = Some (fixedHtml, 0) -> fixedHtml = html.
Proof.
  destruct fuel as [|fuel]; [discriminate|]. cbn [fixMissingStyleTags].
  destruct (find_unwrapped_css html commonPatterns) as [potentialCss|].
  - change (0 + 1 <? 5) with true. cbv iota.
    destruct (fixMissingStyleTags fuel _) as [[html' n]|]; discriminate.
  - unfold wrap_standalone_css. destruct (negb _); [|congruence].
    destruct (exec no_flags standalonePattern 1 html) as [m|]; [|congruence].
    destruct (isLikelyCss _); [|congruence].
    destruct (includes html (js "</head>")); [discriminate|].
    destruct (includes html (js "<body")); discriminate.
Qed.

Lemma fixMissingStyleTags_zero_count_witness :
  js "<p>a{b}</p>" = js "<p>a{b}</p>".
Proof.
  apply (fixMissingStyleTags_zero_count 1 (js "<p>a{b}</p>") (js "<p>a{b}</p>")).
  vm_compute. reflexivity.
Defined.

(* ===================================================================== *)
(** * More on the block-boundary inference *)
(* ===================================================================== *)

Import BlockFix.

(** ** Where a block can lie *)

(** X18.  For a problem line of the script, [findCodeBlock] returns, its block
    ends at the problem line or after it, inside the script, and starts at
    the latest on the line after the problem line. *)
Theorem findCodeBlock_bounds (lines : list str) (idx : nat) :
  idx < length lines ->
  exists blockStart blockEnd,
    findCodeBlock lines idx = Some (blockStart, blockEnd) /\
    blockStart <= idx + 1 /\ idx <= blockEnd < length lines.
Proof.
  intros Hidx. unfold findCodeBlock.
  destruct (walk_back_returns lines idx idx) as [start Hstart]; [lia|].
  rewrite Hstart. apply walk_back_bound in Hstart.
  match goal with
  | |- context [count_delimiters ?x] => set (c := count_delimiters x)
  end.
  match goal with
  | |- context [if ?b then ?t else idx] => set (e := if b then t else idx)
  end.
  assert (He : idx <= e < length lines).
  { subst e. destruct (_ || _); [|lia].
    destruct (walk_forward_bound (skipn (idx + 1) lines) (idx + 1) c idx) as [->|H]; [lia|].
    rewrite length_skipn in H. lia. }
  destruct (start =? e).
  - destruct (nth_error lines idx) as [l|] eqn:E; [|apply nth_error_None in E; lia].
    destruct (_ && _); [|exists start, e; split; [reflexivity | lia]].
    destruct (statement_start_returns lines (idx + 1) idx) as [s Hs]; [lia|].
    rewrite Hs. apply statement_start_bound in Hs.
    exists s, (statement_end (skipn idx lines) idx idx).
    split; [reflexivity|].
    destruct (statement_end_bound (skipn idx lines) idx idx) as [->|H]; [lia|].
    rewrite length_skipn in H. lia.
  - exists start, e. split; [reflexivity | lia].
Qed.

Lemma findCodeBlock_bounds_witness :
  exists blockStart blockEnd,
    findCodeBlock [js "f("; js "  obj.g(1),"; js "  2);"] 1 = Some (blockStart, blockEnd) /\
    blockStart <= 1 + 1 /\ 1 <= blockEnd < length [js "f("; js "  obj.g(1),"; js "  2);"].
Proof.
  apply (findCodeBlock_bounds [js "f("; js "  obj.g(1),"; js "  2);"] 1).
  cbn [length]. lia.
Defined.

(** ** A call statement on a line of its own *)

Lemma slice_one_line (lines : list str) (idx : nat) (l : str) :
  nth_error lines idx = Some l -> slice_lines idx (idx + 1) lines = [l].
Proof.
  intros H. unfold slice_lines. replace (idx + 1 - idx) with 1 by lia.
  apply nth_error_split in H. destruct H as (a & b & -> & <-).
  rewrite skipn_exact by reflexivity. reflexivity.
Qed.

Lemma walk_back_stops (lines : list str) (idx : nat) :
  (idx = 0 \/
   exists p, nth_error lines (idx - 1) = Some p /\
             ends_open (trim p) = false /\ starts_statement (trim p) = false) ->
  walk_back lines idx idx = Some idx.
Proof.
  intros [->|(p & Hp & H1 & H2)]; [reflexivity|].
  destruct idx as [|i]; [reflexivity|].
  cbn [walk_back]. replace (S i - 1) with i in Hp by lia.
  rewrite Hp, H1, H2. reflexivity.
Qed.

(** X19.  When the problem line is a call statement that ends in [';'], holds no
    unclosed bracket, and does not continue the line before it, the block
    that [findCodeBlock] returns starts on the line after the problem line
    and ends on the problem line: it holds no line at all. *)
Theorem complete_statement_block_is_empty (lines : list str) (idx : nat) (l : str) :
  nth_error lines idx = Some l ->
  (idx = 0 \/
   exists p, nth_error lines (idx - 1) = Some p /\
             ends_open (trim p) = false /\ starts_statement (trim p) = false) ->
  countChar (ch "{") l <= countChar (ch "}") l ->
  countChar (ch "(") l <= countChar (ch ")") l ->
  includes (trim l) (js "(") = true ->
  includes (trim l) (js ")") = true ->
  endsWith (trim l) (js ";") = true ->
  findCodeBlock lines idx = Some (idx + 1, idx) /\
  slice_lines (idx + 1) (idx + 1) lines = [].
Proof.
  intros Hl Hprev Hbr Hpar Hopen Hclose Hsemi.
  split; [|unfold slice_lines; rewrite Nat.sub_diag; reflexivity].
  unfold findCodeBlock. rewrite (walk_back_stops lines idx Hprev).
  rewrite (slice_one_line lines idx l Hl).
  change (join_lines [l]) with l. unfold count_delimiters. cbn [ob cb op cp].
  replace (countChar (ch "}") l <? countChar (ch "{") l) with false
    by (symmetry; apply Nat.ltb_ge; exact Hbr).
  replace (countChar (ch ")") l <? countChar (ch "(") l) with false
    by (symmetry; apply Nat.ltb_ge; exact Hpar).
  cbn [orb]. rewrite Nat.eqb_refl, Hl, Hopen, Hclose. cbn [andb].
  replace (idx + 1) with (S idx) by lia. cbn [statement_start].
  rewrite Hl, Hsemi. cbn [orb].
  apply nth_error_split in Hl. destruct Hl as (a & b & -> & <-).
  rewrite skipn_exact by reflexivity. cbn [statement_end]. rewrite Hsemi. cbn [orb].
  repeat f_equal. lia.
Qed.

Lemma complete_statement_block_is_empty_witness :
  findCodeBlock [js "let a = 1;"; js "  obj.missing(a);"; js "draw();"] 1 = Some (1 + 1, 1) /\
  slice_lines (1 + 1) (1 + 1) [js "let a = 1;"; js "  obj.missing(a);"; js "draw();"] = [].
Proof.
  apply (complete_statement_block_is_empty
           [js "let a = 1;"; js "  obj.missing(a);"; js "draw();"] 1 (js "  obj.missing(a);")).
  - reflexivity.
  - right. exists (js "let a = 1;"). vm_compute. auto.
  - vm_compute. lia.
  - vm_compute. lia.
  - vm_compute. reflexivity.
  - vm_compute. reflexivity.
  - vm_compute. reflexivity.
Defined.

(** ** One mechanical fix per problem line *)

Lemma build_contextBlocks_blocks (scriptLines : list str) (problemLines : list ProblemLine)
    (blocks : list ContextBlock) :
  build_contextBlocks scriptLines problemLines = Some blocks ->
  Forall2 (fun line block =>
             exists blockStart blockEnd,
               findCodeBlock scriptLines (lineNumber line - 1) = Some (blockStart, blockEnd) /\
               blockStartLine block = blockStart + 1 /\
               blockEndLine block = blockEnd + 1)
          problemLines blocks.
Proof.
  revert blocks. induction problemLines as [|line rest IH]; intros blocks H;
    cbn [build_contextBlocks] in H.
  - injection H as <-. constructor.
  - destruct (lineNumber line) as [|idx] eqn:Eline; [discriminate|].
    destruct (findCodeBlock scriptLines idx) as [[blockStart blockEnd]|] eqn:Efind;
      [|discriminate].
    destruct (build_contextBlocks scriptLines rest) as [blocks'|]; [|discriminate].
    injection H as <-. constructor; [|apply IH; reflexivity].
    exists blockStart, blockEnd. cbn [blockStartLine blockEndLine].
    rewrite Eline. replace (S idx - 1) with idx by lia. auto.
Qed.

Section MechanicalFixes.

Variable oracle : str -> FunctionData -> list ProblemLine -> BlockReply.

(** X20.  When the fixes are the mechanical ones and the names are as the
    classifier extracts them, the safety check drops nothing: there is one
    fix per problem line, in the order of the problem lines, and each carries
    the bounds of the block of its line, counted from one. *)
Theorem mechanical_fixes_one_per_line (scriptContent : str) (functionData : FunctionData)
    (problemLines : list ProblemLine) (fixes : list BlockFix) :
  Forall (fun c => is_name_char c = true) (objectName functionData) ->
  Forall (fun c => is_name_char c = true) (functionName functionData) ->
  mechanical (oracle scriptContent functionData problemLines) = true ->
  getTargetedFunctionFixes oracle scriptContent functionData problemLines = Some fixes ->
  Forall2 (fun line fx =>
             exists blockStart blockEnd,
               findCodeBlock (split_lines scriptContent) (lineNumber line - 1)
                 = Some (blockStart, blockEnd) /\
               startLine fx = line_no (blockStart + 1) /\
               endLine fx = line_no (blockEnd + 1))
          problemLines fixes.
Proof using Type.
  intros Hobj Hfun Hmech Hget.
  pose proof (fullName_chars functionData Hobj Hfun) as Hname.
  assert (HLF : ~ In LF (fullName functionData)).
  { intros H. rewrite List.Forall_forall in Hname.
    apply Hname, name_char_safe in H. tauto. }
  unfold getTargetedFunctionFixes in Hget.
  destruct (build_contextBlocks (split_lines scriptContent) problemLines)
    as [blocks|] eqn:Hblocks; [|discriminate].
  assert (Hfilter : List.filter all_commented (manual_fixes (fullName functionData) blocks)
                    = manual_fixes (fullName functionData) blocks).
  { apply forallb_filter_id. apply forallb_forall.
    pose proof (manual_fixes_commented (fullName functionData) blocks HLF) as H.
    rewrite List.Forall_forall in H. exact H. }
  assert (Hfixes : fixes = manual_fixes (fullName functionData) blocks).
  { destruct (oracle scriptContent functionData problemLines);
      try discriminate Hmech; injection Hget as <-; congruence. }
  subst fixes. apply build_contextBlocks_blocks in Hblocks.
  clear Hfilter Hget Hmech.
  induction Hblocks as [|line block rest blocks' H Hrest IH]; [constructor|].
  rewrite manual_fixes_cons. constructor; [|exact IH].
  destruct H as (blockStart & blockEnd & Hfind & Hs & He).
  exists blockStart, blockEnd. cbn [startLine endLine]. rewrite Hs, He. auto.
Qed.

End MechanicalFixes.

Lemma mechanical_fixes_one_per_line_witness :
  let script := js "a.b(1,
  2);
a.b(3);" in
  exists fixes,
    getTargetedFunctionFixes (fun _ _ _ => block_request_throws) script
      (mkFunctionData (js "a") (js "b")) [mkProblemLine 1; mkProblemLine 3] = Some fixes /\
    Forall2 (fun line fx =>
               exists blockStart blockEnd,
                 findCodeBlock (split_lines script) (lineNumber line - 1)
                   = Some (blockStart, blockEnd) /\
                 startLine fx = line_no (blockStart + 1) /\
               endLine fx = line_no (blockEnd + 1))
            [mkProblemLine 1; mkProblemLine 3] fixes.
Proof.
  intros script.
  destruct (getTargetedFunctionFixes (fun _ _ _ => block_request_throws) script
              (mkFunctionData (js "a") (js "b")) [mkProblemLine 1; mkProblemLine 3])
    as [fixes|] eqn:E; [|vm_compute in E; discriminate].
  exists fixes. split; [reflexivity|].
  apply (mechanical_fixes_one_per_line (fun _ _ _ => block_request_throws) script
           (mkFunctionData (js "a") (js "b")) [mkProblemLine 1; mkProblemLine 3] fixes).
  - repeat constructor.
  - repeat constructor.
  - reflexivity.
  - exact E.
Defined.

(* ===================================================================== *)
(** * Properties of the patch loop of the not-a-function remediation *)
(* ===================================================================== *)

Import FunctionPatch.

(** ** The indentation of a line *)

Lemma leading_space_run (start : nat) (l : str) :
  forall (e fuel : nat) (caps : list (option str)),
  length l <= fuel ->
  repeat_matcher
    (fun st0 => matcher no_flags start (Class false [Space]) (clear_groups [] st0))
    true Some fuel (mkState e l caps) =
  Some (mkState (e + length (leading_white l)) (skipn (length (leading_white l)) l) caps).
Proof.
  induction l as [|x t IH]; intros e fuel caps Hfuel.
  - cbn [leading_white length skipn]. rewrite Nat.add_0_r.
    destruct fuel; reflexivity.
  - destruct fuel as [|fuel]; [cbn [length] in Hfuel; lia|].
    cbn [repeat_matcher matcher clear_groups fold_left endIndex remaining captures step_char].
    unfold class_mem. cbn [existsb item_mem ignoreCase no_flags andb orb xorb leading_white].
    destruct (is_white_space x); cbn [orb xorb].
    + replace (S e =? e) with false by (symmetry; apply Nat.eqb_neq; lia).
      rewrite IH by (cbn [length] in Hfuel; lia).
      cbn [or_else length skipn]. do 2 f_equal. lia.
    + cbn [or_else length skipn]. rewrite Nat.add_0_r. reflexivity.
Qed.

Lemma firstn_leading_white (l : str) :
  firstn (length (leading_white l)) l = leading_white l.
Proof.
  induction l as [|x t IH]; [reflexivity|]. cbn [leading_white].
  destruct (is_white_space x); [|reflexivity].
  cbn [length firstn]. rewrite IH. reflexivity.
Qed.

(** [/^\s*/] matches every line, and the match is the white space that the
    line starts with. *)
Lemma exec_leading_space (l : str) :
  exists m, exec no_flags leading_space 0 l = Some m /\ m_text m = leading_white l.
Proof.
  unfold exec, leading_space.
  assert (E : matcher no_flags 0 (Seq Bol (Star true (Class false [Space])))
                (mkState 0 l (repeat None 0)) Some =
              Some (mkState (0 + length (leading_white l))
                            (skipn (length (leading_white l)) l) [])).
  { cbn [matcher endIndex remaining Nat.add Nat.eqb groups].
    apply (leading_space_run 0 l 0 (length l) []). lia. }
  destruct l as [|x t]; cbn [exec_from]; rewrite E; cbn [endIndex Nat.add captures];
    eexists; (split; [reflexivity|]); cbn [m_text]; apply firstn_leading_white.
Qed.

(** ** When the loop throws *)




(** A first line that the suggestion service gives as a negative or
    fractional number is truthy and not above the number of lines, and no
    line of the script is at the index before it: reading the indentation
    throws.  In [fixNotAFunctionErrors] the [catch] around the whole pass
    takes the exception. *)
Lemma patch_script_throws :
  patch_script (js "go();
p.f();") [mkBlockFix (json_value true (-1)) (line_no 1) (js "// go();")] = None /\
  patch_script (js "go();
p.f();") [mkBlockFix (json_value true 0.5) (line_no 1) (js "// go();")] = None.
Proof. split; vm_compute; reflexivity. Qed.

(** ** What a mechanical fix does to the lines *)

Lemma apply_manual_fix (scriptLines : list str) (name content : str) (s e : nat) :
  ~ In LF name ->
  1 <= s <= length scriptLines ->
  1 <= e <= length scriptLines ->
  apply_block_fix scriptLines
    (mkBlockFix (line_no s) (line_no e)
       (error_header ++ name ++ [LF] ++
        join_lines (map (fun line => js "// " ++ line) (split_lines content)))) =
  Some (splice (s - 1) (e + 1 - s)
          (map (fun line => leading_white (nth (s - 1) scriptLines []) ++ line)
               ((error_header ++ name) ::
                map (fun line => js "// " ++ line) (split_lines content)))
          scriptLines).
Proof.
  intros Hname Hs He.
  unfold apply_block_fix.
  cbn [startLine endLine replacement truthy at_most index_before deleteCount].
  replace (s =? 0) with false by (symmetry; apply Nat.eqb_neq; lia).
  replace (e =? 0) with false by (symmetry; apply Nat.eqb_neq; lia).
  replace (s <=? length scriptLines) with true by (symmetry; apply Nat.leb_le; lia).
  replace (e <=? length scriptLines) with true by (symmetry; apply Nat.leb_le; lia).
  cbn [negb andb].
  destruct (nth_error scriptLines (s - 1)) as [first|] eqn:E;
    [|apply nth_error_None in E; lia].
  erewrite nth_error_nth by exact E.
  match goal with
  | |- context [length ?x =? 0] =>
      destruct (Nat.eqb_spec (length x) 0) as [E0|_];
        [rewrite length_app in E0; vm_compute in E0; discriminate|]
  end.
  cbn [negb].
  destruct (exec_leading_space first) as (m & -> & ->).
  rewrite manual_fix_lines by exact Hname. reflexivity.
Qed.

Lemma slice_lines_length (a b : nat) (lines : list str) :
  a <= b <= length lines -> length (slice_lines a b lines) = b - a.
Proof.
  intros H. unfold slice_lines. rewrite length_firstn, length_skipn. lia.
Qed.

Lemma split_join_slice (a b : nat) (scriptContent : str) :
  a < b <= length (split_lines scriptContent) ->
  split_lines (join_lines (slice_lines a b (split_lines scriptContent))) =
  slice_lines a b (split_lines scriptContent).
Proof.
  intros H. apply split_join_lines.
  - intros E. apply (f_equal (@length str)) in E.
    rewrite slice_lines_length in E by lia. cbn [length] in E. lia.
  - unfold slice_lines. apply Forall_take, Forall_drop, split_lines_without_LF.
Qed.

(** X22.  A mechanical fix for a block of at least one line, applied to the
    script that it was made from, replaces exactly the lines of the block:
    by the header and then each line of the block behind [//], all indented
    as the first line of the block was.  The lines before and after the
    block stay. *)
Theorem manual_fix_comments_block (scriptContent name : str) (n s e : nat) :
  ~ In LF name ->
  1 <= s <= e -> e <= length (split_lines scriptContent) ->
  let lines := split_lines scriptContent in
  let block := mkContextBlock n s e (join_lines (slice_lines (s - 1) e lines)) in
  let indentation := leading_white (nth (s - 1) lines []) in
  apply_block_fixes lines (manual_fixes name [block]) =
  Some (firstn (s - 1) lines ++
        (indentation ++ error_header ++ name) ::
        map (fun line => indentation ++ js "// " ++ line) (slice_lines (s - 1) e lines) ++
        skipn e lines).
Proof.
  intros Hname Hse He lines block indentation.
  cbn [manual_fixes map apply_block_fixes blockStartLine blockEndLine blockContent block].
  rewrite apply_manual_fix by (exact Hname || (subst lines; lia)).
  subst lines. rewrite split_join_slice by lia.
  unfold splice. replace (s - 1 + (e + 1 - s)) with e by lia.
  cbn [map]. rewrite map_map. reflexivity.
Qed.

Lemma manual_fix_comments_block_witness :
  let lines := split_lines (js "go();
  if (x) {
    p.f();
  }
end();") in
  let block := mkContextBlock 3 2 4 (join_lines (slice_lines (2 - 1) 4 lines)) in
  let indentation := leading_white (nth (2 - 1) lines []) in
  apply_block_fixes lines (manual_fixes (js "p.f") [block]) =
  Some (firstn (2 - 1) lines ++
        (indentation ++ error_header ++ js "p.f") ::
        map (fun line => indentation ++ js "// " ++ line) (slice_lines (2 - 1) 4 lines) ++
        skipn 4 lines).
Proof.
  apply (manual_fix_comments_block (js "go();
  if (x) {
    p.f();
  }
end();") (js "p.f") 3 2 4).
  - apply existsb_not_In. reflexivity.
  - lia.
  - vm_compute. lia.
Defined.

(** ** An empty block *)

Section EmptyBlock.

Variable oracle : str -> FunctionData -> list ProblemLine -> BlockReply.


End EmptyBlock.


(** ** Two fixes in a row *)

Lemma splice_length (start deleteCount : nat) (items lines : list str) :
  start + deleteCount <= length lines ->
  length (splice start deleteCount items lines) =
  length lines + length items - deleteCount.
Proof.
  intros H. unfold splice. rewrite !length_app, length_firstn, length_skipn. lia.
Qed.

Lemma splice_after (start deleteCount i : nat) (items lines : list str) :
  start + deleteCount <= length lines ->
  nth_error (splice start deleteCount items lines) (start + length items + i) =
  nth_error lines (start + deleteCount + i).
Proof.
  intros H. unfold splice.
  rewrite nth_error_app2 by (rewrite length_firstn; lia).
  rewrite nth_error_app2 by (rewrite length_firstn; lia).
  rewrite nth_error_skipn, length_firstn. f_equal. lia.
Qed.

(** X24.  Every fix carries the line numbers of the script as it was, and the
    first mechanical fix makes the script one line longer.  So when two
    blocks of the script are fixed one after the other, the second fix is
    applied one line above its block: the script ends up two lines longer,
    and the last line of the second block is still there, as it was, right
    after the second replacement. *)
Theorem second_fix_lands_a_line_early (scriptContent name : str)
    (n1 s1 e1 n2 s2 e2 : nat) :
  ~ In LF name ->
  1 <= s1 <= e1 -> e1 < s2 -> s2 <= e2 -> e2 <= length (split_lines scriptContent) ->
  let lines := split_lines scriptContent in
  let block1 := mkContextBlock n1 s1 e1 (join_lines (slice_lines (s1 - 1) e1 lines)) in
  let block2 := mkContextBlock n2 s2 e2 (join_lines (slice_lines (s2 - 1) e2 lines)) in
  exists patched,
    apply_block_fixes lines (manual_fixes name [block1; block2]) = Some patched /\
    length patched = length lines + 2 /\
    nth_error patched (e2 + 1) = nth_error lines (e2 - 1).
Proof.
  intros Hname H1 H12 H2 Hlen lines block1 block2.
  cbn [manual_fixes map apply_block_fixes blockStartLine blockEndLine blockContent
       block1 block2].
  rewrite apply_manual_fix by (exact Hname || (subst lines; lia)).
  subst lines. rewrite (split_join_slice (s1 - 1) e1 scriptContent) by lia.
  set (lines := split_lines scriptContent) in *.
  match goal with
  | |- context [splice (s1 - 1) (e1 + 1 - s1) ?items lines] => set (items1 := items)
  end.
  assert (Hitems1 : @length str items1 = e1 - s1 + 2).
  { subst items1. rewrite length_map. cbn [length].
    rewrite length_map, slice_lines_length by lia. lia. }
  set (lines1 := splice (s1 - 1) (e1 + 1 - s1) items1 lines).
  assert (Hlen1 : length lines1 = length lines + 1).
  { subst lines1. rewrite splice_length by lia. lia. }
  rewrite apply_manual_fix by (exact Hname || lia).
  subst lines. rewrite (split_join_slice (s2 - 1) e2 scriptContent) by lia.
  set (lines := split_lines scriptContent) in *.
  match goal with
  | |- context [splice (s2 - 1) (e2 + 1 - s2) ?items lines1] => set (items2 := items)
  end.
  assert (Hitems2 : @length str items2 = e2 - s2 + 2).
  { subst items2. rewrite length_map. cbn [length].
    rewrite length_map, slice_lines_length by lia. lia. }
  eexists. split; [reflexivity|]. split.
  - rewrite splice_length by lia. lia.
  - pose proof (splice_after (s2 - 1) (e2 + 1 - s2) 0 items2 lines1 ltac:(lia)) as Ha.
    rewrite Hitems2 in Ha.
    replace (s2 - 1 + (e2 - s2 + 2) + 0) with (e2 + 1) in Ha by lia.
    rewrite Ha. subst lines1.
    pose proof (splice_after (s1 - 1) (e1 + 1 - s1) (e2 - e1 - 1) items1 lines ltac:(lia))
      as Hb.
    rewrite Hitems1 in Hb.
    replace (s1 - 1 + (e1 - s1 + 2) + (e2 - e1 - 1)) with (s2 - 1 + (e2 + 1 - s2) + 0)
      in Hb by lia.
    rewrite Hb. f_equal. lia.
Qed.

Lemma second_fix_lands_a_line_early_witness :
  let lines := split_lines (js "p.f(1,
  2);
go();
p.f(3,
  4);") in
  let block1 := mkContextBlock 1 1 2 (join_lines (slice_lines (1 - 1) 2 lines)) in
  let block2 := mkContextBlock 4 4 5 (join_lines (slice_lines (4 - 1) 5 lines)) in
  exists patched,
    apply_block_fixes lines (manual_fixes (js "p.f") [block1; block2]) = Some patched /\
    length patched = length lines + 2 /\
    nth_error patched (5 + 1) = nth_error lines (5 - 1).
Proof.
  apply (second_fix_lands_a_line_early (js "p.f(1,
  2);
go();
p.f(3,
  4);") (js "p.f") 1 1 2 4 4 5).
  - apply existsb_not_In. reflexivity.
  - lia.
  - lia.
  - lia.
  - vm_compute. lia.
Defined.

(* ===================================================================== *)
(** * More on the pipeline orchestrator *)
(* ===================================================================== *)

(** ** The temporary files *)






Section TempFiles.

Variable cwd : str.
Variables fixMalformedHtmlTags cdn_fixes not_a_function_fixes fixCssStyles
          undefined_variable_fixes shader_fixes : str -> str * nat.
Variable depth : nat.
Context {AST : Type}.
Variable parse : str -> option AST.
Variable oracle : str -> list Issue -> OracleReply.

Local Abbreviation all_passes :=
  (run_passes cwd fixMalformedHtmlTags cdn_fixes not_a_function_fixes fixCssStyles
              undefined_variable_fixes shader_fixes depth parse oracle).

Local Abbreviation whole_run :=
  (processHtmlFile cwd fixMalformedHtmlTags cdn_fixes not_a_function_fixes fixCssStyles
                   undefined_variable_fixes shader_fixes depth parse oracle).




(** X26.  Files are told apart by their location, whatever path names them.
    A run, whether it returns or not, leaves every location as it was apart
    from those of the file under repair, of its backup and of the temporary
    files of the passes. *)
Theorem other_files_untouched (filePath file : str) (fs : FS) :
  file <> resolve cwd filePath ->
  file <> resolve cwd (filePath ++ js ".backup") ->
  ~ In file (temp_files cwd) ->
  fst (whole_run filePath fs) !! file = fs !! file.
Proof using Type.
  intros Hfile Hbackup Htemp.
  unfold processHtmlFile, bind, readFileSync, writeFileSync, ret.
  destruct (names_file filePath) eqn:Hname; [|reflexivity].
  destruct (fs !! resolve cwd filePath) as [original|] eqn:E; [|reflexivity].
  destruct (backup_resolves cwd filePath Hname) as [Hbname _].
  rewrite Hbname.
  pose proof (run_passes_frame cwd fixMalformedHtmlTags cdn_fixes not_a_function_fixes
                fixCssStyles undefined_variable_fixes shader_fixes depth parse oracle
                filePath original file Htemp
                (<[resolve cwd (filePath ++ js ".backup") := original]> fs)) as Hframe.
  destruct (run_passes _ _ _ _ _ _ _ _ _ _ _ _ _) as [fs1 result].
  cbn [fst snd] in Hframe.
  destruct Hframe as [Hframe|[Heq _]]; [|congruence].
  rewrite lookup_insert_ne in Hframe by other_file.
  destruct result as [[currentHtml n]|]; [|exact Hframe].
  destruct (0 <? n); cbn [fst]; rewrite ?lookup_insert_ne by other_file; exact Hframe.
Qed.

End TempFiles.


Lemma other_files_untouched_witness :
  let cwd := js "/work" in
  let filePath := js "page.html" in
  let fs : FS := {[ js "/work/page.html" := js "<p>hi</p>";
                    js "/work/notes.txt" := js "mine" ]} in
  fst (quiet_run cwd filePath fs) !! js "/work/notes.txt" = fs !! js "/work/notes.txt".
Proof.
  intros cwd filePath fs.
  apply (other_files_untouched cwd no_fix no_fix no_fix no_fix no_fix no_fix 1
           parse_never_throws (fun _ _ => extraction_throws) filePath (js "/work/notes.txt") fs).
  - vm_compute. discriminate.
  - vm_compute. discriminate.
  - apply (existsb_not_In_str (js "/work/notes.txt") (temp_files cwd)).
    vm_compute. reflexivity.
Defined.

(* ===================================================================== *)
(** * What a match reads and captures *)
(* ===================================================================== *)

Import RegexReads.

Lemma nth_error_insert {A} (l : list A) (i j : nat) (x y : A) :
  nth_error (<[i := x]> l) j = Some y -> y = x \/ nth_error l j = Some y.
Proof.
  revert i j. induction l as [|a l IH]; intros [|i] [|j] H; cbn in H |- *;
    try discriminate; auto.
  - injection H as <-. left. reflexivity.
  - apply IH in H. exact H.
Qed.

Lemma captures_ok_clear (p : char -> bool) (gs : list nat) (st : mstate) :
  captures_ok p (captures st) -> captures_ok p (captures (clear_groups gs st)).
Proof.
  unfold clear_groups. cbn [captures]. generalize (captures st) as cs.
  induction gs as [|g gs IH]; intros cs Hcs; cbn [fold_left]; [exact Hcs|].
  apply IH. intros i text H. apply nth_error_insert in H.
  destruct H as [H|H]; [discriminate | exact (Hcs i text H)].
Qed.

Lemma captures_ok_set (p : char -> bool) (g : nat) (text : str) (st : mstate) :
  Forall (fun c => p c = true) text ->
  captures_ok p (captures st) -> captures_ok p (captures (set_group g text st)).
Proof.
  intros Htext Hcs i text' H. cbn [set_group captures] in H.
  apply nth_error_insert in H. destruct H as [H|H].
  - injection H as ->. exact Htext.
  - exact (Hcs i text' H).
Qed.

Lemma captures_ok_none (p : char -> bool) (ngroups : nat) :
  captures_ok p (repeat None ngroups).
Proof.
  intros i text H. apply nth_error_In, repeat_spec in H. discriminate.
Qed.

Lemma firstn_add {A} (l : list A) (n1 n2 : nat) :
  firstn (n1 + n2) l = firstn n1 l ++ firstn n2 (skipn n1 l).
Proof.
  revert l. induction n1 as [|n1 IH]; intros l; [reflexivity|].
  destruct l as [|x l]; [cbn [skipn]; rewrite !firstn_nil; reflexivity|].
  cbn [Nat.add firstn skipn app]. rewrite IH. reflexivity.
Qed.

Lemma read_on (p : char -> bool) (e : nat) (rest : str) (n1 n2 : nat) (st1 : mstate) :
  advances e rest n1 st1 ->
  Forall (fun c => p c = true) (firstn n1 rest) ->
  Forall (fun c => p c = true) (firstn n2 (remaining st1)) ->
  Forall (fun c => p c = true) (firstn (n1 + n2) rest).
Proof.
  intros (_ & _ & Hrem) H1 H2. rewrite Hrem in H2.
  rewrite firstn_add. apply Forall_app. split; assumption.
Qed.

Lemma well_here (p : char -> bool) (R : Prop) (st st1 : mstate)
    (k : mstate -> option mstate) (res : mstate) :
  endIndex st1 = endIndex st -> remaining st1 = remaining st ->
  k st1 = Some res -> captures_ok p (captures st1) ->
  exists n st1,
    advances (endIndex st) (remaining st) n st1 /\ k st1 = Some res /\
    captures_ok p (captures st1) /\
    (R -> Forall (fun c => p c = true) (firstn n (remaining st))).
Proof.
  intros He Hr Hk Hcs. exists 0, st1.
  split; [|split; [exact Hk | split; [exact Hcs | intros _; constructor]]].
  unfold advances. rewrite He, Hr. cbn [skipn]. split; [lia | split; [lia | reflexivity]].
Qed.

Lemma well_then (p : char -> bool) (R R1 R2 : Prop) (st st1 : mstate) (n1 : nat)
    (k : mstate -> option mstate) (res : mstate) :
  (R -> R1) -> (R -> R2) ->
  advances (endIndex st) (remaining st) n1 st1 ->
  (R1 -> Forall (fun c => p c = true) (firstn n1 (remaining st))) ->
  (exists n2 st2,
     advances (endIndex st1) (remaining st1) n2 st2 /\ k st2 = Some res /\
     captures_ok p (captures st2) /\
     (R2 -> Forall (fun c => p c = true) (firstn n2 (remaining st1)))) ->
  exists n st2,
    advances (endIndex st) (remaining st) n st2 /\ k st2 = Some res /\
    captures_ok p (captures st2) /\
    (R -> Forall (fun c => p c = true) (firstn n (remaining st))).
Proof.
  intros H1 H2 A1 HR1 (n2 & st2 & A2 & Hk & Hcs2 & HR2).
  exists (n1 + n2), st2.
  split; [eapply advances_trans; eassumption|].
  split; [exact Hk|]. split; [exact Hcs2|].
  intros HR. eapply read_on; [exact A1 | exact (HR1 (H1 HR)) | exact (HR2 (H2 HR))].
Qed.

Lemma repeat_matcher_well (p : char -> bool) (R : Prop) m1 greedy :
  moves_well p R m1 ->
  forall fuel, moves_well p R (fun st k' => repeat_matcher m1 greedy k' fuel st).
Proof.
  intros Hm1 fuel.
  induction fuel as [|fuel IH]; intros st k res H Hcs.
  - apply (well_here p R st st); auto.
  - assert (Hiter : forall res',
      m1 st (fun st1 => if endIndex st1 =? endIndex st then None
                        else repeat_matcher m1 greedy k fuel st1) = Some res' ->
      exists n st1, advances (endIndex st) (remaining st) n st1 /\ k st1 = Some res' /\
                    captures_ok p (captures st1) /\
                    (R -> Forall (fun c => p c = true) (firstn n (remaining st)))).
    { intros res' Hi. destruct (Hm1 _ _ _ Hi Hcs) as (n1 & st1 & A1 & Hi1 & Hcs1 & HR1).
      destruct (endIndex st1 =? endIndex st); [discriminate|].
      apply (well_then p R R R st st1 n1); auto. }
    cbn [repeat_matcher] in H. unfold or_else in H. destruct greedy.
    + destruct (m1 st _) eqn:E.
      * injection H as <-. apply Hiter. reflexivity.
      * apply (well_here p R st st); auto.
    + destruct (k st) eqn:E.
      * injection H as <-. apply (well_here p R st st); auto.
      * apply Hiter. exact H.
Qed.

Lemma step_char_well (p : char -> bool) (R : Prop) (q : char -> bool) :
  (R -> forall x, q x = true -> p x = true) ->
  moves_well p R (fun st k => step_char st q k).
Proof.
  intros Hq st k res H Hcs. unfold step_char in H.
  destruct (remaining st) as [|x t] eqn:E; [discriminate|].
  destruct (q x) eqn:Hx; [|discriminate].
  exists 1, (mkState (S (endIndex st)) t (captures st)).
  split; [|split; [exact H | split; [exact Hcs|]]].
  - unfold advances. cbn [endIndex remaining length skipn].
    split; [lia | split; [lia | reflexivity]].
  - intros HR. cbn [firstn]. constructor; [exact (Hq HR x Hx) | constructor].
Qed.

Lemma cleared_well (p : char -> bool) (R : Prop) m (gs : list nat) :
  moves_well p R m -> moves_well p R (fun st0 => m (clear_groups gs st0)).
Proof.
  intros Hm st k res H Hcs.
  exact (Hm _ _ _ H (captures_ok_clear p gs st Hcs)).
Qed.

(** An expression whose groups read within [p] keeps the captures within
    [p], and reads within [p] itself when [reads] says so. *)
Lemma matcher_well (fl : flags) (start : nat) (p : char -> bool) (r : regex) :
  groups_read fl p r -> moves_well p (reads fl p r) (matcher fl start r).
Proof.
  induction r as [ |c|negated items| |r1 IH1 r2 IH2|r1 IH1 r2 IH2|greedy r1 IH1
                 |greedy r1 IH1|greedy r1 IH1|g r1 IH1|r1 IH1| | ];
    intros Hg; cbn [groups_read] in Hg.
  - intros st k res H Hcs. apply (well_here p _ st st); auto.
  - apply step_char_well. intros HR. exact HR.
  - apply step_char_well. intros HR. exact HR.
  - apply step_char_well. intros HR. exact HR.
  - destruct Hg as [Hg1 Hg2]. intros st k res H Hcs. cbn [matcher] in H.
    destruct (IH1 Hg1 _ _ _ H Hcs) as (n1 & st1 & A1 & H1 & Hcs1 & HR1).
    apply (well_then p _ (reads fl p r1) (reads fl p r2) st st1 n1);
      [intros [R1 _]; exact R1 | intros [_ R2]; exact R2 | exact A1 | exact HR1 |].
    apply (IH2 Hg2); assumption.
  - destruct Hg as [Hg1 Hg2]. intros st k res H Hcs. cbn [matcher] in H.
    unfold or_else in H. destruct (matcher fl start r1 st k) eqn:E.
    + injection H as <-.
      destruct (IH1 Hg1 _ _ _ E Hcs) as (n & st1 & A & E1 & Hcs1 & HR).
      exists n, st1. split; [exact A | split; [exact E1 | split; [exact Hcs1|]]].
      intros [R1 _]. exact (HR R1).
    + destruct (IH2 Hg2 _ _ _ H Hcs) as (n & st1 & A & H1 & Hcs1 & HR).
      exists n, st1. split; [exact A | split; [exact H1 | split; [exact Hcs1|]]].
      intros [_ R2]. exact (HR R2).
  - intros st k res H Hcs. cbn [matcher] in H.
    exact (repeat_matcher_well p _ _ greedy (cleared_well p _ _ _ (IH1 Hg))
             _ st k res H Hcs).
  - intros st k res H Hcs. cbn [matcher] in H.
    destruct (cleared_well p _ _ _ (IH1 Hg) _ _ _ H Hcs) as (n1 & st1 & A1 & H1 & Hcs1 & HR1).
    apply (well_then p _ (reads fl p r1) (reads fl p r1) st st1 n1); auto.
    exact (repeat_matcher_well p _ _ greedy (cleared_well p _ _ _ (IH1 Hg))
             _ st1 k res H1 Hcs1).
  - intros st k res H Hcs. cbn [matcher] in H.
    assert (Honce : forall res',
      matcher fl start r1 (clear_groups (groups r1) st)
        (fun st1 => if endIndex st1 =? endIndex st then None else k st1) = Some res' ->
      exists n st1, advances (endIndex st) (remaining st) n st1 /\ k st1 = Some res' /\
                    captures_ok p (captures st1) /\
                    (reads fl p (Opt greedy r1) ->
                     Forall (fun c => p c = true) (firstn n (remaining st)))).
    { intros res' Ho.
      destruct (cleared_well p _ _ _ (IH1 Hg) _ _ _ Ho Hcs) as (n1 & st1 & A1 & Ho1 & Hcs1 & HR1).
      destruct (endIndex st1 =? endIndex st); [discriminate|].
      exists n1, st1.
      split; [exact A1 | split; [exact Ho1 | split; [exact Hcs1 | exact HR1]]]. }
    unfold or_else in H. destruct greedy.
    + destruct (matcher fl start r1 _ _) eqn:E.
      * injection H as <-. apply Honce. reflexivity.
      * apply (well_here p _ st st); auto.
    + destruct (k st) eqn:E.
      * injection H as <-. apply (well_here p _ st st); auto.
      * apply Honce. exact H.
  - destruct Hg as [Hr1 Hg1]. intros st k res H Hcs. cbn [matcher] in H.
    destruct (IH1 Hg1 _ _ _ H Hcs) as (n1 & st1 & A1 & H1 & Hcs1 & HR1).
    exists n1, (set_group g (firstn (endIndex st1 - endIndex st) (remaining st)) st1).
    split; [exact A1 | split; [exact H1 | split; [|exact HR1]]].
    apply captures_ok_set; [|exact Hcs1].
    destruct A1 as (_ & He & _). rewrite He.
    replace (endIndex st + n1 - endIndex st) with n1 by lia. exact (HR1 Hr1).
  - intros st k res H Hcs. cbn [matcher] in H.
    destruct (matcher fl start r1 st Some) as [st1|] eqn:E; [|discriminate].
    destruct (IH1 Hg _ _ _ E Hcs) as (n1 & st1' & _ & [= <-] & Hcs1 & _).
    apply (well_here p _ st (mkState (endIndex st) (remaining st) (captures st1'))); auto.
  - intros st k res H Hcs. cbn [matcher] in H.
    destruct (start + endIndex st =? 0); [|discriminate].
    apply (well_here p _ st st); auto.
  - intros st k res H Hcs. cbn [matcher] in H.
    destruct (remaining st) eqn:E in H; [|discriminate].
    apply (well_here p _ st st); auto.
Qed.

Lemma exec_from_captures (fl : flags) (p : char -> bool) (r : regex) (ngroups : nat)
    (s : str) (i : nat) (m : match_result) :
  groups_read fl p r ->
  exec_from fl r ngroups s i = Some m -> captures_ok p (m_groups m).
Proof.
  intros Hg. revert i.
  induction s as [|x s IH]; intros i H; cbn [exec_from] in H;
    destruct (matcher fl i r _ Some) as [st|] eqn:E; try discriminate.
  - injection H as <-.
    destruct (matcher_well fl i p r Hg _ _ _ E (captures_ok_none p ngroups))
      as (n & st1 & _ & [= <-] & Hcs & _).
    exact Hcs.
  - injection H as <-.
    destruct (matcher_well fl i p r Hg _ _ _ E (captures_ok_none p ngroups))
      as (n & st1 & _ & [= <-] & Hcs & _).
    exact Hcs.
  - apply (IH (S i)). exact H.
Qed.

Lemma exec_all_from_captures (fl : flags) (p : char -> bool) (r : regex) (ngroups : nat)
    (s : str) :
  groups_read fl p r ->
  forall fuel lastIndex ms,
    exec_all_from fl r ngroups s lastIndex fuel = Some ms ->
    Forall (fun m => captures_ok p (m_groups m)) ms.
Proof.
  intros Hg fuel. induction fuel as [|fuel IH]; intros lastIndex ms H;
    cbn [exec_all_from] in H; [discriminate|].
  destruct (exec_from fl r ngroups (skipn lastIndex s) lastIndex) as [m|] eqn:E.
  - destruct (m_end m =? m_index m); [discriminate|].
    destruct (exec_all_from fl r ngroups s (m_end m) fuel) as [ms'|] eqn:E';
      [|discriminate].
    injection H as <-. constructor.
    + eapply exec_from_captures; eassumption.
    + eapply IH. exact E'.
  - injection H as <-. constructor.
Qed.

Lemma group_ok (p : char -> bool) (n : nat) (m : match_result) :
  captures_ok p (m_groups m) -> Forall (fun c => p c = true) (group n m).
Proof.
  intros Hcs. unfold group.
  destruct (nth_error (m_groups m) (n - 1)) as [[text|]|] eqn:E; [|constructor|constructor].
  exact (Hcs _ _ E).
Qed.

(** A match of an expression that needs a character is not empty. *)
Lemma exec_from_needs_nonempty (fl : flags) (c : char) (r : regex) (ngroups : nat)
    (s : str) (i : nat) (m : match_result) :
  needs c r = true -> not_letter c = true ->
  exec_from fl r ngroups s i = Some m -> m_index m < m_end m.
Proof.
  intros Hneeds Hc. revert i.
  induction s as [|x s IH]; intros i H; cbn [exec_from] in H;
    destruct (matcher fl i r _ Some) as [st|] eqn:E; try discriminate.
  - apply (matcher_needs fl i c r Hneeds Hc) in E.
    destruct E as (n & st1 & _ & _ & Hin). cbn [remaining] in Hin.
    rewrite firstn_nil in Hin. destruct Hin.
  - injection H as <-. apply (matcher_needs fl i c r Hneeds Hc) in E.
    destruct E as (n & st1 & (_ & He & _) & [= <-] & Hin).
    cbn [endIndex remaining m_index m_end] in *.
    destruct n as [|n]; [destruct Hin | lia].
  - apply (IH (S i)). exact H.
Qed.

(* ===================================================================== *)
(** * Properties of the error-message classifier *)
(* ===================================================================== *)

Import Classifier.

(** Under the [i] flag too, the two classes hold name characters only. *)
Lemma dotted_class_chars (x : char) :
  class_mem ignore_case dotted_class x = true -> is_name_char x = true.
Proof.
  assert (E : dotted_class = [Range 97 122; Range 65 90; Range 48 57;
                              One 95; One 36; One 46]%N) by reflexivity.
  rewrite E. unfold class_mem, is_name_char, is_word_char.
  change (ch "$") with 36%N. change (ch ".") with 46%N.
  cbn [existsb item_mem ignoreCase ignore_case].
  rewrite !orb_true_iff, !andb_true_iff, !orb_true_iff, !andb_true_iff,
          !N.leb_le, !N.eqb_eq.
  lia.
Qed.

Lemma name_class_chars (x : char) :
  class_mem ignore_case name_class x = true -> is_name_char x = true.
Proof.
  assert (E : name_class = [Range 97 122; Range 65 90; Range 48 57;
                            One 95; One 36]%N) by reflexivity.
  rewrite E. unfold class_mem, is_name_char, is_word_char.
  change (ch "$") with 36%N. change (ch ".") with 46%N.
  cbn [existsb item_mem ignoreCase ignore_case].
  rewrite !orb_true_iff, !andb_true_iff, !orb_true_iff, !andb_true_iff,
          !N.leb_le, !N.eqb_eq.
  lia.
Qed.

Lemma patterns_capture_names :
  groups_read ignore_case is_name_char stdPattern /\
  groups_read ignore_case is_name_char stackPattern /\
  groups_read ignore_case is_name_char genericPattern.
Proof.
  unfold stdPattern, stackPattern, genericPattern, lit.
  cbn [seqs fold_right map js list_ascii_of_string groups_read reads xorb].
  repeat split; try exact dotted_class_chars; try exact name_class_chars.
Qed.

Lemma record_of_ok (m : match_result) :
  captures_ok is_name_char (m_groups m) -> names_ok (record_of m).
Proof.
  intros Hcs. split; cbn [record_of objectName functionName]; apply group_ok; exact Hcs.
Qed.

Lemma generic_loop_ends (message : str) :
  exists ms, exec_all ignore_case genericPattern 2 message = Some ms.
Proof.
  apply (exec_all_from_total ignore_case genericPattern 2 message); [|lia|lia].
  intros s' i m. apply (exec_from_needs_nonempty ignore_case (ch ".")); reflexivity.
Qed.

Lemma matches_of_ok (message : str) :
  exists matches, matches_of message = Some matches /\ Forall names_ok matches.
Proof.
  destruct patterns_capture_names as (Hstd & Hstack & Hgeneric).
  unfold matches_of.
  destruct (generic_loop_ends message) as [generic Egen]. rewrite Egen.
  eexists. split; [reflexivity|].
  apply Forall_app. split; [|apply Forall_app; split].
  - destruct (exec ignore_case stdPattern 2 message) as [m|] eqn:E; [|constructor].
    apply (exec_from_captures _ is_name_char) in E; [|exact Hstd].
    destruct (truthy_group 2 m).
    + constructor; [apply record_of_ok; exact E | constructor].
    + constructor; [|constructor].
      split; cbn [objectName functionName]; [repeat constructor | apply group_ok; exact E].
  - destruct (exec ignore_case stackPattern 2 message) as [m|] eqn:E; [|constructor].
    apply (exec_from_captures _ is_name_char) in E; [|exact Hstack].
    constructor; [apply record_of_ok; exact E | constructor].
  - apply Forall_map.
    apply (exec_all_from_captures _ is_name_char) in Egen; [|exact Hgeneric].
    eapply List.Forall_impl; [|exact Egen]. intros m. apply record_of_ok.
Qed.

Lemma NoDup_snoc {A} (l : list A) (x : A) :
  List.NoDup l -> ~ In x l -> List.NoDup (l ++ [x]).
Proof.
  induction 1 as [|y l Hy Hl IH]; intros Hx; cbn [app].
  - constructor; [intros [] | constructor].
  - constructor.
    + intros Hin. apply in_app_or in Hin. destruct Hin as [Hin|[->|[]]].
      * exact (Hy Hin).
      * apply Hx. left. reflexivity.
    + apply IH. intros Hin. apply Hx. right. exact Hin.
Qed.

(** What the loops keep true of [seen] and [functionData]: the keys seen
    are the full names of the records, no two records have the same full
    name, and every record holds names to the letter. *)
Lemma add_unique_invariant (st : gset str * list FunctionData) (m : FunctionData) :
  names_ok m ->
  (forall key, key ∈ fst st <-> In key (map fullName (snd st))) ->
  List.NoDup (map fullName (snd st)) ->
  Forall names_ok (snd st) ->
  (forall key, key ∈ fst (add_unique st m) <-> In key (map fullName (snd (add_unique st m)))) /\
  List.NoDup (map fullName (snd (add_unique st m))) /\
  Forall names_ok (snd (add_unique st m)).
Proof.
  destruct st as [seen functionData]. cbn [fst snd]. intros Hm Hseen Hnodup Hok.
  unfold add_unique. destruct (bool_decide_reflect (fullName m ∈ seen)) as [Hin|Hout];
    cbn [fst snd]; [auto|].
  rewrite map_app. cbn [map]. split; [|split].
  - intros key. rewrite in_app_iff, elem_of_union, elem_of_singleton, Hseen.
    cbn [In]. intuition congruence.
  - apply NoDup_snoc; [exact Hnodup|].
    intros Hkey. apply Hout, Hseen. exact Hkey.
  - apply Forall_app. split; [exact Hok | constructor; [exact Hm | constructor]].
Qed.

Lemma fold_add_unique_invariant (matches : list FunctionData) :
  Forall names_ok matches ->
  forall st,
  (forall key, key ∈ fst st <-> In key (map fullName (snd st))) ->
  List.NoDup (map fullName (snd st)) ->
  Forall names_ok (snd st) ->
  (forall key, key ∈ fst (fold_left add_unique matches st) <->
               In key (map fullName (snd (fold_left add_unique matches st)))) /\
  List.NoDup (map fullName (snd (fold_left add_unique matches st))) /\
  Forall names_ok (snd (fold_left add_unique matches st)).
Proof.
  induction 1 as [|m matches Hm Hmatches IH]; intros st Hseen Hnodup Hok;
    cbn [fold_left]; [auto|].
  destruct (add_unique_invariant st m Hm Hseen Hnodup Hok) as (H1 & H2 & H3).
  apply IH; assumption.
Qed.

Lemma classify_invariant (messages : list str) :
  forall st,
  (forall key, key ∈ fst st <-> In key (map fullName (snd st))) ->
  List.NoDup (map fullName (snd st)) ->
  Forall names_ok (snd st) ->
  exists st', classify messages st = Some st' /\
              List.NoDup (map fullName (snd st')) /\ Forall names_ok (snd st').
Proof.
  induction messages as [|message rest IH]; intros st Hseen Hnodup Hok;
    cbn [classify]; [eauto|].
  destruct (matches_of_ok message) as (matches & -> & Hmatches).
  destruct (fold_add_unique_invariant matches Hmatches st Hseen Hnodup Hok)
    as (H1 & H2 & H3).
  apply IH; assumption.
Qed.

Lemma classify_from_empty (messages : list str) :
  exists functionData,
    extractFunctionDetailsFromErrors messages = Some functionData /\
    List.NoDup (map fullName functionData) /\ Forall names_ok functionData.
Proof.
  unfold extractFunctionDetailsFromErrors.
  destruct (classify_invariant messages (∅, [])) as ([seen functionData] & -> & H2 & H3).
  - intros key. cbn [fst snd map In]. rewrite elem_of_empty. tauto.
  - constructor.
  - constructor.
  - exists functionData. auto.
Qed.

(** X27.  The classifier returns on every list of messages, and both names of
    every record that it returns are made of letters, digits, [_], [$] and
    [.] only: what the remediation that comments blocks out asks of the
    names it is given. *)
Theorem classifier_names_are_safe (messages : list str) :
  exists functionData,
    extractFunctionDetailsFromErrors messages = Some functionData /\
    Forall (fun f => Forall (fun c => is_name_char c = true) (objectName f) /\
                     Forall (fun c => is_name_char c = true) (functionName f))
           functionData.
Proof.
  destruct (classify_from_empty messages) as (functionData & E & _ & Hok).
  exists functionData. split; [exact E | exact Hok].
Qed.

(** X28.  No two records that the classifier returns name the same function: the
    full names [objectName.functionName] are pairwise different. *)
Theorem classifier_no_duplicates (messages : list str) (functionData : list FunctionData) :
  extractFunctionDetailsFromErrors messages = Some functionData ->
  List.NoDup (map fullName functionData).
Proof.
  intros E. destruct (classify_from_empty messages) as (functionData' & E' & Hnodup & _).
  congruence.
Qed.

Lemma classifier_no_duplicates_witness :
  List.NoDup (map fullName [mkFunctionData (js "window") (js "p.foo");
                       mkFunctionData (js "p") (js "foo")]).
Proof.
  apply (classifier_no_duplicates
           [js "TypeError: p.foo is not a function"; js "p.foo() is not a function"]).
  vm_compute. reflexivity.
Defined.

(* ===================================================================== *)
(** * More on the "is likely CSS" predicate *)
(* ===================================================================== *)

Lemma test_needs (fl : flags) (c : char) (r : regex) (text : str) :
  needs c r = true -> not_letter c = true -> test fl r text = true -> In c text.
Proof.
  intros Hneeds Hc. unfold test, exec.
  destruct (exec_from fl r 0 text 0) as [m|] eqn:E; [|discriminate].
  intros _. eapply exec_from_needs; eassumption.
Qed.

(** X29.  A text that passes for CSS holds a [':'], a ['{'] and a ['}']. *)
Theorem likely_css_has_a_rule (text : str) :
  isLikelyCss text = true ->
  In (ch ":") text /\ In (ch "{") text /\ In (ch "}") text.
Proof.
  unfold isLikelyCss. intros H.
  assert (Hboth : test no_flags hasCssProperties_re text = true /\
                  test no_flags hasCssRules_re text = true).
  { destruct (test no_flags hasCssProperties_re text),
             (test no_flags hasCssRules_re text); auto;
      destruct (length text <? 100); discriminate. }
  destruct Hboth as [Hprops Hrules].
  split; [|split].
  - exact (test_needs no_flags (ch ":") hasCssProperties_re text eq_refl eq_refl Hprops).
  - exact (test_needs no_flags (ch "{") hasCssRules_re text eq_refl eq_refl Hrules).
  - exact (test_needs no_flags (ch "}") hasCssRules_re text eq_refl eq_refl Hrules).
Qed.

Lemma likely_css_has_a_rule_witness :
  In (ch ":") (js "body { color: red; }") /\
  In (ch "{") (js "body { color: red; }") /\
  In (ch "}") (js "body { color: red; }").
Proof.
  apply (likely_css_has_a_rule (js "body { color: red; }")). vm_compute. reflexivity.
Defined.

(* ===================================================================== *)
(** * The fallback for an extra-close issue *)
(* ===================================================================== *)

(** The greedy star over [[^)]], followed by something that only succeeds
    at the end of the input: it runs to the end of a text without [')'],
    and fails on a text with one. *)
Lemma not_paren_run (start : nat) (k : mstate -> option mstate) :
  (forall e x t caps, k (mkState e (x :: t) caps) = None) ->
  forall (b : str) (e fuel : nat) (caps : list (option str)),
  ~ In rparen b -> length b <= fuel ->
  repeat_matcher
    (fun st0 => matcher no_flags start (Class true [One rparen]) (clear_groups [] st0))
    true k fuel (mkState e b caps) =
  k (mkState (e + length b) [] caps).
Proof.
  intros Hk. induction b as [|x t IH]; intros e fuel caps Hout Hfuel.
  - cbn [length]. rewrite Nat.add_0_r. destruct fuel; reflexivity.
  - destruct fuel as [|fuel]; [cbn [length] in Hfuel; lia|].
    cbn [repeat_matcher matcher clear_groups fold_left endIndex remaining captures step_char].
    unfold class_mem. cbn [existsb item_mem ignoreCase no_flags andb orb].
    destruct (N.eqb_spec rparen x) as [E|_];
      [exfalso; apply Hout; left; symmetry; exact E|].
    cbn [orb xorb].
    replace (S e =? e) with false by (symmetry; apply Nat.eqb_neq; lia).
    rewrite IH by (cbn [length] in Hfuel; try lia; intros H; apply Hout; right; exact H).
    cbn [length]. replace (S e + length t) with (e + S (length t)) by lia.
    unfold or_else. destruct (k _); [reflexivity | apply Hk].
Qed.

Lemma paren_ahead_fails (start : nat) (k : mstate -> option mstate) :
  (forall e x t caps, k (mkState e (x :: t) caps) = None) ->
  forall (t : str) (e fuel : nat) (caps : list (option str)),
  In rparen t ->
  repeat_matcher
    (fun st0 => matcher no_flags start (Class true [One rparen]) (clear_groups [] st0))
    true k fuel (mkState e t caps) = None.
Proof.
  intros Hk. induction t as [|x t IH]; intros e fuel caps Hin; [destruct Hin|].
  destruct fuel as [|fuel]; [apply Hk|].
  cbn [repeat_matcher matcher clear_groups fold_left endIndex remaining captures step_char].
  unfold class_mem. cbn [existsb item_mem ignoreCase no_flags andb orb].
  destruct (N.eqb_spec rparen x) as [E|Hne]; cbn [orb xorb or_else].
  - apply Hk.
  - replace (S e =? e) with false by (symmetry; apply Nat.eqb_neq; lia).
    rewrite IH by (destruct Hin as [E|Hin]; [congruence | exact Hin]).
    cbn [or_else]. apply Hk.
Qed.

(** [/\)([^)]*$)/] finds the last [')'] of the text, and its group is what
    follows it. *)
Lemma exec_last_close_paren (b : str) :
  ~ In rparen b ->
  forall (a : str) (i : nat),
  exec_from no_flags last_close_paren 1 (a ++ rparen :: b) i =
  Some (mkMatch (i + length a) (i + length a + S (length b)) (rparen :: b) [Some b]).
Proof.
  intros Hb. induction a as [|x a IH]; intros i.
  - cbn [app length]. unfold last_close_paren.
    cbn [exec_from seqs fold_right matcher step_char remaining endIndex captures
         canonicalize ignoreCase no_flags andb groups repeat].
    change (ch ")") with rparen. rewrite N.eqb_refl.
    rewrite (not_paren_run i) by (reflexivity || exact Hb || lia).
    cbn [matcher remaining endIndex captures set_group].
    replace (1 + length b - 1) with (length b) by lia.
    rewrite firstn_all. cbn [firstn Nat.add]. rewrite firstn_all.
    do 2 f_equal; lia.
  - cbn [app length]. unfold last_close_paren.
    cbn [exec_from seqs fold_right matcher step_char remaining endIndex captures
         canonicalize ignoreCase no_flags andb groups repeat].
    change (ch ")") with rparen.
    destruct (N.eqb_spec rparen x) as [E|Hne].
    + rewrite (paren_ahead_fails i)
        by (reflexivity || (apply in_or_app; right; left; reflexivity)).
      fold last_close_paren. rewrite IH. do 2 f_equal; lia.
    + fold last_close_paren. rewrite IH. do 2 f_equal; lia.
Qed.

Lemma remove_last_close_paren (a b : str) :
  ~ In rparen b ->
  replace_regex no_flags last_close_paren 1 (a ++ rparen :: b) (js "$1") = a ++ b.
Proof.
  intros Hb. unfold replace_regex, exec. rewrite exec_last_close_paren by exact Hb.
  cbn [m_index m_end m_text m_groups Nat.add].
  rewrite firstn_exact by reflexivity.
  replace (a ++ rparen :: b) with ((a ++ rparen :: b) ++ []) at 2 by apply app_nil_r.
  rewrite skipn_exact by (rewrite length_app; cbn [length]; lia).
  change (GetSubstitution (rparen :: b) ((a ++ rparen :: b) ++ []) (length a) [Some b] (js "$1"))
    with b.
  rewrite app_nil_r. reflexivity.
Qed.

(** X30.  When a suggestion matches its line neither exactly nor by similarity
    and the first issue described on that line is an extra-close issue, the
    fallback removes the last [')'] of the line and nothing else, and counts
    one fix. *)
Theorem extra_fallback_removes_last_paren (ds : list IssueDescription)
    (lines : list str) (fc : nat) (log : list LogLine) (fx : Patch)
    (issue : IssueDescription) (others : list IssueDescription) (a b : str) :
  let i := Z.to_nat (fix_lineNumber fx - 1) in
  (1 <= fix_lineNumber fx <= Z.of_nat (length lines))%Z ->
  nth i lines [] = a ++ rparen :: b -> ~ In rparen b ->
  includes (nth i lines []) (fix_original fx) = false ->
  (threshold <? calculateStringSimilarity (nth i lines []) (fix_original fx))%float = false ->
  List.filter (fun d => (Z.of_nat (d_lineNumber d) =? fix_lineNumber fx)%Z) ds
    = issue :: others ->
  d_type issue = extra_close ->
  let r := apply_fix ds (lines, fc, log) fx in
  nth i (fst (fst r)) [] = a ++ b /\ snd (fst r) = fc + 1.
Proof.
  intros i Hrange Hline Hb Hinc Hsim Hds Hty r. subst r. unfold apply_fix.
  replace (_ && _) with true
    by (symmetry; apply andb_true_iff; split; [apply Z.leb_le | apply Z.ltb_lt]; lia).
  fold i. rewrite Hinc, Hsim, Hds, Hty. cbn [fst snd].
  rewrite nth_insert_same by lia.
  rewrite Hline, remove_last_close_paren by exact Hb.
  split; reflexivity.
Qed.

Lemma extra_fallback_removes_last_paren_witness :
  let ds := [mkDescription extra_close 1] in
  let lines := [js "draw(x)) + f(y);"] in
  let fx := mkPatch 1 (js "0000000000000000") (js "draw(x) + f(y);") in
  let r := apply_fix ds (lines, 0, []) fx in
  nth 0 (fst (fst r)) [] = js "draw(x)) + f(y" ++ js ";" /\ snd (fst r) = 0 + 1.
Proof.
  apply (extra_fallback_removes_last_paren
           [mkDescription extra_close 1] [js "draw(x)) + f(y);"] 0 []
           (mkPatch 1 (js "0000000000000000") (js "draw(x) + f(y);"))
           (mkDescription extra_close 1) [] (js "draw(x)) + f(y") (js ";")).
  - vm_compute. split; discriminate.
  - reflexivity.
  - apply existsb_not_In. reflexivity.
  - vm_compute. reflexivity.
  - vm_compute. reflexivity.
  - reflexivity.
  - reflexivity.
Defined.
